(** * Experience cache, window sampler, lambda-return and driver of [tools.py]

    A shallow embedding of the experience-management layer of [tools.py]:
    [convert], [add_to_cache], [erase_over_episodes], [sample_episodes],
    [static_scan_for_lambda_return], [lambda_return] and the per-tick body of
    [simulate_multi], with the properties the specification states of them.

    Conventions.
    - A Python [dict] is an insertion-ordered association list with unique
      keys ([dict_get], [dict_set], [dict_del]).
    - A Python exception is a value of [exn]; a function that mutates its
      argument and may raise returns the mutated object together with a
      [result].
    - Python integers are [Z]; floats are idealised as rationals [Q] (or as
      the elements of a commutative ring for the return estimator); rounding
      is not modelled.
    - A NumPy array is a view (buffer, offset, length) into a store of
      buffers, so that basic slicing aliases its operand as it does in NumPy. *)

From Stdlib Require Import ZArith QArith Qminmax Lia Ring Setoid.
From Stdlib Require Import Reals Lra.
From stdpp Require Import base decidable option list sorting strings gmap.

Local Open Scope string_scope.
Local Open Scope list_scope.

(** ** Exceptions and results *)

Inductive exn : Set :=
  | KeyError
  | IndexError
  | AttributeError
  | NotImplementedError
  | ValueError
  | StopIteration
  | AssertionError
  | UnboundLocalError
  | RuntimeError.

Inductive result (A : Type) : Type :=
  | Ok (a : A)
  | Raise (e : exn).

Arguments Ok {A} a.
Arguments Raise {A} e.

Global Instance result_ret : MRet result := λ A a, Ok a.
Global Instance result_bind : MBind result := λ A B k r,
  match r with
  | Ok a => k a
  | Raise e => Raise e
  end.

Definition of_option {A : Type} (e : exn) (o : option A) : result A :=
  match o with
  | Some a => Ok a
  | None => Raise e
  end.

Definition is_ok {A : Type} (r : result A) : bool :=
  match r with
  | Ok _ => true
  | Raise _ => false
  end.

(** ** Python dictionaries

    [d[k]] is [dict_get]; [d[k] = v] is [dict_set], which overwrites in place
    or appends at the end; [del d[k]] is [dict_del]. *)

Abbreviation pydict K V := (list (K * V)).

Section pydict.
Context {K V : Type} `{EqDecision K}.

Fixpoint dict_get (d : pydict K V) (k : K) : option V :=
  match d with
  | [] => None
  | (k', v) :: d' => if decide (k = k') then Some v else dict_get d' k
  end.

Fixpoint dict_set (d : pydict K V) (k : K) (v : V) : pydict K V :=
  match d with
  | [] => [(k, v)]
  | (k', v') :: d' =>
      if decide (k = k') then (k', v) :: d' else (k', v') :: dict_set d' k v
  end.

Fixpoint dict_del (d : pydict K V) (k : K) : pydict K V :=
  match d with
  | [] => []
  | (k', v') :: d' =>
      if decide (k = k') then d' else (k', v') :: dict_del d' k
  end.

Definition dict_in (d : pydict K V) (k : K) : bool :=
  bool_decide (is_Some (dict_get d k)).

Definition dict_keys (d : pydict K V) : list K := d.*1.
Definition dict_values (d : pydict K V) : list V := d.*2.

(** A list of pairs is a dictionary when its keys are pairwise distinct. *)
Definition dict_wf (d : pydict K V) : Prop := NoDup (dict_keys d).
End pydict.

(** ** NumPy values

    The values stored in the cache are whatever [np.array] accepts.  NumPy is
    a library the code calls: the element type and the operations the code
    uses on it form an interface. *)

Inductive np_class : Set := floating | signedinteger | uint8_class | bool_class.

Inductive np_dtype : Set :=
  | float16 | float32 | float64
  | int16 | int32 | int64
  | uint8
  | bool_.

Class NumPy (V : Type) : Type := {
  (** [issubdtype v c] is [np.issubdtype(np.array(v).dtype, c)] *)
  issubdtype : V → np_class → bool;
  (** [astype v t] is [np.array(v).astype(t)] *)
  astype : V → np_dtype → V;
  (** [zero_mul v] is [0 * v] *)
  zero_mul : V → V;
  (** the Python constant [True] *)
  vTrue : V;
  (** a Python float as a value *)
  vfloat : Q → V
}.

(** A NumPy array seen along its first axis: a window of [nd_len] rows that
    starts at row [nd_off] of the buffer [nd_base]. *)
Record ndview : Set := NdView { nd_base : nat; nd_off : nat; nd_len : nat }.

(** A field of an episode is a Python list (as [add_to_cache] builds it) or a
    NumPy array (as [load_episodes] reads it from disk). *)
Inductive pyseq (V : Type) : Type :=
  | PList (l : list V)
  | NdArray (a : ndview).

Arguments PList {V} l.
Arguments NdArray {V} a.

Definition seq_len {V : Type} (s : pyseq V) : nat :=
  match s with
  | PList l => length l
  | NdArray a => nd_len a
  end.

Abbreviation Episode V := (pydict string (pyseq V)).
Abbreviation Cache K V := (pydict K (Episode V)).

(** Identifiers of episodes, with the order [<=] Python sorts them by. *)
Class EpisodeId (K : Type) : Type := {
  key_eq_dec :: EqDecision K;
  key_le : relation K;
  key_le_dec :: RelDecision key_le
}.

Section cache.
Context {V : Type} `{!NumPy V}.

(** [convert(value, precision=32)] *)
Definition convert (value : V) (precision : Z) : result V :=
  if issubdtype value floating then
    dtype ← of_option KeyError
      (dict_get [(16%Z, float16); (32%Z, float32); (64%Z, float64)] precision);
    Ok (astype value dtype)
  else if issubdtype value signedinteger then
    dtype ← of_option KeyError
      (dict_get [(16%Z, int16); (32%Z, int32); (64%Z, int64)] precision);
    Ok (astype value dtype)
  else if issubdtype value uint8_class then Ok (astype value uint8)
  else if issubdtype value bool_class then Ok (astype value bool_)
  else Raise NotImplementedError.

(** [for key, val in transition.items(): cache[id][key] = [convert(val)]] *)
Fixpoint fill_new_episode (ep : Episode V) (items : pydict string V)
    : Episode V * result unit :=
  match items with
  | [] => (ep, Ok ())
  | (key, val) :: rest =>
      match convert val 32 with
      | Ok c => fill_new_episode (dict_set ep key (PList [c])) rest
      | Raise e => (ep, Raise e)
      end
  end.

(** The body of the second loop of [add_to_cache], for one item. *)
Definition append_value (ep : Episode V) (key : string) (val : V)
    : Episode V * result unit :=
  match dict_get ep key with
  | None =>
      (* fill missing data(action, etc.) at second time *)
      match convert (zero_mul val) 32 with
      | Raise e => (ep, Raise e)
      | Ok z =>
          let ep1 := dict_set ep key (PList [z]) in
          match convert val 32 with
          | Raise e => (ep1, Raise e)
          | Ok c => (dict_set ep1 key (PList ([z] ++ [c])), Ok ())
          end
      end
  | Some (PList l) =>
      match convert val 32 with
      | Raise e => (ep, Raise e)
      | Ok c => (dict_set ep key (PList (l ++ [c])), Ok ())
      end
  | Some (NdArray _) => (ep, Raise AttributeError)
  end.

Fixpoint extend_episode (ep : Episode V) (items : pydict string V)
    : Episode V * result unit :=
  match items with
  | [] => (ep, Ok ())
  | (key, val) :: rest =>
      match append_value ep key val with
      | (ep', Ok _) => extend_episode ep' rest
      | (ep', Raise e) => (ep', Raise e)
      end
  end.

Context {K : Type} `{!EpisodeId K}.

(** [add_to_cache(cache, id, transition)]: the cache after the call, and
    whether the call returned or raised. *)
Definition add_to_cache (cache : Cache K V) (id : K) (transition : pydict string V)
    : Cache K V * result unit :=
  match dict_get cache id with
  | None =>
      let '(ep, r) := fill_new_episode [] transition in
      (dict_set cache id ep, r)
  | Some ep =>
      let '(ep', r) := extend_episode ep transition in
      (dict_set cache id ep', r)
  end.

(** *** Eviction *)

Definition item_le : relation (K * Episode V) := λ a b, key_le a.1 b.1.

#[export] Instance item_le_dec : RelDecision item_le :=
  λ a b, key_le_dec a.1 b.1.

(** [sorted(cache.items(), key=lambda x: x[0])] *)
Definition sorted_items (cache : Cache K V) : list (K * Episode V) :=
  merge_sort item_le cache.

(** Truth value of [dataset_size], which is [None] or an integer. *)
Definition truthy (dataset_size : option Z) : bool :=
  match dataset_size with
  | None => false
  | Some n => bool_decide (n ≠ 0%Z)
  end.

(** [len(ep["reward"]) - 1] *)
Definition transitions (ep : Episode V) : result Z :=
  r ← of_option KeyError (dict_get ep "reward");
  Ok (Z.of_nat (seq_len r) - 1)%Z.

(** [not dataset_size or
     step_in_dataset + (len(ep["reward"]) - 1) <= dataset_size] *)
Definition within_budget (dataset_size : option Z) (step_in_dataset : Z)
    (ep : Episode V) : result bool :=
  match dataset_size with
  | None => Ok true
  | Some b =>
      if negb (truthy (Some b)) then Ok true
      else n ← transitions ep;
           Ok (bool_decide (step_in_dataset + n ≤ b)%Z)
  end.

Fixpoint erase_loop (dataset_size : option Z) (items : list (K * Episode V))
    (cache : Cache K V) (step_in_dataset : Z) : Cache K V * result Z :=
  match items with
  | [] => (cache, Ok step_in_dataset)
  | (key, ep) :: rest =>
      match within_budget dataset_size step_in_dataset ep with
      | Raise e => (cache, Raise e)
      | Ok true =>
          match transitions ep with
          | Raise e => (cache, Raise e)
          | Ok n => erase_loop dataset_size rest cache (step_in_dataset + n)%Z
          end
      | Ok false =>
          erase_loop dataset_size rest (dict_del cache key) step_in_dataset
      end
  end.

(** [erase_over_episodes(cache, dataset_size)]: the cache after the call and
    the returned [step_in_dataset]. *)
Definition erase_over_episodes (cache : Cache K V) (dataset_size : option Z)
    : Cache K V * result Z :=
  erase_loop dataset_size (reverse (sorted_items cache)) cache 0%Z.
End cache.

(** *** Vocabulary of the eviction properties *)

Section eviction_vocabulary.
Context {V K : Type} `{!EpisodeId K}.

Definition has_reward (ep : Episode V) : Prop :=
  is_Some (dict_get ep "reward").

(** The transition count of an episode that has a reward field. *)
Definition steps (ep : Episode V) : Z :=
  match dict_get ep "reward" with
  | Some r => (Z.of_nat (seq_len r) - 1)%Z
  | None => 0%Z
  end.

(** Sum over the episodes of a cache of their transition counts. *)
Definition total_steps (items : list (K * Episode V)) : Z :=
  foldr (λ item acc, (steps item.2 + acc)%Z) 0%Z items.

Definition fits (dataset_size : option Z) (step : Z) (ep : Episode V) : bool :=
  match dataset_size with
  | None => true
  | Some b =>
      if bool_decide (b = 0%Z) then true
      else bool_decide (step + steps ep ≤ b)%Z
  end.

(** The episodes a newest-to-oldest scan retains, in scan order. *)
Fixpoint scan (dataset_size : option Z) (step : Z) (items : list (K * Episode V))
    : list (K * Episode V) :=
  match items with
  | [] => []
  | item :: rest =>
      if fits dataset_size step item.2
      then item :: scan dataset_size (step + steps item.2)%Z rest
      else scan dataset_size step rest
  end.

(** [b] is a strictly older identifier than [a]. *)
Definition older (b a : K) : Prop := strict key_le b a.

(** Transitions of the episodes of [cache] that are newer than [k]. *)
Definition newer_total (cache : Cache K V) (k : K) : Z :=
  total_steps (filter (λ item, older k item.1) cache).

Definition evicted (cache cache' : Cache K V) (k : K) : Prop :=
  is_Some (dict_get cache k) ∧ dict_get cache' k = None.
End eviction_vocabulary.

Section eviction_claims.
Context {V K : Type} `{!NumPy V} `{!EpisodeId K}.

(** "If any episode is evicted, then every episode with an older identifier is
    also evicted." *)
Definition evicts_every_older (cache : Cache K V) (dataset_size : option Z) : Prop :=
  let cache' := (erase_over_episodes cache dataset_size).1 in
  ∀ a b, evicted cache cache' a → is_Some (dict_get cache b) → older b a →
         evicted cache cache' b.

(** "When the budget is set (truthy), the retained transitions never exceed
    it and equal the returned value." *)
Definition retains_within (cache : Cache K V) (budget : Z) : Prop :=
  ∃ cache', erase_over_episodes cache (Some budget)
              = (cache', Ok (total_steps cache')) ∧
            (total_steps cache' ≤ budget)%Z.
End eviction_claims.

(** *** Vocabulary of the insertion properties *)

Section insertion_vocabulary.
Context {V K : Type} `{!NumPy V} `{!EpisodeId K}.

(** Successive calls [add_to_cache(cache, id, t)] for [t] in [ts], stopping
    at the first call that raises. *)
Fixpoint add_all (cache : Cache K V) (id : K) (ts : list (pydict string V))
    : Cache K V * result unit :=
  match ts with
  | [] => (cache, Ok ())
  | t :: ts' =>
      match add_to_cache cache id t with
      | (cache', Ok _) => add_all cache' id ts'
      | (cache', Raise e) => (cache', Raise e)
      end
  end.

(** Every field of the episode is a Python list of [n] entries. *)
Definition uniform (n : nat) (ep : Episode V) : Prop :=
  ∀ key s, dict_get ep key = Some s → ∃ l, s = PList l ∧ length l = n.

Definition all_lists (ep : Episode V) : Prop :=
  ∀ key s, dict_get ep key = Some s → ∃ l, s = PList l.

Definition sub_fields {A B : Type} (d : pydict string A) (d' : pydict string B) : Prop :=
  ∀ key, is_Some (dict_get d key) → is_Some (dict_get d' key).

Definition same_fields {A B : Type} (d : pydict string A) (d' : pydict string B) : Prop :=
  sub_fields d d' ∧ sub_fields d' d.

(** [convert] accepts every value of the transition and its zero multiple. *)
Definition convertible (t : pydict string V) : Prop :=
  ∀ key v, (key, v) ∈ t →
    is_ok (convert v 32) = true ∧ is_ok (convert (zero_mul v) 32) = true.

(** "After each call every field's stored list in that episode has the same
    length, equal to the number of inserts so far." *)
Definition lengths_track_inserts (cache : Cache K V) (id : K)
    (ts : list (pydict string V)) : Prop :=
  ∀ n cache_n ep key s,
    (1 ≤ n ≤ length ts)%nat →
    add_all cache id (take n ts) = (cache_n, Ok ()) →
    dict_get cache_n id = Some ep →
    dict_get ep key = Some s →
    seq_len s = n.
End insertion_vocabulary.

(** ** The window sampler

    [sample_episodes] reads the episodes through NumPy.  The arrays that
    [load_episodes] put into the mapping live in a store of buffers; a basic
    slice of such an array is a view of the same buffer, a slice of a Python
    list is a new list, and [np.append] returns a new array that owns its
    rows. *)

Abbreviation Store V := (list (list V)).

(** A field of the window under construction. *)
Inductive wval (V : Type) : Type :=
  | WList (l : list V)      (* a new Python list *)
  | WView (a : ndview)      (* a view of a stored buffer *)
  | WArray (rows : list V). (* a new array *)

Arguments WList {V} l.
Arguments WView {V} a.
Arguments WArray {V} rows.

Abbreviation Window V := (pydict string (wval V)).

(** The generator [np.random.RandomState]: [rs_choice r p] is the position in
    [a] of the element [r.choice(a, p=p)] returns, [rs_randint r low high] is
    [r.randint(low, high)]; both return the next state of the generator. *)
Class RandomState (R : Type) : Type := {
  rs_choice : R → list Q → nat * R;
  rs_randint : R → Z → Z → Z * R
}.

(** What NumPy promises of the two draws. *)
Class RandomStateSpec (R : Type) `{!RandomState R} : Prop := {
  rs_choice_range r p : p ≠ [] → ((rs_choice r p).1 < length p)%nat;
  rs_randint_range r low high :
    (low < high)%Z → (low ≤ (rs_randint r low high).1 < high)%Z
}.

Inductive outcome (A : Type) : Type :=
  | Done (a : A)
  | Raised (e : exn)
  | OutOfFuel.

Arguments Done {A} a.
Arguments Raised {A} e.
Arguments OutOfFuel {A}.

(** The local variables of one pass of the outer loop, the store, and two
    records kept for the statements: [s_cuts], the sizes at which a fragment
    was appended, and [s_drawn], the positions of the episodes a fragment was
    taken from. *)
Record sampling (V : Type) : Type := Sampling {
  s_size : nat;
  s_ret : option (Window V);
  s_store : Store V;
  s_cuts : list nat;
  s_drawn : list nat
}.

Arguments Sampling {V} s_size s_ret s_store s_cuts s_drawn.
Arguments s_size {V} s.
Arguments s_ret {V} s.
Arguments s_store {V} s.
Arguments s_cuts {V} s.
Arguments s_drawn {V} s.

(** [p in s] on strings. *)
Fixpoint substring_of (p s : string) : bool :=
  String.prefix p s ||
  match s with
  | EmptyString => false
  | String _ s' => substring_of p s'
  end.

Section sampler.
Context {V : Type} `{!NumPy V}.

Definition buffer_rows (h : Store V) (a : ndview) : list V :=
  take (nd_len a) (drop (nd_off a) (default [] (h !! nd_base a))).

(** The rows of a field of an episode. *)
Definition rows (h : Store V) (s : pyseq V) : list V :=
  match s with
  | PList l => l
  | NdArray a => buffer_rows h a
  end.

(** The rows of a field of a window. *)
Definition wrows (h : Store V) (w : wval V) : list V :=
  match w with
  | WList l => l
  | WView a => buffer_rows h a
  | WArray r => r
  end.

(** [len(w)] *)
Definition wlen (w : wval V) : nat :=
  match w with
  | WList l => length l
  | WView a => nd_len a
  | WArray r => length r
  end.

(** [v[start:stop]] for [0 <= start]. *)
Definition slice (v : pyseq V) (start stop : nat) : wval V :=
  match v with
  | PList l => WList (take (stop - start) (drop start l))
  | NdArray a =>
      let lo := start `min` nd_len a in
      let hi := stop `min` nd_len a in
      WView {| nd_base := nd_base a; nd_off := nd_off a + lo; nd_len := hi - lo |}
  end.

(** [w[i] = True] *)
Definition set_true (h : Store V) (w : wval V) (i : nat)
    : result (Store V * wval V) :=
  match w with
  | WList l =>
      if decide (i < length l)%nat then Ok (h, WList (<[i := vTrue]> l))
      else Raise IndexError
  | WView a =>
      if decide (i < nd_len a)%nat then
        Ok (<[nd_base a := <[(nd_off a + i)%nat := vTrue]> (default [] (h !! nd_base a))]> h,
            WView a)
      else Raise IndexError
  | WArray r =>
      if decide (i < length r)%nat then Ok (h, WArray (<[i := vTrue]> r))
      else Raise IndexError
  end.

(** [np.append(x, y, axis=0)] *)
Definition np_append (h : Store V) (x y : wval V) : wval V :=
  WArray (wrows h x ++ wrows h y).

(** [if "is_first" in ret: ret["is_first"][i] = True] *)
Definition mark_first (h : Store V) (ret : Window V) (i : nat)
    : result (Store V * Window V) :=
  match dict_get ret "is_first" with
  | None => Ok (h, ret)
  | Some w =>
      '(h', w') ← set_true h w i;
      Ok (h', dict_set ret "is_first" w')
  end.

(** [len(next(iter(d.values())))], inside a generator. *)
Definition first_len {A : Type} (len : A → nat) (d : pydict string A) : result nat :=
  match d with
  | [] => Raise RuntimeError
  | (_, s) :: _ => Ok (len s)
  end.

(** [{k: v[index:stop] for k, v in episode.items() if "log_" not in k}] *)
Fixpoint first_fragment (items : Episode V) (index stop : nat) : Window V :=
  match items with
  | [] => []
  | (k, v) :: rest =>
      if substring_of "log_" k then first_fragment rest index stop
      else (k, slice v index stop) :: first_fragment rest index stop
  end.

(** [{k: np.append(ret[k], v[0:stop], axis=0)
      for k, v in episode.items() if "log_" not in k}] *)
Fixpoint stitch_fragment (h : Store V) (ret : Window V) (items : Episode V)
    (stop : nat) : result (Window V) :=
  match items with
  | [] => Ok []
  | (k, v) :: rest =>
      if substring_of "log_" k then stitch_fragment h ret rest stop
      else
        old ← of_option KeyError (dict_get ret k);
        w ← stitch_fragment h ret rest stop;
        Ok ((k, np_append h old (slice v 0 stop)) :: w)
  end.

(** [p = p / np.sum(p)] for the array [p] of the episode lengths. *)
Definition probabilities (lens : list nat) : list Q :=
  let total := inject_Z (Z.of_nat (sum_list lens)) in
  (λ n, inject_Z (Z.of_nat n) / total)%Q <$> lens.

(** [not ret] *)
Definition window_unset (ret : option (Window V)) : bool :=
  match ret with
  | None | Some [] => true
  | Some (_ :: _) => false
  end.

Context {R : Type} `{!RandomState R}.

(** One pass through the body of [while size < length]. *)
Definition sample_step (episodes : list (Episode V)) (lens : list nat)
    (length : nat) (st : sampling V) (rng : R) : result (sampling V * R) :=
  (* episode = np_random.choice(list(episodes.values()), p=p) *)
  if decide (sum_list lens = 0)%nat then Raise ValueError else
  let '(i, rng) := rs_choice rng (probabilities lens) in
  episode ← of_option ValueError (episodes !! i);
  total ← first_len seq_len episode;
  if decide (total < 2)%nat then
    (* make sure at least one transition included *)
    Ok (st, rng)
  else if window_unset (s_ret st) then
    let '(index, rng) := rs_randint rng 0 (Z.of_nat total - 1) in
    let index := Z.to_nat index in
    let ret := first_fragment episode index ((index + length) `min` total) in
    '(h, ret) ← mark_first (s_store st) ret 0;
    size ← first_len wlen ret;
    Ok (Sampling size (Some ret) h (s_cuts st) (s_drawn st ++ [i]), rng)
  else
    (* 'is_first' comes after 'is_last' *)
    let index := 0%nat in
    let possible := (length - s_size st)%nat in
    ret ← stitch_fragment (s_store st) (default [] (s_ret st)) episode
          ((index + possible) `min` total);
    '(h, ret) ← mark_first (s_store st) ret (s_size st);
    size ← first_len wlen ret;
    Ok (Sampling size (Some ret) h (s_cuts st ++ [s_size st]) (s_drawn st ++ [i]),
        rng).

(** [while size < length: ...] with a bound on the number of draws. *)
Fixpoint sample_loop (fuel : nat) (episodes : list (Episode V)) (lens : list nat)
    (length : nat) (st : sampling V) (rng : R) : outcome (sampling V * R) :=
  if decide (s_size st < length)%nat then
    match fuel with
    | O => OutOfFuel
    | S fuel' =>
        match sample_step episodes lens length st rng with
        | Raise e => Raised e
        | Ok (st', rng') => sample_loop fuel' episodes lens length st' rng'
        end
    end
  else Done (st, rng).

(** One pass of [while True], up to its [yield ret]: the sampling it ends in
    (with the yielded [ret] and the store) and the state of the generator. *)
Definition sample_window {K : Type} (fuel : nat) (h : Store V)
    (episodes : Cache K V) (length : nat) (rng : R) : outcome (sampling V * R) :=
  match mapM (first_len seq_len) (dict_values episodes) with
  | Raise e => Raised e
  | Ok lens =>
      sample_loop fuel (dict_values episodes) lens length
        (Sampling 0 None h [] []) rng
  end.

(** The first [n] windows of [sample_episodes(episodes, length, seed)], each
    within [fuel] draws; [rng] is [np.random.RandomState(seed)]. *)
Fixpoint sample_episodes {K : Type} (n fuel : nat) (h : Store V)
    (episodes : Cache K V) (length : nat) (rng : R)
    : outcome (list (sampling V) * Store V * R) :=
  match n with
  | O => Done ([], h, rng)
  | S n' =>
      match sample_window fuel h episodes length rng with
      | Done (st, rng') =>
          match sample_episodes n' fuel (s_store st) episodes length rng' with
          | Done (sts, h', rng'') => Done (st :: sts, h', rng'')
          | Raised e => Raised e
          | OutOfFuel => OutOfFuel
          end
      | Raised e => Raised e
      | OutOfFuel => OutOfFuel
      end
  end.
End sampler.

(** *** Vocabulary of the sampler properties *)

Section sampler_vocabulary.
Context {V : Type} `{!NumPy V}.









End sampler_vocabulary.

Section sampler_invariant.
Context {V : Type} `{!NumPy V}.


End sampler_invariant.

Section sampler_claims.
Context {V : Type} `{!NumPy V}.


End sampler_claims.


Section sampler_frame.
Context {V R K : Type} `{!NumPy V} `{!RandomState R}.

(** The rows of every field of every episode are what they were. *)
Definition episodes_untouched (h h' : Store V) (eps : list (Episode V)) : Prop :=
  ∀ ep k s, ep ∈ eps → (k, s) ∈ ep → rows h' s = rows h s.

(** No field of the window is a view of a buffer of the store. *)
Definition window_owns_rows (st : sampling V) : Prop :=
  ∀ ret k w, s_ret st = Some ret → dict_get ret k = Some w →
             match w with WView _ => False | _ => True end.

(** "After any number of windows are drawn, every episode's stored field
    sequences are unchanged; yielded windows never alias the cached data." *)
Definition sampler_reads_only (n fuel : nat) (h : Store V) (episodes : Cache K V)
    (length : nat) (rng : R) : Prop :=
  ∀ sts h' rng',
    sample_episodes n fuel h episodes length rng = Done (sts, h', rng') →
    episodes_untouched h h' (dict_values episodes) ∧
    Forall window_owns_rows sts.
End sampler_frame.

Section sampler_lists.
Context {V : Type}.

Definition owns_rows (w : wval V) : Prop :=
  match w with
  | WView _ => False
  | WList _ | WArray _ => True
  end.

(** Every field of every episode is a Python list. *)
Definition episodes_of_lists (eps : list (Episode V)) : Prop :=
  ∀ ep k s, ep ∈ eps → (k, s) ∈ ep → ∃ l, s = PList l.
End sampler_lists.

(** ** The return estimator

    The tensors of [lambda_return] have shape [T, B, 1]: [T] steps of a batch
    of [B] entries.  A tensor is the list of its [T] rows, a row the list of
    its [B] entries; the trailing axis of size one is left out.  The entries
    are the elements of a commutative ring, which stands for the floats. *)

Section lambda_return.
Context {F : Type} (zero one : F) (add mul sub : F → F → F).

Abbreviation Row := (list F).
Abbreviation Tensor := (list (list F)).

(** [x.shape] *)
Definition shape (x : Tensor) : list nat :=
  [length x; length (hd [] x); 1%nat].

(** An elementwise operation of torch along one axis: equal sizes, or one of
    the sizes is one and that operand is broadcast. *)
Definition bcast {A B C : Type} (f : A → B → result C) (x : list A) (y : list B)
    : result (list C) :=
  if decide (length x = length y) then mapM (λ ab, f ab.1 ab.2) (zip x y)
  else
    match x, y with
    | [a], _ => mapM (f a) y
    | _, [b] => mapM (λ a, f a b) x
    | _, _ => Raise RuntimeError
    end.

Definition row_op (f : F → F → F) (x y : Row) : result Row :=
  bcast (λ a b, Ok (f a b)) x y.

Definition tensor_op (f : F → F → F) (x y : Tensor) : result Tensor :=
  bcast (row_op f) x y.

(** [lambda agg, cur0, cur1: cur0 + cur1 * lambda_ * agg] on rows *)
Definition blend (lambda_ : F) (agg cur0 cur1 : Row) : result Row :=
  t ← row_op mul ((λ c, mul c lambda_) <$> cur1) agg;
  row_op add cur0 t.

(** [torch.cat([outputs, last], dim=-1)] *)
Definition cat_last (outputs : Tensor) (last : Tensor) : result Tensor :=
  if decide (length outputs = length last) then Ok (zip_with app outputs last)
  else Raise RuntimeError.

(** The body of the loop of [static_scan_for_lambda_return]: [last] is a
    [B, 1] tensor, [outputs] is unbound or a [B, k] tensor. *)
Definition scan_body (fn : Row → Row → Row → result Row) (inputs : Tensor * Tensor)
    (st : Row * option Tensor) (index : nat) : result (Row * option Tensor) :=
  cur0 ← of_option IndexError (inputs.1 !! index);
  cur1 ← of_option IndexError (inputs.2 !! index);
  last ← fn st.1 cur0 cur1;
  outputs ← match st.2 with
            | None => Ok ((λ x, [x]) <$> last)
            | Some outputs => cat_last outputs ((λ x, [x]) <$> last)
            end;
  Ok (last, Some outputs).

Fixpoint scan_loop (fn : Row → Row → Row → result Row) (inputs : Tensor * Tensor)
    (indices : list nat) (st : Row * option Tensor) : result (Row * option Tensor) :=
  match indices with
  | [] => Ok st
  | index :: indices' =>
      st' ← scan_body fn inputs st index;
      scan_loop fn inputs indices' st'
  end.

(** [static_scan_for_lambda_return(fn, inputs, start)]: the tuple of [B]
    tensors of shape [T, 1] it returns, as [B] lists of [T] entries. *)
Definition static_scan_for_lambda_return (fn : Row → Row → Row → result Row)
    (inputs : Tensor * Tensor) (start : Row) : result (list (list F)) :=
  st ← scan_loop fn inputs (reverse (seq 0 (length inputs.1))) (start, None);
  outputs ← of_option UnboundLocalError (snd (st : Row * option Tensor));
  (* reshape to [B, T, 1], flip along the time axis, unbind the batch axis *)
  Ok (fmap (M := list) reverse outputs).

(** [assert len(reward.shape) == len(value.shape)] *)
Definition assert_same_rank (reward_shape value_shape : list nat) : result unit :=
  if decide (length reward_shape = length value_shape) then Ok ()
  else Raise AssertionError.

(** [pcont] is a number or a tensor. *)
Inductive pcont_arg : Type :=
  | PNumber (c : F)
  | PTensor (p : Tensor).

(** [lambda_return(reward, value, pcont, bootstrap, lambda_, axis)].  With
    [axis != 0] every run ends in an exception, at the latest when
    [returns.permute] is looked up on the tuple the scan returns, and that is
    the exception reported. *)
Definition lambda_return (reward value : Tensor) (pcont : pcont_arg)
    (bootstrap : option Row) (lambda_ : F) (axis : nat) : result (list (list F)) :=
  match assert_same_rank (shape reward) (shape value) with
  | Raise e => Raise e
  | Ok _ =>
  let pcont : Tensor :=
    match pcont with
    | PNumber c => (λ row : Row, (λ _ : F, mul c one) <$> row) <$> reward
    | PTensor p => p
    end in
  if decide (axis ≠ 0%nat) then Raise AttributeError else
  let bootstrap : result Row :=
    match bootstrap with
    | Some b => Ok b
    | None =>
        match last value with
        | None => Raise IndexError
        | Some last_row => Ok ((λ _ : F, zero) <$> last_row)
        end
    end in
  bootstrap ← bootstrap;
  if negb (forallb (λ row : Row, bool_decide (length row = length bootstrap))
             (drop 1 value))
  then Raise RuntimeError else
  let next_values : Tensor := drop 1 value ++ [bootstrap] in
  t ← tensor_op mul pcont next_values;
  inputs ← tensor_op add reward
             ((λ row : Row, (λ x : F, mul x (sub one lambda_)) <$> row) <$> t);
  static_scan_for_lambda_return (blend lambda_) (inputs, pcont) bootstrap
  end.

(** *** Vocabulary of the return properties *)

(** [T] rows of [B] entries. *)
Definition has_shape (T B : nat) (x : Tensor) : Prop :=
  length x = T ∧ Forall (λ row, length row = B) x.

(** Entry [b] of every row. *)
Definition column (b : nat) (x : Tensor) : list F := omap (λ row, row !! b) x.

(** The discounted Monte-Carlo return, by rows:
    [R[t] = reward[t] + discount[t] * R[t+1]], with [bootstrap] after the
    last step. *)
Fixpoint monte_carlo (reward discount : Tensor) (bootstrap : Row) : Tensor :=
  match reward, discount with
  | r :: reward', d :: discount' =>
      let rest := monte_carlo reward' discount' bootstrap in
      zip_with add r (zip_with mul d (hd bootstrap rest)) :: rest
  | _, _ => []
  end.

(** The one-step target, by rows:
    [reward[t] + discount[t] * next_value[t]]. *)
Definition one_step (reward value discount : Tensor) (bootstrap : Row) : Tensor :=
  zip_with (zip_with add) reward
    (zip_with (zip_with mul) discount (drop 1 value ++ [bootstrap])).
End lambda_return.

Section lambda_return_vocabulary.
Context {F : Type} (add mul : F → F → F).

(** [cur0 + cur1 * lambda_ * agg] on rows of one length. *)
Definition blend_rows (lambda_ : F) (agg cur0 cur1 : list F) : list F :=
  zip_with add cur0 (zip_with mul ((λ c, mul c lambda_) <$> cur1) agg).

(** The reverse scan by rows: [R[t] = g(R[t+1], x0[t], x1[t])], with [start]
    after the last row. *)
Fixpoint scan_rows (g : list F → list F → list F → list F)
    (x0 x1 : list (list F)) (start : list F) : list (list F) :=
  match x0, x1 with
  | a :: x0', b :: x1' =>
      let rest := scan_rows g x0' x1' start in
      g (hd start rest) a b :: rest
  | _, _ => []
  end.

(** The loop of the scan, by structural recursion on the zipped rows. *)
Definition scan_struct (fn : list F → list F → list F → result (list F))
    (rows : list (list F * list F)) (init : result (list F * option (list (list F))))
    : result (list F * option (list (list F))) :=
  foldr (λ ab acc,
           st ← acc;
           last ← fn (fst (st : list F * option (list (list F)))) ab.1 ab.2;
           outputs ← match snd st with
                     | None => Ok ((λ x, [x]) <$> last)
                     | Some outputs => cat_last outputs ((λ x, [x]) <$> last)
                     end;
           Ok (last, Some outputs))
        init rows.
End lambda_return_vocabulary.

Section lambda_return_claims.
Context {F : Type} (zero one : F) (add mul sub : F → F → F).

End lambda_return_claims.

(** ** The simulation driver

    [simulate_multi] talks to environments and to an agent, which are not
    part of [tools.py]: what they answer in one pass of the loop is an input
    of that pass ([tick_input]).  Writes to the logger and to disk are left
    out: they do not come back into the state. *)

(** *** The curriculum controller *)

(** [envs[i].get_curriculum_values()] *)
Record curriculum : Type := Curriculum {
  size_of_map : Z;
  random_starting_orientation : bool;
  num_obstacles : Z;
  min_dist_between_objs : Q;
  episode_length : Z;
  reward_first_time : bool
}.

(** The limits of an environment and its feasibility check. *)
Record env_limits : Type := EnvLimits {
  map_limit : Z;
  num_obstacles_limit : Z;
  distance_between_objects_limit : Q;
  max_length : Z;
  curriculum_coords_check : Z → Q → Z → bool
}.

Definition reward_threshold : Q := 6.
Definition min_episodes_threshold : Z := 5.
Definition map_size_increase : Z := 2.
Definition num_obstacles_increase : Z := 1.
Definition min_dist_between_objs_increase : Q := 1 # 2.
Definition episode_length_increase : Z := 75.

(** [min(a, b)] of Python *)
Definition Zpymin (a b : Z) : Z := if decide (b < a)%Z then b else a.
Definition Qpymin (a b : Q) : Q := if Qlt_le_dec b a then b else a.

(** [a < b] on floats *)
Definition Qltb (a b : Q) : bool := if Qlt_le_dec a b then true else false.

(** [sum(reward)] *)
Definition pysum (l : list Q) : Q := fold_left Qplus l 0%Q.

(** The body of [for i in range(len(envs))] of the difficulty update.
    [new_episode_length] is a local of [simulate_multi] that only the branch
    [episode_length < envs[i].max_length] assigns: it may be unbound, or left
    over from an earlier pass. *)
Definition increase_difficulty (limits : env_limits) (episode_counter : Z)
    (new_episode_length : option Z) (c : curriculum)
    : result (curriculum * option Z) :=
  let new_map_size :=
    if decide (size_of_map c < map_limit limits)%Z
    then Zpymin (size_of_map c + map_size_increase) (map_limit limits)
    else size_of_map c in
  let new_num_obstacles :=
    if decide (num_obstacles c < num_obstacles_limit limits)%Z
    then Zpymin (num_obstacles c + num_obstacles_increase) (num_obstacles_limit limits)
    else num_obstacles c in
  let new_min_dist_between_objs :=
    if Qlt_le_dec (min_dist_between_objs c) (distance_between_objects_limit limits)
    then Qpymin (min_dist_between_objs c + min_dist_between_objs_increase)
                (distance_between_objects_limit limits)
    else min_dist_between_objs c in
  let new_episode_length :=
    if decide (episode_length c < max_length limits)%Z
    then Some (Zpymin (episode_length c + episode_length_increase) (max_length limits))
    else new_episode_length in
  let reward_first_time :=
    if decide (episode_counter > 20)%Z then false else reward_first_time c in
  let new_map_size :=
    if curriculum_coords_check limits (new_num_obstacles + 3)%Z
         new_min_dist_between_objs new_map_size
    then Zpymin (new_map_size + 3) (map_limit limits)
    else new_map_size in
  let random_starting_orientation :=
    if decide (new_map_size >= 20)%Z then true else random_starting_orientation c in
  match new_episode_length with
  | None => Raise UnboundLocalError
  | Some length =>
      Ok (Curriculum new_map_size random_starting_orientation new_num_obstacles
            new_min_dist_between_objs length reward_first_time,
          new_episode_length)
  end.

(** [for i in range(len(envs)): ...] *)
Fixpoint increase_all (envs : list env_limits) (episode_counter : Z)
    (new_episode_length : option Z) (cs : list curriculum)
    : result (list curriculum * option Z) :=
  match envs, cs with
  | limits :: envs', c :: cs' =>
      '(c', nel) ← increase_difficulty limits episode_counter new_episode_length c;
      '(cs'', nel') ← increase_all envs' episode_counter nel cs';
      Ok (c' :: cs'', nel')
  | _, _ => Ok ([], new_episode_length)
  end.

(** The locals of the curriculum controller and the curriculum values the
    environments hold. *)
Record controller : Type := Controller {
  total_reward : Q;
  episode_counter : Z;
  new_episode_length : option Z;
  curricula : list curriculum
}.

(** [total_reward / episode_counter if episode_counter != 0 else 0] *)
Definition average_of (total : Q) (counter : Z) : Q :=
  if decide (counter ≠ 0)%Z then (total / inject_Z counter)%Q else 0%Q.

(** The statements of one pass of the loop that concern the curriculum:
    the accumulation after the step, and the update.  It returns the
    controller and whether the update fired. *)
Definition curriculum_tick (envs : list env_limits) (reward : list Q)
    (done : list bool) (ctl : controller) : result (controller * bool) :=
  let total_reward := (total_reward ctl + pysum reward)%Q in
  let average_reward := average_of total_reward (episode_counter ctl) in
  let episode_counter :=
    (episode_counter ctl + Z.of_nat (length (filter (λ d, d = true) done)))%Z in
  if bool_decide (episode_counter >= min_episodes_threshold)%Z
     && Qltb reward_threshold average_reward
  then
    '(cs, nel) ← increase_all envs episode_counter (new_episode_length ctl)
                   (curricula ctl);
    Ok (Controller 0 0 nel cs, true)
  else
    Ok (Controller total_reward episode_counter (new_episode_length ctl)
          (curricula ctl), false).

(** *** The loop of [simulate_multi] *)

(** The value of the local [length]: the array [np.zeros(len(envs), np.int32)]
    at first, and whatever is assigned to the name later. *)
Inductive pylen : Type :=
  | LIntArray (v : list Z)
  | LFloatArray (v : list Q)
  | LInt (n : Z)
  | LFloat (q : Q).

Definition done_int (d : bool) : Z := if d then 1%Z else 0%Z.

(** [length += 1] *)
Definition len_add_one (l : pylen) : pylen :=
  match l with
  | LIntArray v => LIntArray ((λ x, x + 1)%Z <$> v)
  | LFloatArray v => LFloatArray ((λ x, x + 1)%Q <$> v)
  | LInt n => LInt (n + 1)%Z
  | LFloat q => LFloat (q + 1)%Q
  end.

(** [length *= 1 - done]: in place on an array, a new array from a number. *)
Definition len_mask (l : pylen) (done : list bool) : result pylen :=
  match l with
  | LIntArray v =>
      if decide (length v = length done)
      then Ok (LIntArray (zip_with (λ x d, x * (1 - done_int d))%Z v done))
      else match done with
           | [d] => Ok (LIntArray ((λ x, x * (1 - done_int d))%Z <$> v))
           | _ => Raise ValueError
           end
  | LFloatArray v =>
      if decide (length v = length done)
      then Ok (LFloatArray (zip_with (λ x d, x * inject_Z (1 - done_int d))%Q v done))
      else match done with
           | [d] => Ok (LFloatArray ((λ x, x * inject_Z (1 - done_int d))%Q <$> v))
           | _ => Raise ValueError
           end
  | LInt n => Ok (LIntArray ((λ d, n * (1 - done_int d))%Z <$> done))
  | LFloat q => Ok (LFloatArray ((λ d, q * inject_Z (1 - done_int d))%Q <$> done))
  end.

(** What [envs[i].post_step(a)()] returns: observation, reward, done, and
    [info.get("discount")]. *)
Record step_result (V : Type) : Type := StepResult {
  r_obs : pydict string V;
  r_reward : Q;
  r_done : bool;
  r_discount : option V
}.

Arguments StepResult {V} r_obs r_reward r_done r_discount.
Arguments r_obs {V} _.
Arguments r_reward {V} _.
Arguments r_done {V} _.
Arguments r_discount {V} _.

(** The action of one slot: an array, or a dictionary of arrays. *)
Inductive action (V : Type) : Type :=
  | AArray (a : V)
  | ADict (d : pydict string V).

Arguments AArray {V} a.
Arguments ADict {V} d.

(** What the environments and the agent answer in one pass of the loop. *)
Record tick_input (A K V : Type) : Type := TickInput {
  (** [envs[i].reset()()] for the slots flagged done, in the order of the slots *)
  t_resets : list (pydict string V);
  (** [envs[i].id] for every slot, once the resets are made *)
  t_ids : list K;
  (** the action of the agent, per slot, and its new state *)
  t_action : list (action V);
  t_agent_state : A;
  (** [envs[i].post_step(a)()] for every slot *)
  t_results : list (step_result V)
}.

Arguments TickInput {A K V} t_resets t_ids t_action t_agent_state t_results.
Arguments t_resets {A K V} _.
Arguments t_ids {A K V} _.
Arguments t_action {A K V} _.
Arguments t_agent_state {A K V} _.
Arguments t_results {A K V} _.

(** The simulation state
    [(step, episode, done, length, obs, agent_state, reward)]. *)
Record sim_state (A V : Type) : Type := SimState {
  st_step : Z;
  st_episode : Z;
  st_done : list bool;
  st_length : pylen;
  st_obs : list (option (pydict string V));
  st_agent_state : option A;
  st_reward : list Q
}.

Arguments SimState {A V} st_step st_episode st_done st_length st_obs
  st_agent_state st_reward.
Arguments st_step {A V} _.
Arguments st_episode {A V} _.
Arguments st_done {A V} _.
Arguments st_length {A V} _.
Arguments st_obs {A V} _.
Arguments st_agent_state {A V} _.
Arguments st_reward {A V} _.

(** The other locals of [simulate_multi], the cache, and the curriculum
    values held by the environments. *)
Record sim_locals (K V : Type) : Type := SimLocals {
  lo_cache : Cache K V;
  lo_controller : controller;
  (** [eval_lengths], once it is in [locals()] *)
  lo_eval_lengths : option (list Z)
}.

Arguments SimLocals {K V} lo_cache lo_controller lo_eval_lengths.
Arguments lo_cache {K V} _.
Arguments lo_controller {K V} _.
Arguments lo_eval_lengths {K V} _.

Section simulate_multi.
Context {A K V : Type} `{!NumPy V} `{!EpisodeId K}.

(** [{k: convert(v) for k, v in d.items()}] *)
Fixpoint convert_dict (d : pydict string V) : result (pydict string V) :=
  match d with
  | [] => Ok []
  | (k, v) :: d' =>
      c ← convert v 32;
      cs ← convert_dict d';
      Ok ((k, c) :: cs)
  end.

(** [[index for index, d in enumerate(done) if d]] *)
Definition done_indices (done : list bool) : list nat :=
  (λ p, p.1) <$> filter (λ p, p.2 = true) (imap (λ i d, (i, d)) done).

(** The resets at the head of a pass: every slot flagged done gets a fresh
    observation, recorded as the seed transition of its new episode. *)
Fixpoint reset_slots (pairs : list (nat * pydict string V)) (ids : list K)
    (cache : Cache K V) (obs : list (option (pydict string V)))
    : result (Cache K V * list (option (pydict string V))) :=
  match pairs with
  | [] => Ok (cache, obs)
  | (index, result) :: pairs' =>
      t ← convert_dict result;
      (* action will be added to transition in add_to_cache *)
      let t := dict_set t "reward" (vfloat 0) in
      let t := dict_set t "discount" (vfloat 1) in
      (* initial state should be added to cache *)
      id ← of_option IndexError (ids !! index);
      match add_to_cache cache id t with
      | (_, Raise e) => Raise e
      | (cache', Ok _) =>
          (* replace obs with done by initial state *)
          if decide (index < length obs)%nat
          then reset_slots pairs' ids cache' (<[index := Some result]> obs)
          else Raise IndexError
      end
  end.

(** [transition.update(a)] *)
Definition dict_update (d a : pydict string V) : pydict string V :=
  fold_left (λ acc kv, dict_set acc kv.1 kv.2) a d.

(** [for a, result, env in zip(action, results, envs): ...] *)
Fixpoint record_steps (rows : list (action V * step_result V * K))
    (cache : Cache K V) : result (Cache K V) :=
  match rows with
  | [] => Ok cache
  | (a, result, id) :: rows' =>
      o ← convert_dict (r_obs result);
      let transition :=
        match a with
        | ADict d => dict_update o d
        | AArray a => dict_set o "action" a
        end in
      let transition := dict_set transition "reward" (vfloat (r_reward result)) in
      let transition :=
        dict_set transition "discount"
          (default (vfloat (1 - inject_Z (done_int (r_done result)))) (r_discount result)) in
      match add_to_cache cache id transition with
      | (_, Raise e) => Raise e
      | (cache', Ok _) => record_steps rows' cache'
      end
  end.

(** [for i in indices: ...] under [if done.any()]: the bookkeeping of the
    episodes that ended in this pass.  It assigns the local [length]. *)
Fixpoint close_episodes (indices : list nat) (ids : list K) (is_eval : bool)
    (limit : option Z) (cache : Cache K V) (length : pylen)
    (eval_lengths : option (list Z))
    : result (Cache K V * pylen * option (list Z)) :=
  match indices with
  | [] => Ok (cache, length, eval_lengths)
  | i :: indices' =>
      id ← of_option IndexError (ids !! i);
      ep ← of_option KeyError (dict_get cache id);
      rewards ← of_option KeyError (dict_get ep "reward");
      let length := (Z.of_nat (seq_len rewards) - 1)%Z in
      video ← of_option KeyError (dict_get ep "image");
      (* log items won't be used later *)
      let ep := filter (λ kv, substring_of "log_" kv.1 = false) ep in
      let cache := dict_set cache id ep in
      if is_eval then
        let lengths := default [] eval_lengths ++ [length] in
        let average :=
          (inject_Z (fold_left Z.add lengths 0%Z)
           / inject_Z (Z.of_nat (base.length lengths)))%Q in
        close_episodes indices' ids is_eval limit cache (LFloat average) (Some lengths)
      else
        match erase_over_episodes cache limit with
        | (_, Raise e) => Raise e
        | (cache', Ok _) =>
            close_episodes indices' ids is_eval limit cache' (LInt length) eval_lengths
        end
  end.

(** One pass through the body of the [while] loop. *)
Definition tick (envs : list env_limits) (is_eval : bool) (limit : option Z)
    (inp : tick_input A K V) (st : sim_state A V) (lo : sim_locals K V)
    : result (sim_state A V * sim_locals K V) :=
  (* reset envs if necessary *)
  '(cache, obs) ←
    (if bool_decide (true ∈ st_done st)
     then reset_slots (zip (done_indices (st_done st)) (t_resets inp)) (t_ids inp)
            (lo_cache lo) (st_obs st)
     else Ok (lo_cache lo, st_obs st));
  (* step agents *)
  if negb (bool_decide (length (t_action inp) = length envs))
  then Raise AssertionError else
  (* step envs *)
  if bool_decide (t_results inp = []) then Raise ValueError else
  let obs : list (option (pydict string V)) :=
    (λ r, Some (r_obs r)) <$> t_results inp in
  let reward := r_reward <$> t_results inp in
  let done := r_done <$> t_results inp in
  let dones := Z.of_nat (length (filter (λ d, d = true) done)) in
  let episode := (st_episode st + dones)%Z in
  let length := len_add_one (st_length st) in
  let step := (st_step st + Z.of_nat (base.length envs))%Z in
  length ← len_mask length done;
  '(ctl, _) ← curriculum_tick envs reward done (lo_controller lo);
  (* add to cache *)
  cache ← record_steps (zip (zip (t_action inp) (t_results inp)) (t_ids inp)) cache;
  '(cache, length, eval_lengths) ←
    (if bool_decide (true ∈ done)
     then close_episodes (done_indices done) (t_ids inp) is_eval limit cache length
            (lo_eval_lengths lo)
     else Ok (cache, length, lo_eval_lengths lo));
  Ok (SimState step episode done length obs (Some (t_agent_state inp)) reward,
      SimLocals cache ctl eval_lengths).

(** [(steps and step < steps) or (episodes and episode < episodes)] *)
Definition keep_going (steps episodes : Z) (st : sim_state A V) : bool :=
  (bool_decide (steps ≠ 0%Z) && bool_decide (st_step st < steps)%Z)
  || (bool_decide (episodes ≠ 0%Z) && bool_decide (st_episode st < episodes)%Z).

(** [while ...: ...], one [tick_input] per pass. *)
Fixpoint run_loop (envs : list env_limits) (is_eval : bool) (limit : option Z)
    (steps episodes : Z) (inputs : list (tick_input A K V))
    (st : sim_state A V) (lo : sim_locals K V)
    : outcome (sim_state A V * sim_locals K V) :=
  if keep_going steps episodes st then
    match inputs with
    | [] => OutOfFuel
    | inp :: inputs' =>
        match tick envs is_eval limit inp st lo with
        | Raise e => Raised e
        | Ok (st', lo') => run_loop envs is_eval limit steps episodes inputs' st' lo'
        end
    end
  else Done (st, lo).

(** [simulate_multi(agent, envs, cache, directory, logger, is_eval=..., limit=...,
    steps=..., episodes=..., state=...)]: the state tuple it returns, with
    the cache and the curriculum values of the environments after the run.
    [held] are the curriculum values the environments hold at the call. *)
Definition simulate_multi (envs : list env_limits) (held : list curriculum)
    (cache : Cache K V) (is_eval : bool) (limit : option Z) (steps episodes : Z)
    (state : option (sim_state A V)) (inputs : list (tick_input A K V))
    : outcome (sim_state A V * Cache K V * list curriculum) :=
  let n := length envs in
  let ctl := Controller 0 0 None held in
  (* initialize or unpack simulation state *)
  let st :=
    match state with
    | None => SimState 0 0 (replicate n true) (LIntArray (replicate n 0%Z))
                (replicate n None) None (replicate n 0%Q)
    | Some st => st
    end in
  match run_loop envs is_eval limit steps episodes inputs st
          (SimLocals cache ctl None) with
  | Raised e => Raised e
  | OutOfFuel => OutOfFuel
  | Done (st, lo) =>
      let cache :=
        if is_eval
        then (* keep only last item for saving memory *)
             drop (length (lo_cache lo) - 1) (lo_cache lo)
        else lo_cache lo in
      Done (SimState (st_step st - steps) (st_episode st - episodes) (st_done st)
              (st_length st) (st_obs st) (st_agent_state st) (st_reward st),
            cache, curricula (lo_controller lo))
  end.
End simulate_multi.

(** *** Vocabulary of the driver properties *)

(** The parameters of [c'] are those of [c] advanced by their fixed
    increments and clamped to the limits; the map grows by a further
    increment of 3, clamped, when the feasibility check passes on the new
    values; the starting orientation is randomized from map size 20 on. *)
Definition ratcheted (limits : env_limits) (counter : Z) (c c' : curriculum) : Prop :=
  num_obstacles c'
    = Z.min (num_obstacles c + num_obstacles_increase) (num_obstacles_limit limits) ∧
  (min_dist_between_objs c'
   == Qmin (min_dist_between_objs c + min_dist_between_objs_increase)
           (distance_between_objects_limit limits))%Q ∧
  episode_length c'
    = Z.min (episode_length c + episode_length_increase) (max_length limits) ∧
  (let map1 := Z.min (size_of_map c + map_size_increase) (map_limit limits) in
   size_of_map c'
   = if curriculum_coords_check limits (num_obstacles c' + 3)%Z
          (min_dist_between_objs c') map1
     then Z.min (map1 + 3) (map_limit limits)
     else map1) ∧
  random_starting_orientation c'
    = (random_starting_orientation c || bool_decide (20 ≤ size_of_map c')%Z) ∧
  reward_first_time c'
    = (reward_first_time c && negb (bool_decide (20 < counter)%Z)).

(** The parameters are within their limits, the episode length below its
    cap. *)
Definition within_limits (limits : env_limits) (c : curriculum) : Prop :=
  (size_of_map c ≤ map_limit limits)%Z ∧
  (num_obstacles c ≤ num_obstacles_limit limits)%Z ∧
  (min_dist_between_objs c <= distance_between_objects_limit limits)%Q ∧
  (episode_length c < max_length limits)%Z.

Definition count_done (done : list bool) : Z :=
  Z.of_nat (length (filter (λ d, d = true) done)).

(** "A difficulty update fires exactly when the completed-episode counter
    has reached the threshold and the accumulated total reward divided by
    the episode counter exceeds the reward threshold." *)
Definition fires_when_claimed (envs : list env_limits) (reward : list Q)
    (done : list bool) (ctl : controller) : Prop :=
  ∀ ctl' fired,
    curriculum_tick envs reward done ctl = Ok (ctl', fired) →
    let total := (total_reward ctl + pysum reward)%Q in
    let counter := (episode_counter ctl + count_done done)%Z in
    fired = true ↔
    (min_episodes_threshold ≤ counter)%Z ∧
    (reward_threshold < total / inject_Z counter)%Q.

(** "The update increments each slot's curriculum parameters by its fixed
    increment clamped to its own limit." *)
Definition increments_as_claimed (envs : list env_limits) (reward : list Q)
    (done : list bool) (ctl : controller) : Prop :=
  ∀ ctl' i limits c c',
    curriculum_tick envs reward done ctl = Ok (ctl', true) →
    envs !! i = Some limits → curricula ctl !! i = Some c →
    curricula ctl' !! i = Some c' →
    size_of_map c' = Z.min (size_of_map c + map_size_increase) (map_limit limits) ∧
    num_obstacles c'
      = Z.min (num_obstacles c + num_obstacles_increase) (num_obstacles_limit limits) ∧
    episode_length c'
      = Z.min (episode_length c + episode_length_increase) (max_length limits).

(** The lengths of the episodes in flight after one more pass. *)
Definition in_flight (lengths : list Z) (done : list bool) : list Z :=
  zip_with (λ l d, if d : bool then 0 else l + 1)%Z lengths done.

Section driver_claims.
Context {A K V : Type} `{!NumPy V} `{!EpisodeId K}.

(** The lengths of the episodes in flight after the passes [inputs], from
    [lengths]. *)
Definition in_flight_after (lengths : list Z) (inputs : list (tick_input A K V))
    : list Z :=
  fold_left (λ l inp, in_flight l (r_done <$> t_results inp)) inputs lengths.

(** "In the state tuple it returns, the episode_length component is a
    length-N per-slot vector whose entry i is the length of slot i's
    in-flight episode." *)
Definition returns_slot_lengths (envs : list env_limits) (held : list curriculum)
    (cache : Cache K V) (limit : option Z) (steps : Z)
    (inputs : list (tick_input A K V)) : Prop :=
  ∀ st cache' held',
    simulate_multi envs held cache false limit steps 0 None inputs
    = Done (st, cache', held') →
    st_length st = LIntArray (in_flight_after (replicate (length envs) 0%Z) inputs).
End driver_claims.

(** The accumulated reward, the counter and the average that one pass of the
    loop computes before it decides on the update. *)
Definition tick_total (ctl : controller) (reward : list Q) : Q :=
  (total_reward ctl + pysum reward)%Q.

Definition tick_counter (ctl : controller) (done : list bool) : Z :=
  (episode_counter ctl + count_done done)%Z.

Definition tick_average (ctl : controller) (reward : list Q) : Q :=
  average_of (tick_total ctl reward) (episode_counter ctl).

(** ** Triggers

    [Every], [Once] and [Until] are small objects the training loop asks
    whether something is due.  The state of an object is a record; a call
    returns the new state and the answer. *)






(** The sum of a list of integers. *)
Definition Zsum (l : list Z) : Z := foldr Z.add 0%Z l.

(** *** The TD(lambda) recursion

    The return of the textbooks, by rows:
    [R[t] = reward[t] + discount[t] * ((1 - lambda) * next_value[t] + lambda * R[t+1])],
    with [bootstrap] after the last step. *)

Section td_lambda.
Context {F : Type} (one : F) (add mul sub : F → F → F).

Fixpoint td_lambda (lambda_ : F) (reward discount next_values : list (list F))
    (bootstrap : list F) : list (list F) :=
  match reward, discount, next_values with
  | r :: reward', d :: discount', n :: next_values' =>
      let rest := td_lambda lambda_ reward' discount' next_values' bootstrap in
      zip_with add r
        (zip_with mul d
           (zip_with add ((λ x, mul (sub one lambda_) x) <$> n)
              ((λ g, mul lambda_ g) <$> hd bootstrap rest))) :: rest
  | _, _, _ => []
  end.
End td_lambda.

(** ** Batching

    [from_generator(generator, batch_size)] is itself a generator.  The
    generator it reads is an interface: [next g] is [next(generator)] in the
    state [g], with the state after the call.  [np.stack] is an interface
    too: [shape_of] is the shape of an array, and a stack is the list of the
    arrays stacked. *)

(** [np.stack(arrays, 0)] *)
Definition np_stack {A S : Type} `{EqDecision S} (shape_of : A → S)
    (arrays : list A) : result (list A) :=
  match arrays with
  | [] => Raise ValueError
  | first :: _ =>
      if forallb (λ a, bool_decide (shape_of a = shape_of first)) arrays
      then Ok arrays
      else Raise ValueError
  end.

Section from_generator.
Context {G A B : Type}.
Context (next : G → outcome (pydict string A * G)) (stack : list A → result B).

(** [for _ in range(batch_size): batch.append(next(generator))]; a
    [StopIteration] that leaves a generator is a [RuntimeError]. *)
Fixpoint next_batch (k : nat) (g : G) : outcome (list (pydict string A) * G) :=
  match k with
  | O => Done ([], g)
  | S k' =>
      match next g with
      | Done (item, g1) =>
          match next_batch k' g1 with
          | Done (batch, g2) => Done (item :: batch, g2)
          | Raised e => Raised e
          | OutOfFuel => OutOfFuel
          end
      | Raised StopIteration => Raised RuntimeError
      | Raised e => Raised e
      | OutOfFuel => OutOfFuel
      end
  end.

(** [for key in batch[0].keys(): ...] *)
Fixpoint collate (keys : list string) (batch : list (pydict string A))
    (data : pydict string B) : result (pydict string B) :=
  match keys with
  | [] => Ok data
  | key :: keys' =>
      column ← mapM (λ item, of_option KeyError (dict_get item key)) batch;
      stacked ← stack column;
      collate keys' batch (dict_set data key stacked)
  end.

(** One pass of [while True], up to its [yield data]. *)
Definition next_data (batch_size : Z) (g : G) : outcome (pydict string B * G) :=
  match next_batch (Z.to_nat batch_size) g with
  | Done (batch, g') =>
      match batch with
      | [] => Raised IndexError
      | first :: _ =>
          match collate (dict_keys first) batch [] with
          | Ok data => Done (data, g')
          | Raise e => Raised e
          end
      end
  | Raised e => Raised e
  | OutOfFuel => OutOfFuel
  end.

(** The first [n] batches of [from_generator(generator, batch_size)]. *)
Fixpoint from_generator (batch_size : Z) (n : nat) (g : G)
    : outcome (list (pydict string B) * G) :=
  match n with
  | O => Done ([], g)
  | S n' =>
      match next_data batch_size g with
      | Done (data, g1) =>
          match from_generator batch_size n' g1 with
          | Done (datas, g2) => Done (data :: datas, g2)
          | Raised e => Raised e
          | OutOfFuel => OutOfFuel
          end
      | Raised e => Raised e
      | OutOfFuel => OutOfFuel
      end
  end.

(** The generator yields the items [xs], one after the other, from the state
    [g] to the state [g']. *)
Fixpoint pulls (g : G) (xs : list (pydict string A)) (g' : G) : Prop :=
  match xs with
  | [] => g' = g
  | x :: xs' => ∃ g1, next g = Done (x, g1) ∧ pulls g1 xs' g'
  end.

(** [data] holds, under every key of the first item of [batch], the stack of
    what the items of [batch] hold under that key, in their order. *)
Definition collated (batch : list (pydict string A)) (data : pydict string B)
    : Prop :=
  ∃ first, head batch = Some first ∧
    (∀ key, is_Some (dict_get data key) ↔ is_Some (dict_get first key)) ∧
    ∀ key stacked, dict_get data key = Some stacked →
      ∃ column,
        Forall2 (λ item v, dict_get item key = Some v) batch column ∧
        stack column = Ok stacked.
End from_generator.

(** A generator that yields the items of a list and is exhausted then. *)
Definition list_next {A : Type} (g : list A) : outcome (A * list A) :=
  match g with
  | [] => Raised StopIteration
  | x :: g' => Done (x, g')
  end.

(** An item that has exactly the keys [fields] and, under each key, an array
    of the shape [sh] gives for the key. *)
Definition stackable {A S : Type} (shape_of : A → S) (fields : list string)
    (sh : string → S) (item : pydict string A) : Prop :=
  (∀ key, key ∈ fields ↔ is_Some (dict_get item key)) ∧
  ∀ key v, dict_get item key = Some v → shape_of v = sh key.

(** ** Loading episodes

    [load_episodes] reads a directory.  The directory is the list [files] of
    the paths [directory.glob("*.npz")] finds, in any order, and [read]:
    what [np.load] gives for a path, or [None] when the [try] block raises.
    Paths are ordered as [sorted] orders them ([key_le]); [stem] is the file
    name without its extension and [str_of] the path as a string. *)

Section load_episodes.
Context {V P : Type} `{!EpisodeId P}.
Context (stem str_of : P → string) (read : P → option (Episode V)).

(** [limit and total >= limit] *)
Definition limit_reached (limit : option Z) (total : Z) : bool :=
  truthy limit &&
  match limit with
  | Some b => bool_decide (total >= b)%Z
  | None => false
  end.

(** The key an episode is stored under. *)
Definition file_key (reverse : bool) (filename : P) : string :=
  if reverse then stem filename else str_of filename.

(** [for filename in ...: ...] *)
Fixpoint load_loop (reverse : bool) (limit : option Z) (filenames : list P)
    (episodes : pydict string (Episode V)) (total : Z)
    : result (pydict string (Episode V)) :=
  match filenames with
  | [] => Ok episodes
  | filename :: filenames' =>
      match read filename with
      | None => load_loop reverse limit filenames' episodes total
      | Some episode =>
          let episodes := dict_set episodes (file_key reverse filename) episode in
          n ← transitions episode;
          let total := (total + n)%Z in
          if limit_reached limit total then Ok episodes
          else load_loop reverse limit filenames' episodes total
      end
  end.

(** The order in which the files are visited. *)
Definition load_order (files : list P) (reverse : bool) : list P :=
  if reverse then list.reverse (merge_sort key_le files) else merge_sort key_le files.

(** [load_episodes(directory, limit=None, reverse=True)] *)
Definition load_episodes (files : list P) (limit : option Z) (reverse : bool)
    : result (pydict string (Episode V)) :=
  load_loop reverse limit (load_order files reverse) [] 0%Z.

(** The files that can be read, in the order visited, under their keys. *)
Definition readable (reverse : bool) (filenames : list P)
    : list (string * Episode V) :=
  omap (λ filename, (λ ep, (file_key reverse filename, ep)) <$> read filename)
       filenames.
End load_episodes.

(** ** Transforms and distributions

    The functions below act on tensors elementwise; they are given for one
    element.  A float is a real number here: [log], [exp] and [sqrt] are the
    functions of analysis, and rounding is not modelled. *)

(** [torch.sign(x)] *)
Definition torch_sign (x : R) : R :=
  if Rlt_dec 0 x then 1%R else if Rlt_dec x 0 then (-1)%R else 0%R.

(** [symlog(x)] *)
Definition symlog (x : R) : R := (torch_sign x * ln (Rabs x + 1))%R.

(** [symexp(x)] *)
Definition symexp (x : R) : R := (torch_sign x * (exp (Rabs x) - 1))%R.

(** [torch.clip(x, lo, hi)], which is [min(max(x, lo), hi)] *)
Definition torch_clip (x lo hi : R) : R := Rmin (Rmax x lo) hi.






(** *** [DiscDist]

    A distribution over 255 buckets.  [log_prob] spreads the value it is
    given over the two buckets around it (the local [target]).  The model is
    for one value: [logits] is the vector of the 255 logits, and [x] a
    number. *)

#[global] Instance Rle_decision (x y : R) : Decision (x <= y)%R := Rle_dec x y.
#[global] Instance Rgt_decision (x y : R) : Decision (x > y)%R := Rgt_dec x y.

(** [torch.sum(x)] *)
Definition Rsum (l : list R) : R := foldr Rplus 0%R l.

(** [torch.linspace(low, high, steps)] *)
Definition linspace (low high : R) (steps : nat) : list R :=
  (λ i, low + INR i * ((high - low) / (INR steps - 1)))%R <$> seq 0 steps.

(** [torch.softmax(logits, -1)] *)
Definition softmax (logits : list R) : list R :=
  (λ l, exp l / Rsum (exp <$> logits))%R <$> logits.

(** [torch.logsumexp(logits, -1)] *)
Definition logsumexp (logits : list R) : R := ln (Rsum (exp <$> logits)).

(** [torch.clip] on an index *)
Definition clip_index (i lo hi : Z) : Z := Z.min (Z.max i lo) hi.

(** [F.one_hot(k, num_classes=n)], as floats *)
Definition one_hot (k : Z) (n : nat) : list R :=
  (λ i, if bool_decide (Z.of_nat i = k) then 1%R else 0%R) <$> seq 0 n.

(** The attributes of a [DiscDist]. *)
Record DiscDist : Type := MkDiscDist {
  logits : list R;
  probs : list R;
  buckets : list R;
  transfwd : R → R;
  transbwd : R → R
}.

(** [DiscDist(logits, low, high, transfwd, transbwd)] *)
Definition DiscDist_init (logits : list R) (low high : R) (transfwd transbwd : R → R)
    : DiscDist :=
  MkDiscDist logits (softmax logits) (linspace low high 255) transfwd transbwd.

(** The local [target] of [DiscDist.log_prob], for the transformed value [x].
    The clipped indices are within the 255 buckets. *)
Definition DiscDist_target (self : DiscDist) (x : R) : list R :=
  let n := length (buckets self) in
  let below :=
    (Z.of_nat (length (filter (λ b, b <= x)%R (buckets self))) - 1)%Z in
  let above :=
    (Z.of_nat n - Z.of_nat (length (filter (λ b, b > x)%R (buckets self))))%Z in
  let below := clip_index below 0 (Z.of_nat n - 1) in
  let above := clip_index above 0 (Z.of_nat n - 1) in
  let equal := bool_decide (below = above) in
  let bucket_at (i : Z) := default 0%R (buckets self !! Z.to_nat i) in
  let dist_to_below := if equal then 1%R else Rabs (bucket_at below - x) in
  let dist_to_above := if equal then 1%R else Rabs (bucket_at above - x) in
  let total := (dist_to_below + dist_to_above)%R in
  let weight_below := (dist_to_above / total)%R in
  let weight_above := (dist_to_below / total)%R in
  zip_with Rplus
    ((λ h, h * weight_below)%R <$> one_hot below n)
    ((λ h, h * weight_above)%R <$> one_hot above n).

(** [DiscDist.log_prob(self, x)] *)
Definition DiscDist_log_prob (self : DiscDist) (x : R) : result R :=
  let x := transfwd self x in
  let target := DiscDist_target self x in
  let log_pred := (λ l, l - logsumexp (logits self))%R <$> logits self in
  terms ← bcast (λ t p, Ok (t * p)%R) target log_pred;
  Ok (Rsum terms).

(** [DiscDist.mean(self)] *)
Definition DiscDist_mean (self : DiscDist) : result R :=
  _mean ← bcast (λ p b, Ok (p * b)%R) (probs self) (buckets self);
  Ok (transbwd self (Rsum _mean)).

(** *** Where the rows of a window come from *)

(** [f_count] entries of the episode at position [f_episode] of the mapping,
    from the entry [f_start] on. *)
Record fragment : Set := Fragment { f_episode : nat; f_start : nat; f_count : nat }.

Section provenance.
Context {V : Type}.

(** The rows of the field [k] in a fragment of an episode made of lists. *)
Definition fragment_rows (episodes : list (Episode V)) (k : string)
    (frag : fragment) : list V :=
  match episodes !! f_episode frag with
  | Some ep =>
      match dict_get ep k with
      | Some (PList l) => take (f_count frag) (drop (f_start frag) l)
      | _ => []
      end
  | None => []
  end.

(** The window is made of the fragments [frags]: they are taken from the
    episodes drawn, in the order drawn, all but the first from the start of
    the episode; and every field of the window other than [is_first] holds
    the rows of that field in the fragments, one fragment after the other. *)
Definition made_of (episodes : list (Episode V)) (frags : list fragment)
    (st : sampling V) : Prop :=
  f_episode <$> frags = s_drawn st ∧
  Forall (λ frag, f_start frag = 0%nat) (tail frags) ∧
  match s_ret st with
  | None => frags = []
  | Some ret =>
      ret ≠ [] ∧
      ∀ k w, dict_get ret k = Some w → k ≠ "is_first" →
        owns_rows w ∧
        wrows (s_store st) w = concat (fragment_rows episodes k <$> frags)
  end.
End provenance.

(** ** Fixtures: a small NumPy and integer identifiers *)

Module Fixture.

Inductive toy : Type :=
  | TFloat (q : Q)
  | TInt (z : Z)
  | TBool (b : bool)
  | TStr (s : string).

#[export] Instance toy_numpy : NumPy toy := {|
  issubdtype v c :=
    match v, c with
    | TFloat _, floating | TInt _, signedinteger | TBool _, bool_class => true
    | _, _ => false
    end;
  astype v _ := v;
  zero_mul v :=
    match v with
    | TFloat _ => TFloat 0
    | TInt _ | TBool _ => TInt 0
    | TStr _ => TStr ""
    end;
  vTrue := TBool true;
  vfloat := TFloat
|}.

#[export] Instance Z_episode_id : EpisodeId Z := {| key_le := Z.le |}.

(** An episode of [n] recorded rewards. *)
Definition rewards (n : nat) : Episode toy :=
  [("reward", PList (replicate n (TFloat 0)))].

(** Episodes 1, 2, 3 with 1, 5 and 3 transitions. *)
Definition cache_135 : Cache Z toy :=
  [(1%Z, rewards 2); (2%Z, rewards 6); (3%Z, rewards 4)].

(** Three inserts into episode 7; the action first appears at the third. *)
Definition late_action : list (pydict string toy) :=
  [ [("reward", TFloat 0)];
    [("reward", TFloat 1)];
    [("reward", TFloat 1); ("action", TInt 1)] ].

(** A reset transition, and two steps that carry the action as well. *)
Definition reset_transition : pydict string toy :=
  [("image", TInt 5); ("reward", TFloat 0)].

Definition step_transitions : list (pydict string toy) :=
  [ [("image", TInt 6); ("action", TInt 1); ("reward", TFloat 1)];
    [("image", TInt 7); ("action", TInt 2); ("reward", TFloat 1)] ].

(** A generator that replays a script of numbers, each reduced to the range
    asked for. *)
#[export] Instance script_random : RandomState (list nat) := {|
  rs_choice r p := ((hd 0%nat r `mod` length p)%nat, tl r);
  rs_randint r low high :=
    ((low + Z.of_nat (hd 0%nat r) `mod` (high - low))%Z, tl r)
|}.

#[export] Instance script_random_spec : RandomStateSpec (list nat).
Proof.
  split; simpl.
  - intros r p Hp. apply Nat.mod_upper_bound. by destruct p.
  - intros r low high Hlt.
    pose proof (Z.mod_pos_bound (Z.of_nat (hd 0%nat r)) (high - low)). lia.
Qed.

(** Two episodes built by [add_to_cache]: Python lists of 3 and 2 entries. *)
Definition listed_cache : Cache Z toy :=
  [(1%Z, [("is_first", PList [TBool true; TBool false; TBool false]);
          ("reward", PList [TFloat 0; TFloat 1; TFloat 2])]);
   (2%Z, [("is_first", PList [TBool true; TBool false]);
          ("reward", PList [TFloat 0; TFloat 5])])].

(** One episode of 3 entries as [load_episodes] returns it: its fields are
    arrays, the buffers 0 and 1 of the store. *)
Definition loaded_store : Store toy :=
  [[TBool true; TBool false; TBool false]; [TFloat 0; TFloat 1; TFloat 2]].

Definition loaded_cache : Cache Z toy :=
  [(1%Z, [("is_first", NdArray (NdView 0 0 3));
          ("reward", NdArray (NdView 1 0 3))])].

(** Rewards, values and discounts of two steps for a batch of two, over the
    integers. *)
Definition reward_2x2 : list (list Z) := [[1; 2]; [3; 4]]%Z.
Definition value_2x2 : list (list Z) := [[5; 6]; [7; 8]]%Z.
Definition discount_2x2 : list (list Z) := [[1; 1]; [1; 0]]%Z.
Definition bootstrap_2 : list Z := [10; 20]%Z.


(** An environment with a map limit of 30 whose feasibility check always
    passes, and its curriculum values at the start. *)
Definition roomy : env_limits := EnvLimits 30 10 5 500 (λ _ _ _, true).
Definition easy : curriculum := Curriculum 10 false 2 1 100 true.

(** The controller after four completed episodes and no reward so far. *)
Definition after_four : controller := Controller 0 4 None [easy].

(** Two slots.  In the first pass both are reset and slot 0 finishes its
    episode at once; in the second pass slot 0 is reset again (its episode
    gets the identifier 3) and nobody finishes. *)
Definition first_pass : tick_input unit Z toy :=
  TickInput [[("image", TInt 0)]; [("image", TInt 0)]] [1; 2]%Z
    [AArray (TInt 0); AArray (TInt 0)] tt
    [StepResult [("image", TInt 1)] 1 true None;
     StepResult [("image", TInt 1)] 0 false None].

Definition second_pass : tick_input unit Z toy :=
  TickInput [[("image", TInt 0)]] [3; 2]%Z
    [AArray (TInt 0); AArray (TInt 0)] tt
    [StepResult [("image", TInt 1)] 0 false None;
     StepResult [("image", TInt 2)] 0 false None].


(** Episodes that were cut after their seed frame. *)
Definition stub_cache : Cache Z toy :=
  [(1%Z, [("reward", PList [TFloat 0])]);
   (2%Z, [("reward", PList [TFloat 0])])].

(** An episode whose sequences are empty. *)
Definition hollow_cache : Cache Z toy :=
  [(1%Z, [("reward", PList [])])].

(** Four windows of two steps, as a generator yields them. *)
Definition windows4 : list (pydict string (list Z)) :=
  [ [("reward", [0; 1]%Z); ("action", [5; 6]%Z)];
    [("reward", [2; 3]%Z); ("action", [7; 8]%Z)];
    [("reward", [4; 5]%Z); ("action", [9; 0]%Z)];
    [("reward", [6; 7]%Z); ("action", [1; 2]%Z)] ].

(** A directory of four files: the episodes of [cache_135] saved under
    their names, and one file that cannot be read. *)
Definition npz_name (p : Z) : string :=
  if bool_decide (p = 1%Z) then "ep1-2"
  else if bool_decide (p = 2%Z) then "ep2-6"
  else if bool_decide (p = 3%Z) then "ep3-4"
  else "broken".

Definition npz_read (p : Z) : option (Episode toy) := dict_get cache_135 p.

End Fixture.

(** * Properties *)

Section pydict_facts.
Context {K V : Type} `{EqDecision K}.

Lemma dict_get_Some_elem (d : pydict K V) k v :
  dict_get d k = Some v → (k, v) ∈ d.
Proof.
  induction d as [|[k' v'] d IH]; simpl; [done|].
  case_decide; intros Hg.
  - simplify_eq. left.
  - right. auto.
Qed.

Lemma dict_get_None (d : pydict K V) k :
  dict_get d k = None ↔ k ∉ dict_keys d.
Proof.
  induction d as [|[k' v'] d IH]; simpl.
  - split; [intros _; apply not_elem_of_nil | done].
  - rewrite not_elem_of_cons. case_decide as Hk.
    + split; [done | intros [? _]; done].
    + rewrite IH. split; [by intros ?; split | by intros [_ ?]].
Qed.

Lemma dict_get_elem (d : pydict K V) k v :
  dict_wf d → (k, v) ∈ d → dict_get d k = Some v.
Proof.
  unfold dict_wf, dict_keys.
  induction d as [|[k' v'] d IH]; simpl; intros Hnd Hin.
  - by apply elem_of_nil in Hin.
  - apply NoDup_cons in Hnd as [Hk Hnd].
    apply elem_of_cons in Hin as [Heq | Hin].
    + simplify_eq. by rewrite decide_True.
    + case_decide; [|by apply IH]. subst k'.
      exfalso. apply Hk. apply list_elem_of_fmap. by exists (k, v).
Qed.

Lemma dict_get_lookup (d : pydict K V) k v :
  dict_wf d → dict_get d k = Some v ↔ (k, v) ∈ d.
Proof.
  intros Hwf. split; [apply dict_get_Some_elem | by apply dict_get_elem].
Qed.

Lemma dict_get_set_eq (d : pydict K V) k v :
  dict_get (dict_set d k v) k = Some v.
Proof.
  induction d as [|[k' v'] d IH]; simpl.
  - by rewrite decide_True.
  - case_decide; simpl.
    + subst. by rewrite decide_True.
    + by rewrite decide_False.
Qed.

Lemma dict_get_set_ne (d : pydict K V) k k' v :
  k ≠ k' → dict_get (dict_set d k v) k' = dict_get d k'.
Proof.
  intros Hne. induction d as [|[k0 v0] d IH]; simpl.
  - by rewrite decide_False.
  - case_decide; simpl.
    + subst k0. by rewrite !decide_False.
    + case_decide; [done|]. apply IH.
Qed.

Lemma dict_keys_set_in (d : pydict K V) k v :
  k ∈ dict_keys d → dict_keys (dict_set d k v) = dict_keys d.
Proof.
  unfold dict_keys. induction d as [|[k' v'] d IH]; simpl; intros Hin.
  - by apply elem_of_nil in Hin.
  - case_decide; simpl; [done|].
    apply elem_of_cons in Hin as [? | Hin]; [done|].
    f_equal. by apply IH.
Qed.

Lemma dict_keys_set_notin (d : pydict K V) k v :
  k ∉ dict_keys d → dict_keys (dict_set d k v) = dict_keys d ++ [k].
Proof.
  unfold dict_keys. induction d as [|[k' v'] d IH]; simpl; intros Hin; [done|].
  apply not_elem_of_cons in Hin as [Hne Hin].
  rewrite decide_False by done. simpl. f_equal. by apply IH.
Qed.

Lemma dict_wf_set (d : pydict K V) k v :
  dict_wf d → dict_wf (dict_set d k v).
Proof.
  unfold dict_wf. intros Hwf.
  destruct (decide (k ∈ dict_keys d)) as [Hin | Hin].
  - by rewrite dict_keys_set_in.
  - rewrite dict_keys_set_notin by done.
    apply NoDup_app. split_and!; [done | | apply NoDup_singleton].
    intros x Hx Hx'. apply list_elem_of_singleton in Hx'. by subst.
Qed.

Lemma dict_del_sublist (d : pydict K V) k : dict_del d k `sublist_of` d.
Proof.
  induction d as [|[k' v'] d IH]; simpl; [done|].
  case_decide.
  - by apply sublist_cons.
  - by apply sublist_skip.
Qed.

Lemma dict_wf_del (d : pydict K V) k : dict_wf d → dict_wf (dict_del d k).
Proof.
  unfold dict_wf, dict_keys. intros Hwf.
  eapply sublist_NoDup; [done|].
  apply fmap_sublist, dict_del_sublist.
Qed.

Lemma dict_get_del_eq (d : pydict K V) k :
  dict_wf d → dict_get (dict_del d k) k = None.
Proof.
  unfold dict_wf, dict_keys.
  induction d as [|[k' v'] d IH]; simpl; intros Hnd; [done|].
  apply NoDup_cons in Hnd as [Hk Hnd].
  case_decide; simpl.
  - subst. by apply dict_get_None.
  - rewrite decide_False by done. by apply IH.
Qed.

Lemma dict_get_del_ne (d : pydict K V) k k' :
  k ≠ k' → dict_get (dict_del d k) k' = dict_get d k'.
Proof.
  intros Hne. induction d as [|[k0 v0] d IH]; simpl; [done|].
  case_decide; simpl.
  - subst k0. by rewrite decide_False.
  - case_decide; [done|]. apply IH.
Qed.

Lemma dict_del_notin (d : pydict K V) k :
  dict_get d k = None → dict_del d k = d.
Proof.
  induction d as [|[k0 v0] d IH]; simpl; [done|].
  case_decide; [done|]. intros Hg. by rewrite IH.
Qed.
End pydict_facts.

(** ** Eviction *)

Section eviction_facts.
Context {V K : Type} `{!NumPy V} `{!EpisodeId K}.
Implicit Types (cache : Cache K V) (ep : Episode V) (items : list (K * Episode V)).

Lemma transitions_steps ep : has_reward ep → transitions ep = Ok (steps ep).
Proof.
  intros [r Hr]. unfold transitions, steps. by rewrite Hr.
Qed.

Lemma within_budget_fits ds step ep :
  has_reward ep → within_budget ds step ep = Ok (fits ds step ep).
Proof.
  intros Hr. unfold within_budget, fits, truthy.
  destruct ds as [b|]; [|done].
  destruct (decide (b = 0%Z)) as [-> | Hb].
  - done.
  - rewrite (bool_decide_eq_true_2 (b ≠ 0%Z)) by done.
    rewrite (bool_decide_eq_false_2 (b = 0%Z)) by done.
    simpl. by rewrite (transitions_steps ep Hr).
Qed.

Lemma total_steps_app items1 items2 :
  total_steps (items1 ++ items2) = (total_steps items1 + total_steps items2)%Z.
Proof.
  induction items1 as [|item items1 IH]; simpl; [done|]. rewrite IH. lia.
Qed.

Lemma total_steps_perm items1 items2 :
  items1 ≡ₚ items2 → total_steps items1 = total_steps items2.
Proof.
  induction 1 as [|item l1 l2 _ IH| |]; simpl; [done | by rewrite IH | lia | congruence].
Qed.

Lemma dict_del_perm {A} (d : pydict K A) k v :
  dict_wf d → (k, v) ∈ d → d ≡ₚ (k, v) :: dict_del d k.
Proof.
  unfold dict_wf, dict_keys.
  induction d as [|[k' v'] d IH]; simpl; intros Hnd Hin.
  - by apply elem_of_nil in Hin.
  - apply NoDup_cons in Hnd as [Hk Hnd].
    apply elem_of_cons in Hin as [Heq | Hin].
    + simplify_eq. by rewrite decide_True.
    + case_decide as Hkk.
      * subst k'. exfalso. apply Hk, list_elem_of_fmap. by exists (k, v).
      * rewrite (IH Hnd Hin) at 1. apply perm_swap.
Qed.

Lemma scan_sublist ds step items : scan ds step items `sublist_of` items.
Proof.
  revert step. induction items as [|item items IH]; intros step; simpl; [done|].
  destruct (fits ds step item.2).
  - by apply sublist_skip.
  - by apply sublist_cons.
Qed.

Lemma scan_cons ds step item items :
  scan ds step (item :: items) =
  if fits ds step item.2
  then item :: scan ds (step + steps item.2)%Z items
  else scan ds step items.
Proof. done. Qed.

Lemma scan_elem_of ds step items item :
  item ∈ scan ds step items → item ∈ items.
Proof. intros Hin. eapply elem_of_sublist; [done | apply scan_sublist]. Qed.

Lemma scan_app ds step items1 items2 :
  scan ds step (items1 ++ items2) =
  scan ds step items1 ++
  scan ds (step + total_steps (scan ds step items1))%Z items2.
Proof.
  revert step. induction items1 as [|item items1 IH]; intros step; simpl.
  - by rewrite Z.add_0_r.
  - destruct (fits ds step item.2); simpl.
    + rewrite IH. do 3 f_equal. lia.
    + apply IH.
Qed.

(** The loop of [erase_over_episodes] deletes exactly what [scan] drops. *)
Lemma erase_loop_scan ds items cache step kept :
  (∀ item, item ∈ items → has_reward item.2) →
  dict_wf cache →
  cache ≡ₚ kept ++ items →
  ∃ cache',
    erase_loop ds items cache step
      = (cache', Ok (step + total_steps (scan ds step items))%Z) ∧
    cache' ≡ₚ kept ++ scan ds step items ∧
    cache' `sublist_of` cache.
Proof.
  revert cache step kept.
  induction items as [|[key ep] items IH]; intros cache step kept Hrew Hwf Hperm; simpl.
  - exists cache. by rewrite Z.add_0_r.
  - assert (has_reward ep) as Hep by (apply (Hrew (key, ep)); left).
    rewrite (within_budget_fits ds step ep Hep).
    destruct (fits ds step ep) eqn:Hfit.
    + rewrite (transitions_steps ep Hep).
      destruct (IH cache (step + steps ep)%Z (kept ++ [(key, ep)]))
        as (cache' & Heq & Hp & Hsub).
      * intros item Hin. apply Hrew. by right.
      * done.
      * by rewrite <- app_assoc.
      * exists cache'. rewrite Heq. split_and!; [f_equal; f_equal; simpl; lia | | done].
        by rewrite <- app_assoc in Hp.
    + assert ((key, ep) ∈ cache) as Hin.
      { rewrite Hperm. apply elem_of_app. right. left. }
      pose proof (dict_del_perm cache key ep Hwf Hin) as Hdel.
      destruct (IH (dict_del cache key) step kept) as (cache' & Heq & Hp & Hsub).
      * intros item Hi. apply Hrew. by right.
      * by apply dict_wf_del.
      * apply (Permutation_cons_inv (a := (key, ep))).
        rewrite <- Hdel, Hperm. by rewrite Permutation_middle.
      * exists cache'. split_and!; [done | done |].
        etrans; [done | apply dict_del_sublist].
Qed.

Lemma erase_loop_falsy ds items cache step :
  truthy ds = false →
  (∀ item, item ∈ items → has_reward item.2) →
  erase_loop ds items cache step = (cache, Ok (step + total_steps items)%Z).
Proof.
  intros Hds. revert step.
  induction items as [|[key ep] items IH]; intros step Hrew; simpl.
  - by rewrite Z.add_0_r.
  - assert (has_reward ep) as Hep by (apply (Hrew (key, ep)); left).
    assert (within_budget ds step ep = Ok true) as ->.
    { unfold within_budget. destruct ds as [b|]; [|done]. by rewrite Hds. }
    rewrite (transitions_steps ep Hep), IH.
    + do 2 f_equal. lia.
    + intros item Hin. apply Hrew. by right.
Qed.

Lemma scan_within_budget b step items :
  (step ≤ b)%Z → b ≠ 0%Z →
  (step + total_steps (scan (Some b) step items) ≤ b)%Z.
Proof.
  intros Hle Hb. revert step Hle.
  induction items as [|item items IH]; intros step Hle; simpl; [lia|].
  rewrite (bool_decide_eq_false_2 (b = 0%Z)) by done.
  case_bool_decide as Hfit; simpl.
  - specialize (IH (step + steps item.2)%Z Hfit). lia.
  - by apply IH.
Qed.

Lemma sorted_items_perm cache : reverse (sorted_items cache) ≡ₚ cache.
Proof.
  unfold sorted_items. rewrite reverse_Permutation. apply merge_sort_Permutation.
Qed.

Lemma erase_over_episodes_scan cache ds :
  dict_wf cache →
  (∀ k ep, (k, ep) ∈ cache → has_reward ep) →
  ∃ cache',
    erase_over_episodes cache ds = (cache', Ok (total_steps cache')) ∧
    cache' ≡ₚ scan ds 0 (reverse (sorted_items cache)) ∧
    cache' `sublist_of` cache.
Proof.
  intros Hwf Hrew.
  destruct (erase_loop_scan ds (reverse (sorted_items cache)) cache 0%Z [])
    as (cache' & Heq & Hp & Hsub).
  - intros [k ep] Hin. apply (Hrew k). by rewrite <- (sorted_items_perm cache).
  - done.
  - by rewrite sorted_items_perm.
  - exists cache'. split_and!; [|done|done].
    unfold erase_over_episodes. rewrite Heq. simpl in Hp.
    by rewrite (total_steps_perm _ _ Hp).
Qed.
End eviction_facts.

Section eviction_order.
Context {V K : Type} `{!NumPy V} `{!EpisodeId K}.
Context `{!PartialOrder (key_le (K := K))} `{!Total (key_le (K := K))}.
Implicit Types (cache : Cache K V) (ep : Episode V) (items : list (K * Episode V)).

Lemma filter_all {A} (P : A → Prop) `{!∀ x, Decision (P x)} (l : list A) :
  (∀ x, x ∈ l → P x) → filter P l = l.
Proof.
  induction l as [|x l IH]; intros Hall; [done|].
  rewrite filter_cons_True by (apply Hall; left).
  f_equal. apply IH. intros y Hy. apply Hall. by right.
Qed.

Lemma filter_none {A} (P : A → Prop) `{!∀ x, Decision (P x)} (l : list A) :
  (∀ x, x ∈ l → ¬ P x) → filter P l = [].
Proof.
  induction l as [|x l IH]; intros Hall; [done|].
  rewrite filter_cons_False by (apply Hall; left).
  apply IH. intros y Hy. apply Hall. by right.
Qed.

Lemma total_steps_filter_mono (P Q : K * Episode V → Prop)
    `{!∀ x, Decision (P x)} `{!∀ x, Decision (Q x)} items :
  (∀ x, x ∈ items → P x → Q x) →
  (∀ x, x ∈ items → (0 ≤ steps x.2)%Z) →
  (total_steps (filter P items) ≤ total_steps (filter Q items))%Z.
Proof.
  induction items as [|x items IH]; intros HPQ Hpos; [done|].
  assert (total_steps (filter P items) ≤ total_steps (filter Q items))%Z as Hrec.
  { apply IH; intros y Hy; [apply HPQ | apply Hpos]; by right. }
  pose proof (Hpos x ltac:(left)) as Hx.
  rewrite !filter_cons.
  destruct (decide (P x)) as [HP|HP].
  - rewrite decide_True by (apply HPQ; [left | done]). simpl. lia.
  - destruct (decide (Q x)); simpl; lia.
Qed.

Lemma older_irrefl (k : K) : ¬ older k k.
Proof. intros [_ Hn]. apply Hn. reflexivity. Qed.

Lemma older_trans (a b c : K) : older a b → older b c → older a c.
Proof. unfold older. apply (transitivity (R := strict key_le)). Qed.

Lemma older_asym (a b : K) : older a b → ¬ older b a.
Proof. intros H1 H2. apply (older_irrefl a). by eapply older_trans. Qed.

(** Newest first: in the reversed sorted items every episode comes after
    the strictly newer ones and before the strictly older ones. *)
Lemma reverse_sorted_split cache front item back :
  dict_wf cache →
  reverse (sorted_items cache) = front ++ item :: back →
  (∀ y, y ∈ front → older item.1 y.1) ∧ (∀ y, y ∈ back → older y.1 item.1).
Proof.
  intros Hwf Hsplit.
  assert (StronglySorted (flip item_le) (reverse (sorted_items cache))) as Hss.
  { apply Sorted_StronglySorted.
    - intros a b c Hab Hbc. unfold flip, item_le in *. by etrans.
    - apply Sorted_reverse, Sorted_merge_sort.
      intros a b. unfold item_le. apply (total key_le). }
  assert (NoDup (reverse (sorted_items cache)).*1) as Hnd.
  { unfold dict_wf, dict_keys in Hwf. by rewrite (sorted_items_perm cache). }
  rewrite Hsplit in Hss, Hnd.
  rewrite fmap_app, fmap_cons in Hnd.
  apply NoDup_app in Hnd as (_ & Hfront & Hnd).
  apply NoDup_cons in Hnd as [Hback _].
  apply StronglySorted_app in Hss as (Hcross & _ & Hss).
  apply StronglySorted_cons in Hss as [Hhd _].
  rewrite Forall_forall in Hhd.
  assert (∀ a b : K, key_le a b → a ≠ b → older a b) as Hstrict.
  { intros a b Hab Hne. split; [done|]. intros Hba. apply Hne.
    by apply (anti_symm key_le). }
  split; intros y Hy.
  - apply Hstrict.
    + apply (Hcross y item); [done | left].
    + intros Heq. apply (Hfront y.1).
      * apply list_elem_of_fmap. by exists y.
      * rewrite <- Heq. left.
  - apply Hstrict.
    + by apply Hhd.
    + intros Heq. apply Hback. rewrite <- Heq.
      apply list_elem_of_fmap. by exists y.
Qed.

(** What the scan decides for one episode, in terms of what it retained. *)
Lemma erase_over_episodes_decides cache b cache' k ep :
  dict_wf cache →
  (∀ k ep, (k, ep) ∈ cache → has_reward ep) →
  b ≠ 0%Z →
  (erase_over_episodes cache (Some b)).1 = cache' →
  dict_get cache k = Some ep →
  (dict_get cache' k = Some ep ↔ (newer_total cache' k + steps ep ≤ b)%Z) ∧
  (dict_get cache' k = None ↔ (b < newer_total cache' k + steps ep)%Z).
Proof.
  intros Hwf Hrew Hb Hrun Hget.
  destruct (erase_over_episodes_scan cache (Some b) Hwf Hrew)
    as (cache1 & Heq & Hperm & Hsub).
  rewrite Heq in Hrun. simpl in Hrun. subst cache1.
  assert (dict_wf cache') as Hwf'.
  { unfold dict_wf, dict_keys in *. eapply sublist_NoDup; [done|].
    by apply fmap_sublist. }
  assert ((k, ep) ∈ reverse (sorted_items cache)) as Hin.
  { rewrite sorted_items_perm. by apply dict_get_Some_elem. }
  apply list_elem_of_split in Hin as (front & back & Hsplit).
  destruct (reverse_sorted_split cache front (k, ep) back Hwf Hsplit)
    as [Hfront Hback]. simpl in Hfront, Hback.
  rewrite Hsplit, scan_app, Z.add_0_l in Hperm.
  set (sP := total_steps (scan (Some b) 0 front)) in *.
  assert (newer_total cache' k
          = (sP + total_steps (filter (λ item, older k item.1)
                                 (scan (Some b) sP ((k, ep) :: back))))%Z) as Hnewer.
  { unfold newer_total. rewrite (total_steps_perm _ _
      (filter_Permutation (λ item, older k item.1) _ _ Hperm)).
    rewrite filter_app, total_steps_app. f_equal.
    rewrite filter_all; [done|].
    intros y Hy. by apply scan_elem_of, Hfront in Hy. }
  assert (filter (λ item : K * Episode V, older k item.1)
            (scan (Some b) sP ((k, ep) :: back)) = []) as Hnone.
  { apply filter_none. intros y Hy.
    apply scan_elem_of in Hy.
    apply elem_of_cons in Hy as [-> | Hy]; simpl.
    - apply older_irrefl.
    - by apply older_asym, Hback. }
  rewrite Hnone in Hnewer. simpl in Hnewer. rewrite Z.add_0_r in Hnewer.
  assert ((k, ep) ∈ cache' ↔ fits (Some b) sP ep = true) as Hmem.
  { rewrite Hperm, elem_of_app, (scan_cons (Some b) sP (k, ep) back).
    cbn [snd]. split.
    - intros [Hin | Hin].
      + apply scan_elem_of, Hfront in Hin.
        by apply older_irrefl in Hin.
      + destruct (fits (Some b) sP ep); [done|].
        apply scan_elem_of, Hback in Hin.
        by apply older_irrefl in Hin.
    - intros ->. right. left. }
  assert (fits (Some b) sP ep = true ↔ (sP + steps ep ≤ b)%Z) as Hfit.
  { unfold fits. rewrite bool_decide_eq_false_2 by done.
    apply bool_decide_eq_true. }
  rewrite Hnewer.
  assert (dict_get cache' k = None ∨ dict_get cache' k = Some ep) as Hcases.
  { destruct (dict_get cache' k) as [ep'|] eqn:Hget'; [right | by left].
    apply dict_get_Some_elem in Hget'.
    apply (λ H, elem_of_sublist _ _ _ H Hsub), (dict_get_elem cache k ep' Hwf) in Hget'.
    congruence. }
  assert (dict_get cache' k = Some ep ↔ (sP + steps ep ≤ b)%Z) as Hsome.
  { by rewrite (dict_get_lookup cache' k ep Hwf'), Hmem. }
  split; [done|]. split.
  - intros Hnone'. destruct (decide (sP + steps ep ≤ b)%Z) as [Hle|]; [|lia].
    apply Hsome in Hle. congruence.
  - intros Hlt. destruct Hcases as [|Hc]; [done|]. apply Hsome in Hc. lia.
Qed.
End eviction_order.

Section eviction_theorems.
Context {V K : Type} `{!NumPy V} `{!EpisodeId K}.
Implicit Types (cache : Cache K V) (ep : Episode V).

(** C1, as amended: [erase_over_episodes] scans the episodes from the newest
    identifier to the oldest and deletes exactly those whose transition count,
    added to the transitions of the newer episodes it has retained, exceeds
    the budget; every other episode stays as it was.  The scan does not stop
    at the first deletion: when no episode has a negative transition count,
    an evicted episode drags along every older episode with at least as many
    transitions, and no others are promised to go. *)
Theorem erase_over_episodes_evicts_what_overflows cache (b : Z) :
  PartialOrder (key_le (K := K)) → Total (key_le (K := K)) →
  dict_wf cache →
  (∀ k ep, (k, ep) ∈ cache → has_reward ep) →
  b ≠ 0%Z →
  ∀ cache', (erase_over_episodes cache (Some b)).1 = cache' →
  (∀ k ep, dict_get cache k = Some ep →
     (evicted cache cache' k ↔ (b < newer_total cache' k + steps ep)%Z) ∧
     (dict_get cache' k = Some ep ↔ (newer_total cache' k + steps ep ≤ b)%Z)) ∧
  ((∀ k ep, (k, ep) ∈ cache → (0 ≤ steps ep)%Z) →
   ∀ kA epA kB epB,
     dict_get cache kA = Some epA → dict_get cache kB = Some epB →
     evicted cache cache' kA → older kB kA → (steps epA ≤ steps epB)%Z →
     evicted cache cache' kB).
Proof.
  intros Hpo Htot Hwf Hrew Hb cache' Hrun.
  assert (∀ k ep, dict_get cache k = Some ep →
     (dict_get cache' k = Some ep ↔ (newer_total cache' k + steps ep ≤ b)%Z) ∧
     (dict_get cache' k = None ↔ (b < newer_total cache' k + steps ep)%Z)) as Hdec.
  { intros k ep Hget. by apply (erase_over_episodes_decides cache b cache' k ep). }
  assert (∀ k ep, dict_get cache k = Some ep →
     (evicted cache cache' k ↔ (b < newer_total cache' k + steps ep)%Z)) as Hev.
  { intros k ep Hget. destruct (Hdec k ep Hget) as [_ Hnone].
    unfold evicted. rewrite Hget, <- Hnone. split; [by intros [_ ?] | by split]. }
  split.
  - intros k ep Hget. split; [by apply Hev | by apply Hdec].
  - intros Hpos kA epA kB epB HA HB HevA Hold Hsteps.
    apply (Hev kA epA HA) in HevA. apply (Hev kB epB HB).
    assert (newer_total cache' kA ≤ newer_total cache' kB)%Z; [|lia].
    destruct (erase_over_episodes_scan cache (Some b) Hwf Hrew)
      as (cache1 & Heq & _ & Hsub).
    assert (cache1 = cache') as -> by (by rewrite Heq in Hrun).
    unfold newer_total. apply total_steps_filter_mono.
    + intros x _ Hx. by eapply older_trans.
    + intros [k ep] Hin. apply (Hpos k). by eapply elem_of_sublist.
Qed.

(** C5, as amended: for a cache whose episodes all carry a reward field,
    when [step_budget] is a positive number the transitions retained by
    [erase_over_episodes] (the sum over the retained episodes of
    [len(reward) - 1]) never exceed it and equal the returned value, and the
    retained episodes are episodes of the cache in their order; when
    [step_budget] is falsy ([None] or [0]) nothing is deleted and the total
    over all episodes is returned. *)
Theorem erase_over_episodes_respects_budget cache :
  dict_wf cache →
  (∀ k ep, (k, ep) ∈ cache → has_reward ep) →
  (∀ b : Z, (0 < b)%Z →
     ∃ cache',
       erase_over_episodes cache (Some b) = (cache', Ok (total_steps cache')) ∧
       (total_steps cache' ≤ b)%Z ∧
       cache' `sublist_of` cache) ∧
  (∀ ds, truthy ds = false →
     erase_over_episodes cache ds = (cache, Ok (total_steps cache))).
Proof.
  intros Hwf Hrew. split.
  - intros b Hb.
    destruct (erase_over_episodes_scan cache (Some b) Hwf Hrew)
      as (cache' & Heq & Hperm & Hsub).
    exists cache'. split_and!; [done | | done].
    rewrite (total_steps_perm _ _ Hperm).
    pose proof (scan_within_budget b 0 (reverse (sorted_items cache))) as Hle.
    lia.
  - intros ds Hds. unfold erase_over_episodes.
    rewrite erase_loop_falsy; [| done |].
    + by rewrite Z.add_0_l, (total_steps_perm _ _ (sorted_items_perm cache)).
    + intros [k ep] Hin. apply (Hrew k). by rewrite <- (sorted_items_perm cache).
Qed.
End eviction_theorems.

Section eviction_examples.
Import Fixture.

Lemma cache_135_wf : dict_wf cache_135.
Proof.
  unfold dict_wf, dict_keys, cache_135. simpl.
  refine (bool_decide_unpack _ _). by vm_compute.
Qed.

Lemma cache_135_rewards k ep : (k, ep) ∈ cache_135 → has_reward ep.
Proof.
  intros Hin. unfold cache_135 in Hin.
  repeat (apply elem_of_cons in Hin as [Heq | Hin];
          [injection Heq as -> ->; by eexists|]).
  by apply elem_of_nil in Hin.
Qed.

Example erase_cache_135_budget_4 :
  erase_over_episodes cache_135 (Some 4%Z)
  = ([(1%Z, rewards 2); (3%Z, rewards 4)], Ok 4%Z).
Proof. by vm_compute. Qed.

(** C1 fails as stated: with a budget of 4, episode 2 (5 transitions) is
    deleted while the older episode 1 (1 transition) still fits and stays. *)
Lemma erase_over_episodes_keeps_an_older_episode :
  ¬ evicts_every_older cache_135 (Some 4%Z).
Proof.
  intros Hclaim. specialize (Hclaim 2%Z 1%Z).
  rewrite erase_cache_135_budget_4 in Hclaim.
  destruct Hclaim as [_ Hgone].
  - split; [by eexists | done].
  - by eexists.
  - split; [by vm_compute | by vm_compute].
  - vm_compute in Hgone. discriminate.
Qed.

Lemma cache_135_steps k ep : (k, ep) ∈ cache_135 → (0 ≤ steps ep)%Z.
Proof.
  intros Hin. unfold cache_135 in Hin.
  repeat (apply elem_of_cons in Hin as [Heq | Hin];
          [injection Heq as -> ->; by vm_compute|]).
  by apply elem_of_nil in Hin.
Qed.

Lemma erase_over_episodes_evicts_what_overflows_witness :
  (erase_over_episodes cache_135 (Some 2%Z)).1 = [(1%Z, rewards 2)] ∧
  evicted cache_135 [(1%Z, rewards 2)] 3%Z ∧
  dict_get [(1%Z, rewards 2)] 1%Z = Some (rewards 2) ∧
  evicted cache_135 [(1%Z, rewards 2)] 2%Z.
Proof.
  destruct (erase_over_episodes_evicts_what_overflows
              (EpisodeId0 := Z_episode_id) cache_135 2%Z
              Z.le_po Z.le_total cache_135_wf cache_135_rewards ltac:(lia)
              [(1%Z, rewards 2)] eq_refl) as [Heach Holder].
  assert (evicted cache_135 [(1%Z, rewards 2)] 3%Z) as Hnewest.
  { apply (Heach 3%Z (rewards 4) eq_refl). by vm_compute. }
  split_and!.
  - reflexivity.
  - exact Hnewest.
  - apply (Heach 1%Z (rewards 2) eq_refl). by vm_compute.
  - apply (Holder cache_135_steps 3%Z (rewards 4) 2%Z (rewards 6)
             eq_refl eq_refl Hnewest).
    + split; by vm_compute.
    + by vm_compute.
Defined.

(** C5 fails as stated for a budget that is set but negative: everything is
    deleted, nothing is retained, and zero exceeds the budget. *)
Lemma erase_over_episodes_negative_budget :
  truthy (Some (-1)%Z) = true ∧ ¬ retains_within cache_135 (-1)%Z.
Proof.
  split; [done|]. intros (cache' & Heq & Hle).
  assert (erase_over_episodes cache_135 (Some (-1)%Z) = ([], Ok 0%Z)) as Hrun
    by by vm_compute.
  rewrite Hrun in Heq. injection Heq as <- _. simpl in Hle. lia.
Qed.

Lemma erase_over_episodes_respects_budget_witness :
  (∃ cache',
     erase_over_episodes cache_135 (Some 4%Z) = (cache', Ok (total_steps cache')) ∧
     (total_steps cache' ≤ 4)%Z ∧
     cache' `sublist_of` cache_135) ∧
  erase_over_episodes cache_135 None = (cache_135, Ok (total_steps cache_135)) ∧
  erase_over_episodes cache_135 (Some 0%Z) = (cache_135, Ok (total_steps cache_135)).
Proof.
  destruct (erase_over_episodes_respects_budget
              (EpisodeId0 := Z_episode_id) cache_135
              cache_135_wf cache_135_rewards) as [Hset Hunset].
  split_and!.
  - apply (Hset 4%Z). lia.
  - apply (Hunset None). reflexivity.
  - apply (Hunset (Some 0%Z)). reflexivity.
Defined.
End eviction_examples.

(** ** Insertion *)

Section insertion_facts.
Context {V K : Type} `{!NumPy V} `{!EpisodeId K}.
Implicit Types (cache : Cache K V) (ep : Episode V) (t items : pydict string V).

Lemma dict_get_set {A B} `{EqDecision A} (d : pydict A B) k k' v :
  dict_get (dict_set d k v) k' = if decide (k = k') then Some v else dict_get d k'.
Proof.
  case_decide as Hk.
  - subst. apply dict_get_set_eq.
  - by apply dict_get_set_ne.
Qed.

Lemma convertible_inv key v t :
  convertible ((key, v) :: t) →
  (∃ c z, convert v 32 = Ok c ∧ convert (zero_mul v) 32 = Ok z) ∧ convertible t.
Proof.
  intros Hc. split.
  - destruct (Hc key v) as [Hv Hz]; [left|].
    destruct (convert v 32) as [c|]; [|done].
    destruct (convert (zero_mul v) 32) as [z|]; [|done].
    by exists c, z.
  - intros k' v' Hin. apply (Hc k' v'). by right.
Qed.

Lemma uniform_set n ep key l :
  uniform n ep → length l = n → uniform n (dict_set ep key (PList l)).
Proof.
  intros Hu Hl k s. rewrite dict_get_set. case_decide.
  - intros [= <-]. by exists l.
  - apply Hu.
Qed.

Lemma fill_new_episode_spec items ep :
  convertible items → dict_wf ep → uniform 1 ep →
  ∃ ep', fill_new_episode ep items = (ep', Ok ()) ∧
         dict_wf ep' ∧ uniform 1 ep' ∧
         ∀ key, is_Some (dict_get ep' key)
                ↔ is_Some (dict_get ep key) ∨ is_Some (dict_get items key).
Proof.
  revert ep. induction items as [|[key v] items IH]; intros ep Hc Hwf Hu; simpl.
  - exists ep. split_and!; [done..|]. intros k. split; [by left|].
    by intros [?|[? [=]]].
  - apply convertible_inv in Hc as [(c & z & Hcv & _) Hc]. rewrite Hcv.
    destruct (IH (dict_set ep key (PList [c])) Hc) as (ep' & Heq & Hwf' & Hu' & Hk).
    + by apply dict_wf_set.
    + by apply uniform_set.
    + exists ep'. split_and!; [done..|].
      intros k. rewrite Hk, dict_get_set.
      destruct (decide (k = key)) as [->|Hne].
      * rewrite !decide_True by done. split; [intros _ | by left]. right. by eexists.
      * rewrite !decide_False by done. done.
Qed.

(** What one later call stores in each field of an episode made of lists. *)
Lemma extend_episode_spec items ep :
  dict_wf items → convertible items → dict_wf ep → all_lists ep →
  ∃ ep', extend_episode ep items = (ep', Ok ()) ∧
         dict_wf ep' ∧ all_lists ep' ∧
         ∀ key,
           match dict_get items key with
           | None => dict_get ep' key = dict_get ep key
           | Some v =>
               ∃ c, convert v 32 = Ok c ∧
                 match dict_get ep key with
                 | Some s => ∃ l, s = PList l ∧
                                  dict_get ep' key = Some (PList (l ++ [c]))
                 | None => ∃ z, convert (zero_mul v) 32 = Ok z ∧
                                dict_get ep' key = Some (PList [z; c])
                 end
           end.
Proof.
  revert ep. induction items as [|[key v] items IH]; intros ep Hnd Hc Hwf Hl; simpl.
  - by exists ep.
  - apply convertible_inv in Hc as [(c & z & Hcv & Hcz) Hc].
    unfold dict_wf, dict_keys in Hnd. simpl in Hnd.
    apply NoDup_cons in Hnd as [Hfresh Hnd].
    apply dict_get_None in Hfresh.
    assert (∃ ep1 new,
      append_value ep key v = (ep1, Ok ()) ∧ dict_wf ep1 ∧ all_lists ep1 ∧
      dict_get ep1 key = Some (PList new) ∧
      (∀ k, k ≠ key → dict_get ep1 k = dict_get ep k) ∧
      match dict_get ep key with
      | Some s => ∃ l, s = PList l ∧ new = l ++ [c]
      | None => new = [z; c]
      end) as (ep1 & new & Hstep & Hwf1 & Hl1 & Hkey & Hother & Hnew).
    { unfold append_value. destruct (dict_get ep key) as [s|] eqn:Hget.
      - destruct (Hl key s Hget) as [l ->]. rewrite Hcv.
        exists (dict_set ep key (PList (l ++ [c]))), (l ++ [c]).
        split_and!; [done | by apply dict_wf_set | | apply dict_get_set_eq | | by exists l].
        + intros k s. rewrite dict_get_set. case_decide; [|apply Hl].
          intros [= <-]. by eexists.
        + intros k Hne. by apply dict_get_set_ne.
      - rewrite Hcz, Hcv. simpl.
        exists (dict_set (dict_set ep key (PList [z])) key (PList [z; c])), [z; c].
        split_and!; [done | by do 2 apply dict_wf_set | | apply dict_get_set_eq | | done].
        + intros k s. rewrite !dict_get_set. case_decide; [|apply Hl].
          intros [= <-]. by eexists.
        + intros k Hne. by rewrite !dict_get_set_ne. }
    rewrite Hstep.
    destruct (IH ep1 Hnd Hc Hwf1 Hl1) as (ep' & Heq & Hwf' & Hl' & Hk).
    exists ep'. split_and!; [done..|].
    intros k. specialize (Hk k). destruct (decide (k = key)) as [->|Hne].
    + rewrite Hfresh, Hkey in Hk. exists c. split; [done|].
      destruct (dict_get ep key) as [s|].
      * destruct Hnew as (l & -> & ->). by exists l.
      * subst new. by exists z.
    + rewrite (Hother k Hne) in Hk. done.
Qed.

Lemma extend_episode_uniform items ep n :
  dict_wf items → convertible items → dict_wf ep → uniform n ep →
  sub_fields ep items → n = 1%nat ∨ sub_fields items ep →
  ∃ ep', extend_episode ep items = (ep', Ok ()) ∧
         dict_wf ep' ∧ uniform (S n) ep' ∧ same_fields ep' items.
Proof.
  intros Hnd Hc Hwf Hu Hsub Hdrift.
  destruct (extend_episode_spec items ep Hnd Hc Hwf) as (ep' & Heq & Hwf' & _ & Hk).
  { intros key s Hget. destruct (Hu key s Hget) as (l & -> & _). by exists l. }
  exists ep'. split_and!; [done | done | |].
  - intros key s Hget. specialize (Hk key).
    destruct (dict_get items key) as [v|] eqn:Hitem.
    + destruct Hk as (c & _ & Hk). destruct (dict_get ep key) as [s0|] eqn:Hep.
      * destruct Hk as (l & -> & Hk). destruct (Hu key _ Hep) as (l' & [= <-] & Hlen).
        rewrite Hget in Hk. injection Hk as ->. eexists. split; [done|].
        rewrite length_app. simpl. lia.
      * destruct Hk as (z & _ & Hk). rewrite Hget in Hk. injection Hk as ->.
        destruct Hdrift as [-> | Hdrift]; [by eexists|].
        destruct (Hdrift key) as [x Hx]; [by eexists | congruence].
    + rewrite Hget in Hk. destruct (Hsub key) as [x Hx]; [by eexists | congruence].
  - split; intros key [x Hx]; specialize (Hk key).
    + destruct (dict_get items key) as [v|] eqn:Hitem; [by eexists|].
      rewrite <- Hitem. apply (Hsub key). rewrite <- Hk. by eexists.
    + rewrite Hx in Hk. destruct Hk as (c & _ & Hk).
      destruct (dict_get ep key) as [s|].
      * destruct Hk as (l & _ & ->). by eexists.
      * destruct Hk as (z & _ & ->). by eexists.
Qed.
End insertion_facts.

Section insertion_theorems.
Context {V K : Type} `{!NumPy V} `{!EpisodeId K}.
Implicit Types (cache : Cache K V) (ep : Episode V) (t : pydict string V).

Lemma add_to_cache_first cache id t :
  dict_get cache id = None → convertible t →
  ∃ cache' ep, add_to_cache cache id t = (cache', Ok ()) ∧
               dict_get cache' id = Some ep ∧
               dict_wf ep ∧ uniform 1 ep ∧ same_fields ep t.
Proof.
  intros Hnew Hc. unfold add_to_cache. rewrite Hnew.
  destruct (fill_new_episode_spec t [] Hc) as (ep & Heq & Hwf & Hu & Hk).
  - apply NoDup_nil_2.
  - intros key s [=].
  - rewrite Heq. exists (dict_set cache id ep), ep.
    split_and!; [done | apply dict_get_set_eq | done | done |].
    split; intros key Hkey.
    + apply Hk in Hkey as [[? [=]] | ?]. done.
    + apply Hk. by right.
Qed.

Lemma add_to_cache_later cache id t ep n :
  dict_get cache id = Some ep →
  dict_wf t → convertible t → dict_wf ep → uniform n ep →
  sub_fields ep t → n = 1%nat ∨ sub_fields t ep →
  ∃ cache' ep', add_to_cache cache id t = (cache', Ok ()) ∧
                dict_get cache' id = Some ep' ∧
                dict_wf ep' ∧ uniform (S n) ep' ∧ same_fields ep' t.
Proof.
  intros Hold Hnd Hc Hwf Hu Hsub Hdrift. unfold add_to_cache. rewrite Hold.
  destruct (extend_episode_uniform t ep n Hnd Hc Hwf Hu Hsub Hdrift)
    as (ep' & Heq & Hwf' & Hu' & Hsame).
  rewrite Heq. exists (dict_set cache id ep'), ep'.
  split_and!; [done | apply dict_get_set_eq | done..].
Qed.

Lemma add_all_later ts : ∀ cache id ep n,
  dict_get cache id = Some ep → dict_wf ep → uniform n ep →
  Forall dict_wf ts → Forall convertible ts →
  (∀ t t', t ∈ ts → t' ∈ ts → same_fields t t') →
  (∀ t, t ∈ ts → sub_fields ep t ∧ (n = 1%nat ∨ sub_fields t ep)) →
  ∀ m, (m ≤ length ts)%nat →
    ∃ cache_m ep_m, add_all cache id (take m ts) = (cache_m, Ok ()) ∧
                    dict_get cache_m id = Some ep_m ∧ uniform (n + m) ep_m.
Proof.
  induction ts as [|t ts IH]; intros cache id ep n Hget Hwf Hu Hnd Hc Hsame Hhead m Hm.
  - simpl in Hm. assert (m = 0%nat) as -> by lia. exists cache, ep.
    by rewrite Nat.add_0_r.
  - destruct m as [|m].
    { exists cache, ep. by rewrite Nat.add_0_r. }
    apply Forall_cons in Hnd as [Hndt Hnd]. apply Forall_cons in Hc as [Hct Hc].
    destruct (Hhead t) as [Hsub Hdrift]; [left|].
    destruct (add_to_cache_later cache id t ep n Hget Hndt Hct Hwf Hu Hsub Hdrift)
      as (cache1 & ep1 & Heq & Hget1 & Hwf1 & Hu1 & [Hs1 Hs2]).
    destruct (IH cache1 id ep1 (S n) Hget1 Hwf1 Hu1 Hnd Hc) with (m := m)
      as (cache_m & ep_m & Hrun & Hgetm & Hum).
    + intros t1 t2 H1 H2. apply Hsame; by right.
    + intros t' Hin. destruct (Hsame t t') as [Htt' Ht't]; [left | by right |].
      split; [|right]; intros key Hkey.
      * by apply (Htt' key), (Hs1 key).
      * by apply (Hs2 key), (Ht't key).
    + simpl in Hm. lia.
    + exists cache_m, ep_m. simpl. rewrite Heq.
      split_and!; [done | done |]. by rewrite <- Nat.add_succ_comm.
Qed.

(** C2, as amended: for successive [add_to_cache] calls on one fresh episode
    id whose values [convert] accepts, where every transition after the first
    carries one and the same set of fields and that set contains the fields of
    the first transition, every call returns and after the [n]-th call every
    field of the episode is a list of exactly [n] entries.  In any call on an
    existing episode made of lists, a field that the episode does not have yet
    is stored as the placeholder [convert(0 * v)] followed by [convert(v)],
    and nothing more: one placeholder whatever the number of earlier
    inserts. *)
Theorem add_to_cache_fields_keep_step cache id t1 ts :
  dict_get cache id = None →
  Forall dict_wf ts →
  Forall convertible (t1 :: ts) →
  (∀ t, t ∈ ts → sub_fields t1 t) →
  (∀ t t', t ∈ ts → t' ∈ ts → same_fields t t') →
  (∀ n, (1 ≤ n ≤ length (t1 :: ts))%nat →
     ∃ cache_n ep, add_all cache id (take n (t1 :: ts)) = (cache_n, Ok ()) ∧
                   dict_get cache_n id = Some ep ∧ uniform n ep) ∧
  (∀ cache0 id0 ep t key v,
     dict_get cache0 id0 = Some ep → dict_wf ep → all_lists ep →
     dict_wf t → convertible t →
     dict_get ep key = None → dict_get t key = Some v →
     ∃ cache' ep' z c,
       add_to_cache cache0 id0 t = (cache', Ok ()) ∧
       dict_get cache' id0 = Some ep' ∧
       convert (zero_mul v) 32 = Ok z ∧ convert v 32 = Ok c ∧
       dict_get ep' key = Some (PList [z; c])).
Proof.
  intros Hnew Hnd Hc Hsub Hsame. split.
  - intros n [Hn1 Hn2]. destruct n as [|m]; [lia|].
    apply Forall_cons in Hc as [Hc1 Hc].
    destruct (add_to_cache_first cache id t1 Hnew Hc1)
      as (cache1 & ep1 & Heq & Hget1 & Hwf1 & Hu1 & [Hs1 Hs2]).
    destruct (add_all_later ts cache1 id ep1 1 Hget1 Hwf1 Hu1 Hnd Hc Hsame)
      with (m := m) as (cache_m & ep_m & Hrun & Hgetm & Hum).
    + intros t Hin. split; [|by left].
      intros key Hkey. by apply (Hsub t Hin key), (Hs1 key).
    + simpl in Hn2. lia.
    + exists cache_m, ep_m. simpl. by rewrite Heq.
  - intros cache0 id0 ep t key v Hget Hwf Hl Hndt Hct Hfresh Hv.
    destruct (extend_episode_spec t ep Hndt Hct Hwf Hl) as (ep' & Heq & _ & _ & Hk).
    specialize (Hk key). rewrite Hv, Hfresh in Hk.
    destruct Hk as (c & Hcv & z & Hcz & Hstored).
    exists (dict_set cache0 id0 ep'), ep', z, c.
    unfold add_to_cache. rewrite Hget, Heq.
    split_and!; [done | apply dict_get_set_eq | done..].
Qed.
End insertion_theorems.

Section insertion_examples.
Import Fixture.

Example add_all_late_action :
  add_all (K := Z) [] 7%Z late_action
  = ([(7%Z, [("reward", PList [TFloat 0; TFloat 1; TFloat 1]);
             ("action", PList [TInt 0; TInt 1])])], Ok ()).
Proof. by vm_compute. Qed.

(** C2 fails as stated: a field that first appears at the third insert gets
    one placeholder and its value, two entries after three inserts. *)
Lemma add_to_cache_late_field_is_short :
  ¬ lengths_track_inserts (K := Z) [] 7%Z late_action.
Proof.
  intros Hclaim.
  specialize (Hclaim 3%nat _ _ "action" (PList [TInt 0; TInt 1])
                ltac:(simpl; lia) add_all_late_action eq_refl eq_refl).
  simpl in Hclaim. lia.
Qed.

Lemma fixture_fields (t : pydict string toy) (keys : list string) :
  dict_keys t = keys →
  ∀ key, is_Some (dict_get t key) ↔ key ∈ keys.
Proof.
  intros <- key. rewrite <- not_eq_None_Some, dict_get_None.
  split; [apply dec_stable | by intros ? ?].
Qed.

Lemma step_transitions_fields (t : pydict string toy) :
  t ∈ step_transitions →
  ∀ key, is_Some (dict_get t key) ↔ key ∈ ["image"; "action"; "reward"].
Proof.
  intros Hin key. unfold step_transitions in Hin.
  repeat (apply elem_of_cons in Hin as [-> | Hin]; [by apply fixture_fields|]).
  by apply elem_of_nil in Hin.
Qed.

Lemma add_to_cache_fields_keep_step_witness :
  (∃ cache_n ep,
     add_all (K := Z) [] 7%Z (take 3 (reset_transition :: step_transitions))
       = (cache_n, Ok ()) ∧
     dict_get cache_n 7%Z = Some ep ∧ uniform 3 ep) ∧
  (∃ cache' ep' z c,
     add_to_cache [(7%Z, [("reward", PList [TFloat 0; TFloat 1])])] 7%Z
       [("reward", TFloat 1); ("action", TInt 1)] = (cache', Ok ()) ∧
     dict_get cache' 7%Z = Some ep' ∧
     convert (zero_mul (TInt 1)) 32 = Ok z ∧ convert (TInt 1) 32 = Ok c ∧
     dict_get ep' "action" = Some (PList [z; c])).
Proof.
  destruct (add_to_cache_fields_keep_step (EpisodeId0 := Z_episode_id)
              [] 7%Z reset_transition step_transitions) as [Hn Hfresh].
  - reflexivity.
  - unfold step_transitions.
    repeat (apply Forall_cons_2; [refine (bool_decide_unpack _ _); by vm_compute|]).
    apply Forall_nil_2.
  - unfold step_transitions, reset_transition.
    repeat (apply Forall_cons_2;
      [intros key v Hin;
       repeat (apply elem_of_cons in Hin as [[= -> ->] | Hin]; [by vm_compute|]);
       by apply elem_of_nil in Hin|]).
    apply Forall_nil_2.
  - intros t Hin key.
    rewrite (fixture_fields reset_transition ["image"; "reward"] eq_refl).
    rewrite (step_transitions_fields t Hin key), !elem_of_cons. tauto.
  - intros t t' Hin Hin'.
    split; intros key;
      by rewrite (step_transitions_fields t Hin key),
                 (step_transitions_fields t' Hin' key).
  - split.
    + apply (Hn 3%nat). simpl. lia.
    + apply (Hfresh [(7%Z, [("reward", PList [TFloat 0; TFloat 1])])] 7%Z
               [("reward", PList [TFloat 0; TFloat 1])]
               [("reward", TFloat 1); ("action", TInt 1)] "action" (TInt 1)).
      * reflexivity.
      * refine (bool_decide_unpack _ _). by vm_compute.
      * intros key s Hin. simpl in Hin.
        destruct (decide _) in Hin; [|done]. injection Hin as <-. by eexists.
      * refine (bool_decide_unpack _ _). by vm_compute.
      * intros key v Hin.
        repeat (apply elem_of_cons in Hin as [[= -> ->] | Hin]; [by vm_compute|]).
        by apply elem_of_nil in Hin.
      * reflexivity.
      * reflexivity.
Defined.
End insertion_examples.

(** ** The window sampler *)

Section store_facts.
Context {V : Type} `{!NumPy V}.
Implicit Types (h : Store V) (a : ndview) (w : wval V) (s : pyseq V).











End store_facts.

Section fragment_facts.
Context {V : Type} `{!NumPy V}.
Implicit Types (h : Store V) (ep items : Episode V) (ret : Window V).



Lemma first_fragment_elem items index stop k w :
  (k, w) ∈ first_fragment items index stop ↔
  substring_of "log_" k = false ∧ ∃ v, (k, v) ∈ items ∧ w = slice v index stop.
Proof.
  induction items as [|[k' v'] items IH]; simpl.
  - split; [by intros ?%elem_of_nil | by intros (_ & v & ?%elem_of_nil & _)].
  - destruct (substring_of "log_" k') eqn:Hlog.
    + rewrite IH. split.
      * intros (Hk & v & Hin & ->). split; [done|]. exists v. split; [by right | done].
      * intros (Hk & v & Hin & ->). split; [done|]. exists v. split; [|done].
        apply elem_of_cons in Hin as [[= -> ->] | Hin]; [congruence | done].
    + rewrite elem_of_cons, IH. split.
      * intros [[= -> ->] | (Hk & v & Hin & ->)].
        -- split; [done|]. exists v'. split; [left | done].
        -- split; [done|]. exists v. split; [by right | done].
      * intros (Hk & v & Hin & ->).
        apply elem_of_cons in Hin as [[= -> ->] | Hin]; [by left|].
        right. split; [done|]. by exists v.
Qed.



Lemma stitch_fragment_elem h ret items stop w' k w :
  stitch_fragment h ret items stop = Ok w' →
  (k, w) ∈ w' →
  ∃ v old, (k, v) ∈ items ∧ dict_get ret k = Some old ∧
           w = np_append h old (slice v 0 stop).
Proof.
  revert w'. induction items as [|[k' v'] items IH]; intros w'; simpl.
  - intros [= <-] Hin. by apply elem_of_nil in Hin.
  - destruct (substring_of "log_" k').
    + intros Hs Hin. destruct (IH w' Hs Hin) as (v & old & H1 & H2 & H3).
      exists v, old. split_and!; [by right | done..].
    + destruct (dict_get ret k') as [old'|] eqn:Hold; simpl; [|done].
      destruct (stitch_fragment h ret items stop) as [w0|]; simpl; [|done].
      intros [= <-] Hin. apply elem_of_cons in Hin as [[= -> ->] | Hin].
      * exists v', old'. split_and!; [left | done..].
      * destruct (IH w0 eq_refl Hin) as (v & old & H1 & H2 & H3).
        exists v, old. split_and!; [by right | done..].
Qed.



End fragment_facts.

Section sample_step_facts.
Context {V R : Type} `{!NumPy V} `{!RandomState R} `{!RandomStateSpec R}.
Implicit Types (h : Store V) (ep : Episode V) (ret : Window V) (st : sampling V).






End sample_step_facts.

Section sample_loop_facts.
Context {V R : Type} `{!NumPy V} `{!RandomState R} `{!RandomStateSpec R}.
Implicit Types (h : Store V) (ep : Episode V) (ret : Window V) (st : sampling V).







Lemma mapM_first_len (episodes : list (Episode V)) lens :
  mapM (first_len seq_len) episodes = Ok lens →
  Forall2 (λ ep n, first_len seq_len ep = Ok n) episodes lens.
Proof.
  revert lens. induction episodes as [|ep episodes IH]; intros lens; simpl.
  - intros [= <-]. constructor.
  - destruct (first_len seq_len ep) as [n|] eqn:Hn; simpl; [|done].
    destruct (mapM (first_len seq_len) episodes) as [ns|]; simpl; [|done].
    intros [= <-]. constructor; [done | by apply IH].
Qed.

End sample_loop_facts.

Section sample_progress.
Context {V R : Type} `{!NumPy V} `{!RandomState R} `{!RandomStateSpec R}.
Implicit Types (h : Store V) (ep : Episode V) (ret : Window V) (st : sampling V).

Lemma dict_get_is_Some {A B} `{EqDecision A} (d : pydict A B) k :
  is_Some (dict_get d k) ↔ k ∈ dict_keys d.
Proof.
  rewrite <- not_eq_None_Some, dict_get_None.
  split; [apply dec_stable | by intros ? ?].
Qed.






End sample_progress.

Section sampler_theorems.
Context {V R K : Type} `{!NumPy V} `{!RandomState R} `{!RandomStateSpec R}.
Implicit Types (h : Store V) (episodes : Cache K V) (st : sampling V).




End sampler_theorems.

Section sampler_examples.
Import Fixture.

Example sample_window_listed :
  sample_window 4 [] listed_cache 4 [1; 0; 0]%nat
  = Done (Sampling 4
            (Some [("is_first", WArray [TBool true; TBool false; TBool true; TBool false]);
                   ("reward", WArray [TFloat 0; TFloat 5; TFloat 0; TFloat 1])])
            [] [2%nat] [1; 0]%nat, []).
Proof. by vm_compute. Qed.




End sampler_examples.

Section sampler_draws.
Context {V R K : Type} `{!NumPy V} `{!RandomState R}.
Implicit Types (h : Store V) (episodes : Cache K V) (st : sampling V).








End sampler_draws.

Section sampler_frame_examples.
Import Fixture.


Example sample_episodes_loaded :
  sample_episodes 1 2 loaded_store loaded_cache 2 [0; 1]%nat
  = Done ([Sampling 2
             (Some [("is_first", WView (NdView 0 1 2));
                    ("reward", WView (NdView 1 1 2))])
             [[TBool true; TBool true; TBool false]; [TFloat 0; TFloat 1; TFloat 2]]
             [] [0%nat]],
          [[TBool true; TBool true; TBool false]; [TFloat 0; TFloat 1; TFloat 2]],
          []).
Proof. by vm_compute. Qed.

(** C9 fails on the code: drawing one window of two steps from an episode
    that [load_episodes] read from disk, starting at its second entry, writes
    [True] into the stored [is_first] array of the episode, and the window
    yielded is made of views of the stored arrays. *)
Theorem sample_episodes_writes_into_loaded_episode :
  ¬ sampler_reads_only 1 2 loaded_store loaded_cache 2 [0; 1]%nat ∧
  rows loaded_store (NdArray (NdView 0 0 3))
    = [TBool true; TBool false; TBool false] ∧
  ∀ sts h' rng',
    sample_episodes 1 2 loaded_store loaded_cache 2 [0; 1]%nat = Done (sts, h', rng') →
    rows h' (NdArray (NdView 0 0 3)) = [TBool true; TBool true; TBool false].
Proof.
  split_and!.
  - intros Hclaim.
    destruct (Hclaim _ _ _ sample_episodes_loaded) as [Hsame _].
    specialize (Hsame _ "is_first" (NdArray (NdView 0 0 3))
                  ltac:(left) ltac:(left)).
    vm_compute in Hsame. discriminate.
  - done.
  - intros sts h' rng'. rewrite sample_episodes_loaded. by intros [= <- <- <-].
Qed.
End sampler_frame_examples.

Section sampler_lists_facts.
Context {V R K : Type} `{!NumPy V} `{!RandomState R}.
Implicit Types (h : Store V) (ret : Window V) (st : sampling V).

Lemma mark_first_owned h ret i h' ret' :
  (∀ k w, dict_get ret k = Some w → owns_rows w) →
  mark_first h ret i = Ok (h', ret') →
  h' = h ∧ ∀ k w, dict_get ret' k = Some w → owns_rows w.
Proof.
  intros Hown. unfold mark_first.
  destruct (dict_get ret "is_first") as [w|] eqn:Hw; [|by intros [= <- <-]].
  specialize (Hown _ _ Hw) as Hw'.
  destruct w as [l|a|r]; simpl in *; [|done|].
  - case_decide; simpl; [|done]. intros [= <- <-]. split; [done|].
    intros k w. rewrite dict_get_set. case_decide; [by intros [= <-] | apply Hown].
  - case_decide; simpl; [|done]. intros [= <- <-]. split; [done|].
    intros k w. rewrite dict_get_set. case_decide; [by intros [= <-] | apply Hown].
Qed.

Lemma sample_step_lists (eps : list (Episode V)) lens length st (rng : R) st' rng' :
  episodes_of_lists eps →
  window_owns_rows st →
  sample_step eps lens length st rng = Ok (st', rng') →
  s_store st' = s_store st ∧ window_owns_rows st'.
Proof.
  intros Hlists Hown. unfold sample_step. case_decide; [done|].
  destruct (rs_choice rng (probabilities lens)) as [i rng1].
  destruct (eps !! i) as [ep|] eqn:Hep; simpl; [|done].
  destruct (first_len seq_len ep) as [total|]; simpl; [|done].
  case_decide; [by intros [= <- _]|].
  assert (ep ∈ eps) as Hin by (by eapply list_elem_of_lookup_2).
  destruct (window_unset (s_ret st)).
  - destruct (rs_randint rng1 0 (Z.of_nat total - 1)) as [index rng2].
    destruct (mark_first _ _ 0) as [[h1 ret]|] eqn:Hmark; simpl; [|done].
    destruct (first_len wlen ret) as [size|]; simpl; [|done].
    intros [= <- _]. simpl.
    apply mark_first_owned in Hmark as [-> Hret].
    + split; [done|]. intros ret' k w [= <-]. apply Hret.
    + intros k w Hget%dict_get_Some_elem.
      apply first_fragment_elem in Hget as (_ & v & Hv & ->).
      by destruct (Hlists ep k v Hin Hv) as [l ->].
  - destruct (stitch_fragment _ _ _ _) as [ret1|] eqn:Hstitch; simpl; [|done].
    destruct (mark_first _ _ (s_size st)) as [[h1 ret]|] eqn:Hmark; simpl; [|done].
    destruct (first_len wlen ret) as [size|]; simpl; [|done].
    intros [= <- _]. simpl.
    apply mark_first_owned in Hmark as [-> Hret].
    + split; [done|]. intros ret' k w [= <-]. apply Hret.
    + intros k w Hget%dict_get_Some_elem.
      by destruct (stitch_fragment_elem _ _ _ _ _ _ _ Hstitch Hget)
        as (v & old & _ & _ & ->).
Qed.

Lemma sample_loop_lists fuel (eps : list (Episode V)) lens length :
  ∀ st (rng : R) st' rng',
    episodes_of_lists eps → window_owns_rows st →
    sample_loop fuel eps lens length st rng = Done (st', rng') →
    s_store st' = s_store st ∧ window_owns_rows st'.
Proof.
  induction fuel as [|fuel IH]; intros st rng st' rng' Hlists Hown; simpl.
  - case_decide; [done|]. by intros [= <- _].
  - case_decide; [|by intros [= <- _]].
    destruct (sample_step eps lens length st rng) as [[st1 rng1]|] eqn:Hstep; [|done].
    destruct (sample_step_lists _ _ _ _ _ _ _ Hlists Hown Hstep) as [Hstore Hown1].
    intros Hloop. destruct (IH _ _ _ _ Hlists Hown1 Hloop) as [Hstore' Hown'].
    split; [congruence | done].
Qed.

(** With episodes made of Python lists, as [add_to_cache] builds them, the
    sampler leaves the store alone and yields windows that own their rows:
    slicing a list copies it, and [np.append] copies as well. *)
Lemma sample_episodes_lists_read_only n : ∀ fuel h (episodes : Cache K V) length (rng : R),
  episodes_of_lists (dict_values episodes) →
  sampler_reads_only n fuel h episodes length rng.
Proof.
  induction n as [|n IH]; intros fuel h episodes length rng Hlists sts h' rng'; simpl.
  - intros [= <- <- _]. split; [done | constructor].
  - destruct (sample_window fuel h episodes length rng) as [[st rng1]| |] eqn:Hwin;
      [|done..].
    destruct (sample_episodes n fuel (s_store st) episodes length rng1)
      as [[[sts1 h1] rng2]| |] eqn:Hrest; [|done..].
    intros [= <- <- _].
    unfold sample_window in Hwin. destruct (mapM _ _) as [lens|]; [|done].
    apply sample_loop_lists in Hwin as [Hstore Hown]; [|done|by intros ret k w [=]].
    simpl in Hstore. rewrite Hstore in Hrest.
    destruct (IH _ _ _ _ _ Hlists _ _ _ Hrest) as [Hsame Hall].
    split; [done | by constructor].
Qed.
End sampler_lists_facts.

(** ** The return estimator *)

Section scan_facts.
Context {F : Type}.
Implicit Types (x y : list (list F)) (r : list F).

Lemma mapM_Ok {A B} (g : A → B) (l : list A) :
  mapM (λ a, Ok (g a)) l = Ok (g <$> l).
Proof. induction l as [|a l IH]; simpl; [done|]. by rewrite IH. Qed.

Lemma mapM_Ok_ext {A B} (f : A → result B) (g : A → B) (l : list A) :
  (∀ a, a ∈ l → f a = Ok (g a)) → mapM f l = Ok (g <$> l).
Proof.
  induction l as [|a l IH]; intros Hf; simpl; [done|].
  rewrite (Hf a) by left. simpl. rewrite IH; [done|].
  intros a' Ha'. apply Hf. by right.
Qed.

Lemma fmap_zip_with {A B C} (g : A → B → C) (l : list A) (k : list B) :
  (λ ab, g ab.1 ab.2) <$> zip l k = zip_with g l k.
Proof.
  revert k. induction l as [|a l IH]; intros [|b k]; simpl; [done..|].
  by rewrite IH.
Qed.

Lemma row_op_same (f : F → F → F) r1 r2 :
  length r1 = length r2 → row_op f r1 r2 = Ok (zip_with f r1 r2).
Proof.
  intros Hlen. unfold row_op, bcast. rewrite decide_True by done.
  by rewrite (mapM_Ok (λ ab, f ab.1 ab.2)), fmap_zip_with.
Qed.

Lemma tensor_op_same (f : F → F → F) x y B :
  length x = length y →
  Forall (λ row, length row = B) x → Forall (λ row, length row = B) y →
  tensor_op f x y = Ok (zip_with (zip_with f) x y).
Proof.
  intros Hlen Hx Hy. unfold tensor_op, bcast. rewrite decide_True by done.
  rewrite (mapM_Ok_ext _ (λ ab, zip_with f ab.1 ab.2)).
  - by rewrite fmap_zip_with.
  - intros [r1 r2] Hin. simpl. apply row_op_same.
    rewrite Forall_forall in Hx, Hy.
    rewrite (Hx r1), (Hy r2); [done | |].
    + by eapply elem_of_zip_r.
    + by eapply elem_of_zip_l.
Qed.

Lemma blend_same (add mul : F → F → F) lambda_ agg cur0 cur1 B :
  length agg = B → length cur0 = B → length cur1 = B →
  blend add mul lambda_ agg cur0 cur1 = Ok (blend_rows add mul lambda_ agg cur0 cur1) ∧
  length (blend_rows add mul lambda_ agg cur0 cur1) = B.
Proof.
  intros Ha H0 H1. unfold blend, blend_rows.
  rewrite row_op_same by (rewrite length_fmap; congruence). simpl.
  rewrite row_op_same.
  - split; [done|]. rewrite !length_zip_with, length_fmap. lia.
  - rewrite length_zip_with, length_fmap. lia.
Qed.

Lemma scan_struct_raise (fn : list F → list F → list F → result (list F)) rows e :
  scan_struct fn rows (Raise e) = Raise e.
Proof.
  unfold scan_struct. induction rows as [|ab rows IH]; simpl; [done|].
  by rewrite IH.
Qed.

Lemma scan_loop_ext fn (x0 x1 y0 y1 : list (list F)) indices st :
  (∀ i, i ∈ indices → x0 !! i = y0 !! i ∧ x1 !! i = y1 !! i) →
  scan_loop fn (x0, x1) indices st = scan_loop fn (y0, y1) indices st.
Proof.
  revert st. induction indices as [|i indices IH]; intros st Hext; simpl; [done|].
  destruct (Hext i) as [H0 H1]; [left|].
  unfold scan_body. simpl. rewrite H0, H1.
  destruct (y0 !! i) as [a|]; simpl; [|done].
  destruct (y1 !! i) as [b|]; simpl; [|done].
  destruct (fn st.1 a b) as [last|]; simpl; [|done].
  destruct st as [l0 [o0|]]; simpl.
  - destruct (cat_last _ _) as [o|]; simpl; [|done].
    apply IH. intros j Hj. apply Hext. by right.
  - apply IH. intros j Hj. apply Hext. by right.
Qed.

(** The loop over the indices [T-1, ..., 0] is a right fold over the rows. *)
Lemma scan_loop_struct fn (x0 : list (list F)) : ∀ x1 st,
  length x0 = length x1 →
  scan_loop fn (x0, x1) (reverse (seq 0 (length x0))) st
  = scan_struct fn (zip x0 x1) (Ok st).
Proof.
  induction x0 as [|a x0 IH] using rev_ind; intros x1 st Hlen.
  - destruct x1; [done | discriminate].
  - destruct x1 as [|b x1 _] using rev_ind.
    { rewrite length_app in Hlen. simpl in Hlen. lia. }
    rewrite !length_app in Hlen. simpl in Hlen.
    assert (length x0 = length x1) as Hlen' by lia.
    rewrite length_app. simpl. rewrite Nat.add_1_r, seq_S, reverse_app. simpl.
    rewrite zip_with_app by done. simpl.
    unfold scan_struct. rewrite foldr_app. simpl.
    unfold scan_body. simpl.
    rewrite !lookup_app_r by lia. rewrite Hlen', !Nat.sub_diag. simpl.
    rewrite <- Hlen'.
    assert (∀ st', scan_loop fn (x0 ++ [a], x1 ++ [b]) (reverse (seq 0 (length x0))) st'
                   = scan_struct fn (zip x0 x1) (Ok st')) as Hrest.
    { intros st'. rewrite <- IH by done. apply scan_loop_ext.
      intros i Hi. apply elem_of_reverse, elem_of_seq in Hi.
      rewrite !lookup_app_l by lia. done. }
    destruct (fn st.1 a b) as [last|]; simpl;
      [|symmetry; apply (scan_struct_raise fn)].
    destruct st as [l0 [o0|]]; simpl.
    + destruct (cat_last _ _) as [o|]; simpl;
        [|symmetry; apply (scan_struct_raise fn)].
      apply Hrest.
    + apply Hrest.
Qed.
End scan_facts.

Section scan_rows_facts.
Context {F : Type}.
Implicit Types (x y : list (list F)) (r start : list F).

Lemma scan_rows_shape (g : list F → list F → list F → list F) B x0 : ∀ x1 start,
  (∀ agg a b, length agg = B → length a = B → length b = B →
              length (g agg a b) = B) →
  Forall (λ row, length row = B) x0 → Forall (λ row, length row = B) x1 →
  length x0 = length x1 → length start = B →
  has_shape (length x0) B (scan_rows g x0 x1 start) ∧
  length (hd start (scan_rows g x0 x1 start)) = B.
Proof.
  induction x0 as [|a x0 IH]; intros [|b x1] start Hg H0 H1 Hlen Hstart; simpl in *;
    try discriminate.
  - split; [by split | done].
  - apply Forall_cons in H0 as [Ha H0]. apply Forall_cons in H1 as [Hb H1].
    destruct (IH x1 start Hg H0 H1 ltac:(lia) Hstart) as [[Hl Hrows] Hhd].
    assert (length (g (hd start (scan_rows g x0 x1 start)) a b) = B) as Hnew
      by by apply Hg.
    split; [|done]. split; [simpl; by rewrite Hl|]. by constructor.
Qed.

Lemma column_cons b r x v :
  r !! b = Some v → column b (r :: x) = v :: column b x.
Proof. intros Hv. unfold column. simpl. by rewrite Hv. Qed.

Lemma column_length b B x :
  Forall (λ row, length row = B) x → (b < B)%nat → length (column b x) = length x.
Proof.
  intros Hx Hb. induction Hx as [|r x Hr Hx IH]; [done|].
  destruct (lookup_lt_is_Some_2 r b) as [v Hv]; [lia|].
  rewrite (column_cons b r x v Hv). simpl. by rewrite IH.
Qed.

(** After the rows [t, ..., T-1] the loop holds [R[t]] in [last] and, for
    every entry [b] of the batch, [R[T-1][b], ..., R[t][b]] in [outputs]. *)
Lemma scan_struct_rows (fn : list F → list F → list F → result (list F))
    (g : list F → list F → list F → list F) B x0 : ∀ x1 start,
  (∀ agg a b, length agg = B → length a = B → length b = B →
              fn agg a b = Ok (g agg a b) ∧ length (g agg a b) = B) →
  Forall (λ row, length row = B) x0 → Forall (λ row, length row = B) x1 →
  length x0 = length x1 → length start = B →
  ∃ outs,
    scan_struct fn (zip x0 x1) (Ok (start, None))
      = Ok (hd start (scan_rows g x0 x1 start), outs) ∧
    match outs with
    | None => x0 = []
    | Some o =>
        x0 ≠ [] ∧ length o = B ∧
        ∀ b, (b < B)%nat →
             o !! b = Some (reverse (column b (scan_rows g x0 x1 start)))
    end.
Proof.
  induction x0 as [|a x0 IH]; intros [|b x1] start Hfn H0 H1 Hlen Hstart; simpl in *;
    try discriminate.
  - by exists None.
  - apply Forall_cons in H0 as [Ha H0]. apply Forall_cons in H1 as [Hb H1].
    destruct (IH x1 start Hfn H0 H1 ltac:(lia) Hstart) as (outs & Heq & Houts).
    destruct (scan_rows_shape g B x0 x1 start) as [_ Hhd];
      [intros; by apply Hfn | done | done | lia | done |].
    set (R := scan_rows g x0 x1 start) in *.
    destruct (Hfn (hd start R) a b Hhd Ha Hb) as [Hcall Hnew].
    set (new := g (hd start R) a b) in *.
    unfold scan_struct in *. rewrite Heq. simpl. rewrite Hcall. simpl.
    destruct outs as [o|].
    + destruct Houts as (_ & Ho & Hcols).
      unfold cat_last. rewrite decide_True by (by rewrite length_fmap, Hnew). simpl.
      eexists (Some _). split; [done|]. split_and!; [done | |].
      * rewrite length_zip_with, length_fmap. lia.
      * intros i Hi. rewrite lookup_zip_with, (Hcols i Hi), list_lookup_fmap. simpl.
        destruct (lookup_lt_is_Some_2 new i) as [v Hv]; [lia|].
        rewrite Hv. simpl. by rewrite reverse_cons.
    + subst x0. destruct x1; [|discriminate]. simpl in *.
      eexists (Some _). split; [done|]. split_and!; [done | by rewrite length_fmap |].
      intros i Hi. rewrite list_lookup_fmap.
      destruct (lookup_lt_is_Some_2 new i) as [v Hv]; [lia|].
      by rewrite Hv.
Qed.

(** [static_scan_for_lambda_return] returns, for every entry of the batch,
    the column of the reverse scan in forward order. *)
Lemma static_scan_columns (fn : list F → list F → list F → result (list F))
    (g : list F → list F → list F → list F) T B x0 x1 start :
  (∀ agg a b, length agg = B → length a = B → length b = B →
              fn agg a b = Ok (g agg a b) ∧ length (g agg a b) = B) →
  (1 ≤ T)%nat → has_shape T B x0 → has_shape T B x1 → length start = B →
  ∃ out,
    static_scan_for_lambda_return fn (x0, x1) start = Ok out ∧
    length out = B ∧
    ∀ b, (b < B)%nat → out !! b = Some (column b (scan_rows g x0 x1 start)).
Proof.
  intros Hfn HT [Hl0 H0] [Hl1 H1] Hstart.
  destruct (scan_struct_rows fn g B x0 x1 start Hfn H0 H1 ltac:(lia) Hstart)
    as (outs & Heq & Houts).
  unfold static_scan_for_lambda_return. simpl.
  rewrite scan_loop_struct by lia. rewrite Heq. simpl.
  destruct outs as [o|].
  - destruct Houts as (_ & Ho & Hcols). simpl. eexists. split; [done|].
    split; [by rewrite length_fmap|].
    intros b Hb. rewrite list_lookup_fmap, (Hcols b Hb). simpl.
    by rewrite reverse_involutive.
  - subst x0. simpl in Hl0. lia.
Qed.
End scan_rows_facts.

Section lambda_return_facts.
Context {F : Type} (zero one : F) (add mul sub : F → F → F) (opp : F → F).
Context (Fth : ring_theory zero one add mul sub opp eq).
Add Ring Fring : Fth.

Implicit Types (reward value discount : list (list F)) (r d n agg bootstrap : list F).

Local Abbreviation inputs_of lambda_ reward discount next_values :=
  (zip_with (zip_with add) reward
     ((λ row : list F, (λ x : F, mul x (sub one lambda_)) <$> row) <$>
        zip_with (zip_with mul) discount next_values)).

(** With [lambda_ = 1] a step of the scan is a step of the Monte-Carlo
    return. *)
Lemma blend_rows_one r d n agg B :
  length r = B → length d = B → length n = B → length agg = B →
  blend_rows add mul one agg
    (zip_with add r ((λ x, mul x (sub one one)) <$> zip_with mul d n)) d
  = zip_with add r (zip_with mul d agg).
Proof.
  intros Hr Hd Hn Ha. unfold blend_rows. apply list_eq. intros i.
  rewrite !lookup_zip_with, !list_lookup_fmap, !lookup_zip_with.
  destruct (decide (i < B)%nat) as [Hi|Hi].
  - destruct (lookup_lt_is_Some_2 r i) as [ri ->]; [lia|].
    destruct (lookup_lt_is_Some_2 d i) as [di ->]; [lia|].
    destruct (lookup_lt_is_Some_2 n i) as [ni ->]; [lia|].
    destruct (lookup_lt_is_Some_2 agg i) as [ai ->]; [lia|].
    simpl. f_equal. ring.
  - by rewrite (lookup_ge_None_2 r i) by lia.
Qed.

(** With [lambda_ = 0] a step of the scan returns the one-step target. *)
Lemma blend_rows_zero r d n agg B :
  length r = B → length d = B → length n = B → length agg = B →
  blend_rows add mul zero agg
    (zip_with add r ((λ x, mul x (sub one zero)) <$> zip_with mul d n)) d
  = zip_with add r (zip_with mul d n).
Proof.
  intros Hr Hd Hn Ha. unfold blend_rows. apply list_eq. intros i.
  rewrite !lookup_zip_with, !list_lookup_fmap, !lookup_zip_with.
  destruct (decide (i < B)%nat) as [Hi|Hi].
  - destruct (lookup_lt_is_Some_2 r i) as [ri ->]; [lia|].
    destruct (lookup_lt_is_Some_2 d i) as [di ->]; [lia|].
    destruct (lookup_lt_is_Some_2 n i) as [ni ->]; [lia|].
    destruct (lookup_lt_is_Some_2 agg i) as [ai ->]; [lia|].
    simpl. f_equal. ring.
  - by rewrite (lookup_ge_None_2 r i) by lia.
Qed.

Lemma monte_carlo_shape B reward : ∀ discount bootstrap,
  Forall (λ row, length row = B) reward → Forall (λ row, length row = B) discount →
  length reward = length discount → length bootstrap = B →
  has_shape (length reward) B (monte_carlo add mul reward discount bootstrap) ∧
  length (hd bootstrap (monte_carlo add mul reward discount bootstrap)) = B.
Proof.
  induction reward as [|r reward IH]; intros [|d discount] bootstrap Hr Hd Hlen Hb;
    simpl in *; try discriminate.
  - split; [by split | done].
  - apply Forall_cons in Hr as [Hr0 Hr]. apply Forall_cons in Hd as [Hd0 Hd].
    destruct (IH discount bootstrap Hr Hd ltac:(lia) Hb) as [[Hl Hrows] Hhd].
    assert (length (zip_with add r
                      (zip_with mul d
                         (hd bootstrap (monte_carlo add mul reward discount bootstrap))))
            = B) as Hnew by (rewrite !length_zip_with; lia).
    split; [|done]. split; [simpl; by rewrite Hl|]. by constructor.
Qed.

Lemma scan_rows_monte_carlo B reward : ∀ discount next_values bootstrap,
  Forall (λ row, length row = B) reward → Forall (λ row, length row = B) discount →
  Forall (λ row, length row = B) next_values →
  length reward = length discount → length reward = length next_values →
  length bootstrap = B →
  scan_rows (blend_rows add mul one) (inputs_of one reward discount next_values)
    discount bootstrap
  = monte_carlo add mul reward discount bootstrap.
Proof.
  induction reward as [|r reward IH];
    intros [|d discount] [|n next_values] bootstrap Hr Hd Hn Hl1 Hl2 Hb;
    simpl in *; try discriminate; [done|].
  apply Forall_cons in Hr as [Hr0 Hr]. apply Forall_cons in Hd as [Hd0 Hd].
  apply Forall_cons in Hn as [Hn0 Hn].
  pose proof (IH discount next_values bootstrap Hr Hd Hn ltac:(lia) ltac:(lia) Hb)
    as HIH.
  f_equal; [|exact HIH].
  etrans; [|apply (blend_rows_one r d n _ B); [done..|]].
  - f_equal. f_equal. exact HIH.
  - by apply monte_carlo_shape; [| | lia |].
Qed.

Lemma scan_rows_one_step B reward : ∀ discount next_values bootstrap,
  Forall (λ row, length row = B) reward → Forall (λ row, length row = B) discount →
  Forall (λ row, length row = B) next_values →
  length reward = length discount → length reward = length next_values →
  length bootstrap = B →
  scan_rows (blend_rows add mul zero) (inputs_of zero reward discount next_values)
    discount bootstrap
  = zip_with (zip_with add) reward (zip_with (zip_with mul) discount next_values) ∧
  length (hd bootstrap
            (zip_with (zip_with add) reward
               (zip_with (zip_with mul) discount next_values))) = B.
Proof.
  induction reward as [|r reward IH];
    intros [|d discount] [|n next_values] bootstrap Hr Hd Hn Hl1 Hl2 Hb;
    simpl in *; try discriminate; [done|].
  apply Forall_cons in Hr as [Hr0 Hr]. apply Forall_cons in Hd as [Hd0 Hd].
  apply Forall_cons in Hn as [Hn0 Hn].
  destruct (IH discount next_values bootstrap Hr Hd Hn ltac:(lia) ltac:(lia) Hb)
    as [HIH Hhd].
  split; [|rewrite !length_zip_with; lia].
  f_equal; [|exact HIH].
  apply (blend_rows_zero r d n _ B); [done..|].
  etrans; [|exact Hhd]. f_equal. f_equal. exact HIH.
Qed.
End lambda_return_facts.

Section lambda_return_theorems.
Context {F : Type} (zero one : F) (add mul sub : F → F → F) (opp : F → F).
Implicit Types (reward value discount : list (list F)) (bootstrap : list F).

Lemma forallb_row_lengths B (x : list (list F)) bootstrap :
  Forall (λ row, length row = B) x → length bootstrap = B →
  forallb (λ row : list F, bool_decide (length row = length bootstrap)) x = true.
Proof.
  intros Hx Hb. induction Hx as [|row x Hrow Hx IH]; simpl; [done|].
  rewrite IH. rewrite bool_decide_eq_true_2 by congruence. done.
Qed.

(** With equal shapes [lambda_return] is the scan of its inputs. *)
Lemma lambda_return_scan T B reward value discount bootstrap lambda_ :
  (1 ≤ T)%nat →
  has_shape T B reward → has_shape T B value → has_shape T B discount →
  length bootstrap = B →
  lambda_return zero one add mul sub reward value (PTensor discount) (Some bootstrap) lambda_ 0
  = static_scan_for_lambda_return (blend add mul lambda_)
      (zip_with (zip_with add) reward
         ((λ row : list F, (λ x : F, mul x (sub one lambda_)) <$> row) <$>
            zip_with (zip_with mul) discount (drop 1 value ++ [bootstrap])),
       discount) bootstrap ∧
  has_shape T B (drop 1 value ++ [bootstrap]).
Proof.
  intros HT [Hlr Hr] [Hlv Hv] [Hld Hd] Hb.
  assert (has_shape T B (drop 1 value ++ [bootstrap])) as [Hln Hn].
  { split.
    - rewrite length_app, length_drop. simpl. lia.
    - apply Forall_app. split; [by apply Forall_drop | by constructor]. }
  split; [|by split].
  unfold lambda_return, assert_same_rank. simpl.
  rewrite (forallb_row_lengths B) by (by apply Forall_drop || done). simpl.
  rewrite (tensor_op_same mul discount _ B) by (done || lia). simpl.
  rewrite (tensor_op_same add reward _ B).
  - done.
  - rewrite length_fmap, length_zip_with. lia.
  - done.
  - apply Forall_fmap, Forall_forall. intros row Hrow. simpl.
    rewrite length_fmap.
    apply elem_of_lookup_zip_with in Hrow as (i & d & n & -> & Hdi & Hni).
    rewrite Forall_forall in Hd, Hn. rewrite length_zip_with.
    rewrite (Hd d), (Hn n) by (by eapply list_elem_of_lookup_2). lia.
Qed.

Context (Fth : ring_theory zero one add mul sub opp eq).

(** C4: for equally shaped reward, value and discount sequences of at least
    one step and a bootstrap value, [lambda_return] with [lambda = 1] returns,
    for every entry of the batch, the discounted Monte-Carlo return
    [R[t] = reward[t] + discount[t] * R[t+1]] that ends in the bootstrap, and
    with [lambda = 0] the one-step target
    [reward[t] + discount[t] * next_value[t]], in forward order. *)
Theorem lambda_return_extremes T B reward value discount bootstrap :
  (1 ≤ T)%nat →
  has_shape T B reward → has_shape T B value → has_shape T B discount →
  length bootstrap = B →
  (∃ out,
     lambda_return zero one add mul sub reward value (PTensor discount) (Some bootstrap) one 0 = Ok out ∧
     length out = B ∧
     ∀ b, (b < B)%nat →
       out !! b = Some (column b (monte_carlo add mul reward discount bootstrap)) ∧
       length (column b (monte_carlo add mul reward discount bootstrap)) = T) ∧
  (∃ out,
     lambda_return zero one add mul sub reward value (PTensor discount) (Some bootstrap) zero 0 = Ok out ∧
     length out = B ∧
     ∀ b, (b < B)%nat →
       out !! b = Some (column b (one_step add mul reward value discount bootstrap)) ∧
       length (column b (one_step add mul reward value discount bootstrap)) = T).
Proof.
  intros HT Hreward Hvalue Hdiscount Hb.
  assert (∀ lambda_,
    has_shape T B
      (zip_with (zip_with add) reward
         ((λ row : list F, (λ x : F, mul x (sub one lambda_)) <$> row) <$>
            zip_with (zip_with mul) discount (drop 1 value ++ [bootstrap]))))
    as Hinputs.
  { intros lambda_.
    destruct (lambda_return_scan T B reward value discount bootstrap lambda_)
      as [_ [Hln Hn]]; [done..|].
    destruct Hreward as [Hlr Hr], Hdiscount as [Hld Hd]. split.
    - rewrite length_zip_with, length_fmap, length_zip_with. lia.
    - apply Forall_forall. intros row Hrow.
      apply elem_of_lookup_zip_with in Hrow as (i & r & t & -> & Hri & Hti).
      rewrite list_lookup_fmap in Hti.
      destruct (zip_with (zip_with mul) discount (drop 1 value ++ [bootstrap]) !! i)
        as [t0|] eqn:Ht0; [|done].
      injection Hti as <-.
      apply lookup_zip_with_Some in Ht0 as (d & n & -> & Hdi & Hni).
      rewrite Forall_forall in Hr, Hd, Hn.
      rewrite length_zip_with, length_fmap, length_zip_with.
      rewrite (Hr r), (Hd d), (Hn n) by (by eapply list_elem_of_lookup_2). lia. }
  destruct (lambda_return_scan T B reward value discount bootstrap one)
    as [Hone Hnext]; [done..|].
  destruct (lambda_return_scan T B reward value discount bootstrap zero)
    as [Hzero _]; [done..|].
  destruct Hreward as [Hlr Hr], Hvalue as [Hlv Hv], Hdiscount as [Hld Hd],
    Hnext as [Hln Hn].
  split.
  - destruct (static_scan_columns (blend add mul one) (blend_rows add mul one) T B
                _ discount bootstrap (λ agg a b, blend_same add mul one agg a b B)
                HT (Hinputs one) (conj Hld Hd) Hb) as (out & Hout & Hlen & Hcols).
    exists out. rewrite Hone. split_and!; [done..|].
    intros b Hlt.
    rewrite (scan_rows_monte_carlo zero one add mul sub opp Fth B) in Hcols
      by (done || lia).
    split; [by apply Hcols|].
    destruct (monte_carlo_shape add mul B reward discount bootstrap)
      as [[Hlm Hm] _]; [done | done | lia | done |].
    rewrite (column_length b B) by done. lia.
  - destruct (static_scan_columns (blend add mul zero) (blend_rows add mul zero) T B
                _ discount bootstrap (λ agg a b, blend_same add mul zero agg a b B)
                HT (Hinputs zero) (conj Hld Hd) Hb) as (out & Hout & Hlen & Hcols).
    exists out. rewrite Hzero. split_and!; [done..|].
    intros b Hlt.
    destruct (scan_rows_one_step zero one add mul sub opp Fth B reward discount
                (drop 1 value ++ [bootstrap]) bootstrap) as [Hrows _];
      [done | done | done | lia | lia | done |].
    rewrite Hrows in Hcols. split; [by apply Hcols|].
    unfold one_step. rewrite (column_length b B); [| |done].
    + rewrite !length_zip_with. lia.
    + destruct (Hinputs zero) as [_ Hin]. rewrite <- Hrows.
      apply (scan_rows_shape (blend_rows add mul zero) B); [| | done | | done].
      * intros agg a c Ha H1 H2. by apply blend_same.
      * by destruct (Hinputs zero).
      * destruct (Hinputs zero) as [-> _]. lia.
Qed.

End lambda_return_theorems.

Section lambda_return_examples.
Import Fixture.

Example lambda_return_one_2x2 :
  lambda_return 0%Z 1%Z Z.add Z.mul Z.sub reward_2x2 value_2x2
    (PTensor discount_2x2) (Some bootstrap_2) 1%Z 0
  = Ok [[14; 13]; [6; 4]]%Z.
Proof. by vm_compute. Qed.

Example lambda_return_zero_2x2 :
  lambda_return 0%Z 1%Z Z.add Z.mul Z.sub reward_2x2 value_2x2
    (PTensor discount_2x2) (Some bootstrap_2) 0%Z 0
  = Ok [[8; 13]; [10; 4]]%Z.
Proof. by vm_compute. Qed.

Lemma shape_2x2 (x : list (list Z)) :
  x ∈ [reward_2x2; value_2x2; discount_2x2] → has_shape 2 2 x.
Proof.
  intros Hx. repeat (apply elem_of_cons in Hx as [-> | Hx];
                     [split; [done | by repeat constructor]|]).
  by apply elem_of_nil in Hx.
Qed.

Lemma lambda_return_extremes_witness :
  (∃ out,
     lambda_return 0%Z 1%Z Z.add Z.mul Z.sub reward_2x2 value_2x2
       (PTensor discount_2x2) (Some bootstrap_2) 1%Z 0 = Ok out ∧
     out !! 0%nat = Some (column 0 (monte_carlo Z.add Z.mul reward_2x2 discount_2x2
                                      bootstrap_2)) ∧
     out !! 1%nat = Some (column 1 (monte_carlo Z.add Z.mul reward_2x2 discount_2x2
                                      bootstrap_2))) ∧
  (∃ out,
     lambda_return 0%Z 1%Z Z.add Z.mul Z.sub reward_2x2 value_2x2
       (PTensor discount_2x2) (Some bootstrap_2) 0%Z 0 = Ok out ∧
     out !! 0%nat = Some (column 0 (one_step Z.add Z.mul reward_2x2 value_2x2
                                      discount_2x2 bootstrap_2)) ∧
     out !! 1%nat = Some (column 1 (one_step Z.add Z.mul reward_2x2 value_2x2
                                      discount_2x2 bootstrap_2))).
Proof.
  destruct (lambda_return_extremes 0%Z 1%Z Z.add Z.mul Z.sub Z.opp InitialRing.Zth
              2 2 reward_2x2 value_2x2 discount_2x2 bootstrap_2)
    as [(out1 & Hrun1 & _ & Hcol1) (out0 & Hrun0 & _ & Hcol0)].
  - lia.
  - apply shape_2x2. set_solver.
  - apply shape_2x2. set_solver.
  - apply shape_2x2. set_solver.
  - reflexivity.
  - split.
    + exists out1. split_and!; [done | apply Hcol1; lia | apply Hcol1; lia].
    + exists out0. split_and!; [done | apply Hcol0; lia | apply Hcol0; lia].
Defined.


End lambda_return_examples.

(** ** The simulation driver *)

Section curriculum_facts.
Implicit Types (limits : env_limits) (c : curriculum) (ctl : controller).

Lemma Zpymin_min (a b : Z) : Zpymin a b = Z.min a b.
Proof. unfold Zpymin. case_decide; lia. Qed.

Lemma Qpymin_min (a b : Q) : (Qpymin a b == Qmin a b)%Q.
Proof.
  unfold Qpymin. destruct (Qlt_le_dec b a) as [Hlt | Hle].
  - symmetry. apply Q.min_r. by apply Qlt_le_weak.
  - symmetry. by apply Q.min_l.
Qed.

Lemma Qltb_lt (a b : Q) : Qltb a b = true ↔ (a < b)%Q.
Proof.
  unfold Qltb. destruct (Qlt_le_dec a b) as [Hlt | Hle]; split; try done.
  intros Hlt. exfalso. by apply (Qle_not_lt b a).
Qed.

(** The update of one slot whose parameters are within their limits. *)
Lemma increase_difficulty_ratchets limits counter nel c :
  within_limits limits c →
  ∃ c', increase_difficulty limits counter nel c = Ok (c', Some (episode_length c')) ∧
        ratcheted limits counter c c'.
Proof.
  intros (Hmap & Hobs & Hdist & Hlen). unfold increase_difficulty.
  rewrite (decide_True (P := (episode_length c < max_length limits)%Z)) by done.
  eexists (Curriculum _ _ _ _ _ _). split; [reflexivity|].
  unfold ratcheted.
  cbn [size_of_map random_starting_orientation num_obstacles
       min_dist_between_objs episode_length reward_first_time].
  split_and!.
  - case_decide; rewrite ?Zpymin_min; [done|].
    unfold num_obstacles_increase. lia.
  - destruct (Qlt_le_dec _ _) as [Hlt | Hle]; [apply Qpymin_min|].
    assert (min_dist_between_objs c == distance_between_objects_limit limits)%Q
      as Heq by (by apply Qle_antisym).
    rewrite Q.min_r; [done|]. rewrite <- Heq at 1.
    rewrite <- (Qplus_0_r (min_dist_between_objs c)) at 1.
    by apply Qplus_le_r.
  - exact (Zpymin_min _ _).
  - cbv zeta. assert ((if decide (size_of_map c < map_limit limits)%Z
             then Zpymin (size_of_map c + map_size_increase) (map_limit limits)
             else size_of_map c)
            = Z.min (size_of_map c + map_size_increase) (map_limit limits)) as ->.
    { case_decide; rewrite ?Zpymin_min; [done|]. unfold map_size_increase. lia. }
    by rewrite !Zpymin_min.
  - destruct (random_starting_orientation c); simpl.
    + by case_decide.
    + case_decide as H20.
      * symmetry. apply bool_decide_eq_true_2. lia.
      * symmetry. apply bool_decide_eq_false_2. lia.
  - destruct (reward_first_time c); simpl.
    + case_decide as H20.
      * symmetry. rewrite bool_decide_eq_true_2 by lia. done.
      * symmetry. rewrite bool_decide_eq_false_2 by lia. done.
    + by case_decide.
Qed.

Lemma increase_all_ratchets envs : ∀ counter nel cs,
  Forall2 within_limits envs cs →
  ∃ cs' nel', increase_all envs counter nel cs = Ok (cs', nel') ∧
    length cs' = length cs ∧
    ∀ i limits c, envs !! i = Some limits → cs !! i = Some c →
      ∃ c', cs' !! i = Some c' ∧ ratcheted limits counter c c'.
Proof.
  induction envs as [|limits envs IH]; intros counter nel cs Hall.
  - apply Forall2_nil_inv_l in Hall as ->. exists [], nel. split_and!; [done..|].
    by intros i limits c [=].
  - apply Forall2_cons_inv_l in Hall as (c & cs' & Hc & Hall & ->). simpl.
    destruct (increase_difficulty_ratchets limits counter nel c Hc) as (c' & Heq & Hr).
    rewrite Heq. simpl.
    destruct (IH counter (Some (episode_length c')) cs' Hall)
      as (cs'' & nel' & Heq' & Hlen & Hcs).
    rewrite Heq'. simpl. exists (c' :: cs''), nel'.
    split_and!; [done | simpl; by rewrite Hlen |].
    intros [|i] limits0 c0; simpl.
    + intros [= <-] [= <-]. by exists c'.
    + apply Hcs.
Qed.

(** C8, as amended: in one pass of the loop of [simulate_multi] the
    difficulty update fires exactly when the counter of completed episodes,
    this pass's included, has reached 5 and the average computed earlier in
    the pass exceeds 6, that average being the accumulated reward, this
    pass's included, divided by the counter as it was before this pass's
    episodes were added (and 0 when that counter is 0).  Without an update
    the pass only accumulates.  An update on slots whose parameters are
    within their limits, the episode length below its cap, advances the
    obstacle count, the minimum distance and the episode length by their
    fixed increments clamped to their limits, and the map size by its
    increment of 2, clamped, and by a further 3, clamped, when the
    feasibility check passes; afterwards the reward accumulator and the
    episode counter are zero. *)
Theorem curriculum_tick_fires_and_ratchets envs reward done ctl :
  (¬ ((min_episodes_threshold ≤ tick_counter ctl done)%Z ∧
      (reward_threshold < tick_average ctl reward)%Q) →
   curriculum_tick envs reward done ctl
   = Ok (Controller (tick_total ctl reward) (tick_counter ctl done)
           (new_episode_length ctl) (curricula ctl), false)) ∧
  ((min_episodes_threshold ≤ tick_counter ctl done)%Z ∧
   (reward_threshold < tick_average ctl reward)%Q →
   Forall2 within_limits envs (curricula ctl) →
   ∃ ctl',
     curriculum_tick envs reward done ctl = Ok (ctl', true) ∧
     total_reward ctl' = 0%Q ∧ episode_counter ctl' = 0%Z ∧
     length (curricula ctl') = length (curricula ctl) ∧
     ∀ i limits c, envs !! i = Some limits → curricula ctl !! i = Some c →
       ∃ c', curricula ctl' !! i = Some c' ∧
             ratcheted limits (tick_counter ctl done) c c').
Proof.
  unfold curriculum_tick.
  change (total_reward ctl + pysum reward)%Q with (tick_total ctl reward).
  change (average_of (tick_total ctl reward) (episode_counter ctl))
    with (tick_average ctl reward).
  change (episode_counter ctl + Z.of_nat (length (filter (λ d, d = true) done)))%Z
    with (tick_counter ctl done).
  split.
  - intros Hno.
    destruct (bool_decide _ && Qltb _ _) eqn:Hfire; [|done].
    exfalso. apply Hno. apply andb_true_iff in Hfire as [H1 H2].
    apply bool_decide_eq_true in H1. apply Qltb_lt in H2. split; [lia | done].
  - intros [H1 H2] Hlim.
    rewrite bool_decide_eq_true_2 by lia.
    rewrite (proj2 (Qltb_lt _ _) H2). simpl.
    destruct (increase_all_ratchets envs (tick_counter ctl done)
                (new_episode_length ctl) (curricula ctl) Hlim)
      as (cs' & nel' & Heq & Hlen & Hcs).
    rewrite Heq. simpl. eexists. split; [done|]. simpl. split_and!; done.
Qed.
End curriculum_facts.

Section driver_examples.
Import Fixture.

Example curriculum_tick_after_four :
  curriculum_tick [roomy] [28%Q] [true] after_four
  = Ok (Controller 0 0 (Some 175%Z) [Curriculum 15 false 3 (3 # 2) 175 true], true).
Proof. by vm_compute. Qed.

(** C8 fails as stated.  With four episodes counted and a pass that brings
    the accumulated reward to 28 and ends a fifth episode, the update fires,
    though 28 / 5 does not exceed 6: the average was taken over the four
    episodes counted before the pass.  And the update takes the map from 10
    to 15, not to 12: the feasibility check passes and adds 3. *)
Lemma curriculum_tick_not_as_claimed :
  ¬ fires_when_claimed [roomy] [28%Q] [true] after_four ∧
  ¬ increments_as_claimed [roomy] [28%Q] [true] after_four.
Proof.
  split.
  - intros Hclaim.
    destruct (Hclaim _ _ curriculum_tick_after_four) as [Hfire _].
    destruct (Hfire eq_refl) as [_ Hlt].
    vm_compute in Hlt. discriminate.
  - intros Hclaim.
    destruct (Hclaim _ 0%nat roomy easy (Curriculum 15 false 3 (3 # 2) 175 true)
                curriculum_tick_after_four eq_refl eq_refl eq_refl) as (Hmap & _).
    vm_compute in Hmap. discriminate.
Qed.

Lemma curriculum_tick_fires_and_ratchets_witness :
  curriculum_tick [roomy] [1%Q] [false] after_four
  = Ok (Controller (tick_total after_four [1%Q]) (tick_counter after_four [false])
          (new_episode_length after_four) (curricula after_four), false) ∧
  ∃ ctl' c',
    curriculum_tick [roomy] [28%Q] [true] after_four = Ok (ctl', true) ∧
    total_reward ctl' = 0%Q ∧ episode_counter ctl' = 0%Z ∧
    curricula ctl' !! 0%nat = Some c' ∧
    ratcheted roomy (tick_counter after_four [true]) easy c'.
Proof.
  split.
  - apply (curriculum_tick_fires_and_ratchets [roomy] [1%Q] [false] after_four).
    intros [Hcount _]. vm_compute in Hcount. by apply Hcount.
  - destruct (curriculum_tick_fires_and_ratchets [roomy] [28%Q] [true] after_four)
      as [_ Hfire].
    destruct Hfire as (ctl' & Hrun & Htotal & Hcounter & _ & Hslots).
    + split; by vm_compute.
    + repeat constructor; by vm_compute.
    + destruct (Hslots 0%nat roomy easy eq_refl eq_refl) as (c' & Hc' & Hratchet).
      by exists ctl', c'.
Defined.

Example simulate_multi_first_pass :
  ∃ cache held,
    simulate_multi (A := unit) [roomy; roomy] [easy; easy] [] false None 2 0 None
      [first_pass]
    = Done (SimState 0 1 [true; false] (LInt 1)
              [Some [("image", TInt 1)]; Some [("image", TInt 1)]] (Some tt)
              [1%Q; 0%Q], cache, held).
Proof. eexists _, _. by vm_compute. Qed.

Example simulate_multi_second_pass :
  ∃ cache held,
    simulate_multi (A := unit) [roomy; roomy] [easy; easy] [] false None 4 0 None
      [first_pass; second_pass]
    = Done (SimState 0 1 [false; false] (LIntArray [2; 2]%Z)
              [Some [("image", TInt 1)]; Some [("image", TInt 2)]] (Some tt)
              [0%Q; 0%Q], cache, held).
Proof. eexists _, _. by vm_compute. Qed.

(** C7 fails on the code.  Two slots; in the first pass slot 0 ends its
    episode: the bookkeeping of the ended episode assigns the local [length]
    the length of that episode, so the state returned holds the number 1
    where the lengths in flight are [0, 1].  One pass later the number has
    become an array again, [2, 2], where the lengths in flight are
    [1, 2]. *)
Theorem simulate_multi_overwrites_length :
  ¬ returns_slot_lengths (A := unit) [roomy; roomy] [easy; easy] [] None 2
      [first_pass] ∧
  ¬ returns_slot_lengths (A := unit) [roomy; roomy] [easy; easy] [] None 4
      [first_pass; second_pass] ∧
  in_flight_after (replicate 2 0%Z) [first_pass] = [0; 1]%Z ∧
  in_flight_after (replicate 2 0%Z) [first_pass; second_pass] = [1; 2]%Z.
Proof.
  split_and!; [| | done..].
  - intros Hclaim. destruct simulate_multi_first_pass as (cache & held & Hrun).
    specialize (Hclaim _ _ _ Hrun). discriminate.
  - intros Hclaim. destruct simulate_multi_second_pass as (cache & held & Hrun).
    specialize (Hclaim _ _ _ Hrun). vm_compute in Hclaim. discriminate.
Qed.
End driver_examples.

(** * Further properties of [tools.py] *)

(** ** Triggers *)

Section trigger_facts.




End trigger_facts.

Section trigger_theorems.


End trigger_theorems.

(** ** The return estimator for any [lambda] *)

Section td_lambda_facts.
Context {F : Type} (zero one : F) (add mul sub : F → F → F) (opp : F → F).
Context (Fth : ring_theory zero one add mul sub opp eq).
Add Ring Fring' : Fth.

Implicit Types (reward value discount : list (list F)) (r d n agg bootstrap : list F).

Local Abbreviation scan_inputs lambda_ reward discount next_values :=
  (zip_with (zip_with add) reward
     ((λ row : list F, (λ x : F, mul x (sub one lambda_)) <$> row) <$>
        zip_with (zip_with mul) discount next_values)).

(** A step of the scan is a step of the recursion. *)
Lemma blend_rows_td lambda_ r d n agg B :
  length r = B → length d = B → length n = B → length agg = B →
  blend_rows add mul lambda_ agg
    (zip_with add r ((λ x, mul x (sub one lambda_)) <$> zip_with mul d n)) d
  = zip_with add r
      (zip_with mul d
         (zip_with add ((λ x, mul (sub one lambda_) x) <$> n)
            ((λ g, mul lambda_ g) <$> agg))).
Proof.
  intros Hr Hd Hn Ha. unfold blend_rows. apply list_eq. intros i.
  destruct (decide (i < B)%nat) as [Hi|Hi].
  - destruct (lookup_lt_is_Some_2 r i) as [ri Hri]; [lia|].
    destruct (lookup_lt_is_Some_2 d i) as [di Hdi]; [lia|].
    destruct (lookup_lt_is_Some_2 n i) as [ni Hni]; [lia|].
    destruct (lookup_lt_is_Some_2 agg i) as [ai Hai]; [lia|].
    repeat (rewrite ?lookup_zip_with, ?list_lookup_fmap, ?Hri, ?Hdi, ?Hni, ?Hai;
            simpl).
    f_equal. ring.
  - rewrite !lookup_zip_with. by rewrite (lookup_ge_None_2 r i) by lia.
Qed.

Lemma scan_inputs_rows lambda_ B reward discount next_values :
  Forall (λ row, length row = B) reward → Forall (λ row, length row = B) discount →
  Forall (λ row, length row = B) next_values →
  Forall (λ row, length row = B) (scan_inputs lambda_ reward discount next_values).
Proof.
  intros Hr Hd Hn. apply Forall_forall. intros row Hrow.
  apply elem_of_lookup_zip_with in Hrow as (i & r & t & -> & Hri & Hti).
  rewrite list_lookup_fmap in Hti.
  destruct (zip_with (zip_with mul) discount next_values !! i) as [t0|] eqn:Ht0;
    [|done].
  injection Hti as <-.
  apply lookup_zip_with_Some in Ht0 as (d & n & -> & Hdi & Hni).
  rewrite Forall_forall in Hr, Hd, Hn.
  rewrite length_zip_with, length_fmap, length_zip_with.
  rewrite (Hr r), (Hd d), (Hn n) by (by eapply list_elem_of_lookup_2). lia.
Qed.

Lemma scan_rows_td lambda_ B reward : ∀ discount next_values bootstrap,
  Forall (λ row, length row = B) reward → Forall (λ row, length row = B) discount →
  Forall (λ row, length row = B) next_values →
  length reward = length discount → length reward = length next_values →
  length bootstrap = B →
  scan_rows (blend_rows add mul lambda_)
    (scan_inputs lambda_ reward discount next_values) discount bootstrap
  = td_lambda one add mul sub lambda_ reward discount next_values bootstrap.
Proof.
  induction reward as [|r reward IH];
    intros [|d discount] [|n next_values] bootstrap Hr Hd Hn Hl1 Hl2 Hb;
    simpl in *; try discriminate; [done|].
  apply Forall_cons in Hr as [Hr0 Hr]. apply Forall_cons in Hd as [Hd0 Hd].
  apply Forall_cons in Hn as [Hn0 Hn].
  pose proof (IH discount next_values bootstrap Hr Hd Hn ltac:(lia) ltac:(lia) Hb)
    as HIH.
  destruct (scan_rows_shape (blend_rows add mul lambda_) B
              (scan_inputs lambda_ reward discount next_values) discount bootstrap)
    as [_ Hhd].
  - intros agg a b Ha Hb0 Hb1. unfold blend_rows.
    rewrite !length_zip_with, length_fmap. lia.
  - by apply scan_inputs_rows.
  - done.
  - rewrite length_zip_with, length_fmap, length_zip_with. lia.
  - done.
  - f_equal; [|exact HIH].
    etrans; [apply (blend_rows_td lambda_ r d n _ B); done|].
    do 5 f_equal. exact HIH.
Qed.
End td_lambda_facts.

Section td_lambda_theorems.
Context {F : Type} (zero one : F) (add mul sub : F → F → F) (opp : F → F).
Context (Fth : ring_theory zero one add mul sub opp eq).

(** For equally shaped reward, value and discount sequences of at least one
    step, a bootstrap row and any [lambda], [lambda_return] returns for every
    entry of the batch the TD(lambda) return
    [R[t] = reward[t] + discount[t] * ((1 - lambda) * value[t+1] + lambda * R[t+1])],
    where [value] and [R] after the last step are the bootstrap, in forward
    order. *)
Theorem lambda_return_recursion T B reward value discount bootstrap lambda_ :
  (1 ≤ T)%nat →
  has_shape T B reward → has_shape T B value → has_shape T B discount →
  length bootstrap = B →
  ∃ out,
    lambda_return zero one add mul sub reward value (PTensor discount)
      (Some bootstrap) lambda_ 0 = Ok out ∧
    length out = B ∧
    ∀ b, (b < B)%nat →
      out !! b = Some (column b (td_lambda one add mul sub lambda_ reward discount
                                   (drop 1 value ++ [bootstrap]) bootstrap)) ∧
      length (column b (td_lambda one add mul sub lambda_ reward discount
                          (drop 1 value ++ [bootstrap]) bootstrap)) = T.
Proof.
  intros HT Hreward Hvalue Hdiscount Hb.
  destruct (lambda_return_scan zero one add mul sub T B reward value discount
              bootstrap lambda_) as [Hrun [Hln Hn]]; [done..|].
  destruct Hreward as [Hlr Hr], Hvalue as [Hlv Hv], Hdiscount as [Hld Hd].
  assert (has_shape T B
            (zip_with (zip_with add) reward
               ((λ row : list F, (λ x : F, mul x (sub one lambda_)) <$> row) <$>
                  zip_with (zip_with mul) discount (drop 1 value ++ [bootstrap]))))
    as Hinputs.
  { split.
    - rewrite length_zip_with, length_fmap, length_zip_with. lia.
    - by apply scan_inputs_rows. }
  destruct (static_scan_columns (blend add mul lambda_) (blend_rows add mul lambda_)
              T B _ discount bootstrap
              (λ agg a b, blend_same add mul lambda_ agg a b B)
              HT Hinputs (conj Hld Hd) Hb) as (out & Hout & Hlen & Hcols).
  exists out. rewrite Hrun. split_and!; [done..|].
  intros b Hlt.
  pose proof (scan_rows_td zero one add mul sub opp Fth lambda_ B reward discount
                (drop 1 value ++ [bootstrap]) bootstrap Hr Hd Hn
                ltac:(lia) ltac:(lia) Hb) as Hrows.
  rewrite <- Hrows. split; [by apply Hcols|].
  pose proof Hinputs as [Hli Hi].
  destruct (scan_rows_shape (blend_rows add mul lambda_) B _ discount bootstrap
              (λ agg a b0 Ha H0 H1,
                 proj2 (blend_same add mul lambda_ agg a b0 B Ha H0 H1))
              Hi Hd ltac:(lia) Hb) as [[Hl Hshape] _].
  rewrite (column_length b B) by done. lia.
Qed.
End td_lambda_theorems.

Section td_lambda_examples.
Import Fixture.

Lemma lambda_return_recursion_witness :
  ∃ out,
    lambda_return 0%Z 1%Z Z.add Z.mul Z.sub reward_2x2 value_2x2
      (PTensor discount_2x2) (Some bootstrap_2) 2%Z 0 = Ok out ∧
    out !! 0%nat
    = Some (column 0 (td_lambda 1%Z Z.add Z.mul Z.sub 2%Z reward_2x2 discount_2x2
                        (drop 1 value_2x2 ++ [bootstrap_2]) bootstrap_2)) ∧
    out !! 1%nat
    = Some (column 1 (td_lambda 1%Z Z.add Z.mul Z.sub 2%Z reward_2x2 discount_2x2
                        (drop 1 value_2x2 ++ [bootstrap_2]) bootstrap_2)).
Proof.
  destruct (lambda_return_recursion 0%Z 1%Z Z.add Z.mul Z.sub Z.opp InitialRing.Zth
              2 2 reward_2x2 value_2x2 discount_2x2 bootstrap_2 2%Z)
    as (out & Hrun & _ & Hcols).
  - lia.
  - apply shape_2x2. set_solver.
  - apply shape_2x2. set_solver.
  - apply shape_2x2. set_solver.
  - reflexivity.
  - exists out. split_and!; [done | apply Hcols; lia | apply Hcols; lia].
Defined.
End td_lambda_examples.

(** ** Eviction, run again *)

Section eviction_again.
Context {V K : Type} `{!NumPy V} `{!EpisodeId K}.
Context `{!PartialOrder (key_le (K := K))} `{!Total (key_le (K := K))}.
Implicit Types (cache : Cache K V) (ep : Episode V) (items : list (K * Episode V)).

Lemma StronglySorted_sublist {A : Type} (R : relation A) (l1 l2 : list A) :
  l1 `sublist_of` l2 → StronglySorted R l2 → StronglySorted R l1.
Proof.
  induction 1 as [|x l1 l2 Hsub IH|x l1 l2 Hsub IH]; intros Hs; [done| |].
  - apply StronglySorted_cons in Hs as [Hhd Hs].
    apply StronglySorted_cons. split; [|by apply IH].
    rewrite Forall_forall in Hhd. apply Forall_forall. intros y Hy.
    apply Hhd. by eapply elem_of_sublist.
  - apply StronglySorted_cons in Hs as [_ Hs]. by apply IH.
Qed.

Lemma sublist_Permutation_eq {A : Type} (l1 l2 : list A) :
  l1 `sublist_of` l2 → l1 ≡ₚ l2 → l1 = l2.
Proof.
  induction 1 as [|x l1 l2 Hsub IH|x l1 l2 Hsub IH]; intros Hperm; [done| |].
  - f_equal. apply IH. by apply (inj (x ::.)).
  - apply Permutation_length in Hperm. apply sublist_length in Hsub.
    simpl in Hperm. lia.
Qed.

Lemma scan_again ds items : ∀ step,
  scan (V := V) (K := K) ds step (scan ds step items) = scan ds step items.
Proof.
  induction items as [|item items IH]; intros step; [done|]. simpl.
  destruct (fits ds step item.2) eqn:Hfit; [|apply IH].
  simpl. rewrite Hfit. f_equal. apply IH.
Qed.

Lemma sorted_items_newest_first cache :
  StronglySorted (flip item_le) (reverse (sorted_items cache)).
Proof.
  apply Sorted_StronglySorted.
  - intros a b c Hab Hbc. unfold flip, item_le in *. by etrans.
  - apply Sorted_reverse, Sorted_merge_sort.
    intros a b. unfold item_le. apply (total key_le).
Qed.

(** The newest-first items of a part of a cache are the part of its
    newest-first items. *)
Lemma sorted_items_unique cache cache' items :
  dict_wf cache → cache' `sublist_of` cache →
  items `sublist_of` reverse (sorted_items cache) → cache' ≡ₚ items →
  reverse (sorted_items cache') = items.
Proof.
  intros Hwf Hsub Hitems Hperm.
  apply (StronglySorted_unique_strong (flip item_le)).
  - intros [k1 ep1] [k2 ep2] H1 H2 H12 H21. unfold flip, item_le in *. simpl in *.
    assert (k1 = k2) as <- by (by apply (anti_symm key_le)).
    assert ((k1, ep1) ∈ cache) as Hin1.
    { eapply elem_of_sublist; [|done]. by rewrite <- (sorted_items_perm cache'). }
    assert ((k1, ep2) ∈ cache) as Hin2.
    { rewrite <- (sorted_items_perm cache). by eapply elem_of_sublist. }
    apply (dict_get_elem cache k1 ep1 Hwf) in Hin1.
    apply (dict_get_elem cache k1 ep2 Hwf) in Hin2. congruence.
  - apply sorted_items_newest_first.
  - eapply StronglySorted_sublist; [done | apply sorted_items_newest_first].
  - by rewrite sorted_items_perm.
Qed.
End eviction_again.

Section eviction_again_theorem.
Context {V K : Type} `{!NumPy V} `{!EpisodeId K}.
Implicit Types (cache : Cache K V) (ep : Episode V).

(** [erase_over_episodes] is idempotent: on a cache whose episodes carry a
    reward field, a second call with the same budget deletes nothing and
    returns the same count. *)
Theorem erase_over_episodes_idempotent cache ds cache' n :
  PartialOrder (key_le (K := K)) → Total (key_le (K := K)) →
  dict_wf cache →
  (∀ k ep, (k, ep) ∈ cache → has_reward ep) →
  erase_over_episodes cache ds = (cache', Ok n) →
  erase_over_episodes cache' ds = (cache', Ok n).
Proof.
  intros Hpo Htot Hwf Hrew Hrun.
  destruct (erase_over_episodes_scan cache ds Hwf Hrew)
    as (cache1 & Heq & Hperm & Hsub).
  rewrite Heq in Hrun. injection Hrun as -> <-.
  assert (dict_wf cache') as Hwf'.
  { unfold dict_wf, dict_keys in *. eapply sublist_NoDup; [done|].
    by apply fmap_sublist. }
  destruct (erase_over_episodes_scan cache' ds Hwf')
    as (cache2 & Heq2 & Hperm2 & Hsub2).
  { intros k ep Hin. apply (Hrew k). by eapply elem_of_sublist. }
  rewrite (sorted_items_unique cache cache' _ Hwf Hsub (scan_sublist _ _ _) Hperm)
    in Hperm2.
  rewrite scan_again in Hperm2.
  assert (cache2 = cache') as ->.
  { apply sublist_Permutation_eq; [done|]. by rewrite Hperm2, Hperm. }
  done.
Qed.
End eviction_again_theorem.

Section eviction_again_examples.
Import Fixture.

Lemma erase_over_episodes_idempotent_witness :
  erase_over_episodes cache_135 (Some 4%Z)
  = ([(1%Z, rewards 2); (3%Z, rewards 4)], Ok 4%Z) ∧
  erase_over_episodes [(1%Z, rewards 2); (3%Z, rewards 4)] (Some 4%Z)
  = ([(1%Z, rewards 2); (3%Z, rewards 4)], Ok 4%Z).
Proof.
  split; [reflexivity|].
  apply (erase_over_episodes_idempotent (EpisodeId0 := Z_episode_id)
           cache_135 (Some 4%Z) _ 4%Z Z.le_po Z.le_total
           cache_135_wf cache_135_rewards).
  reflexivity.
Defined.
End eviction_again_examples.

(** ** Insertion: what a call leaves alone *)

Section insertion_frame.
Context {V K : Type} `{!NumPy V} `{!EpisodeId K}.
Implicit Types (cache : Cache K V) (ep : Episode V) (t items : pydict string V).

Lemma append_value_grows ep key0 val ep' r key l :
  append_value ep key0 val = (ep', r) →
  dict_get ep key = Some (PList l) →
  ∃ l', dict_get ep' key = Some (PList l') ∧ l `prefix_of` l'.
Proof.
  unfold append_value. intros Hrun Hget.
  destruct (decide (key0 = key)) as [->|Hne].
  - rewrite Hget in Hrun.
    destruct (convert val 32) as [c|e]; injection Hrun as <- <-.
    + exists (l ++ [c]). rewrite dict_get_set_eq. split; [done|]. by apply prefix_app_r.
    + by exists l.
  - assert (∀ ep0 s, dict_get ep0 key = Some (PList l) →
                     dict_get (dict_set ep0 key0 s) key = Some (PList l)) as Hset.
    { intros ep0 s Hep0. by rewrite dict_get_set_ne. }
    destruct (dict_get ep key0) as [[l0|a]|].
    + destruct (convert val 32); injection Hrun as <- <-; exists l; auto.
    + injection Hrun as <- <-. by exists l.
    + destruct (convert (zero_mul val) 32); [|injection Hrun as <- <-; by exists l].
      destruct (convert val 32); injection Hrun as <- <-; exists l; auto.
Qed.

Lemma extend_episode_grows items : ∀ ep ep' r key l,
  extend_episode ep items = (ep', r) →
  dict_get ep key = Some (PList l) →
  ∃ l', dict_get ep' key = Some (PList l') ∧ l `prefix_of` l'.
Proof.
  induction items as [|[key0 val] items IH]; intros ep ep' r key l Hrun Hget; simpl in Hrun.
  - injection Hrun as <- <-. by exists l.
  - destruct (append_value ep key0 val) as [ep1 r1] eqn:Hstep.
    destruct (append_value_grows ep key0 val ep1 r1 key l Hstep Hget)
      as (l1 & Hget1 & Hpre1).
    destruct r1 as [[]|e].
    + destruct (IH ep1 ep' r key l1 Hrun Hget1) as (l' & Hget' & Hpre').
      exists l'. split; [done|]. by etrans.
    + injection Hrun as <- <-. by exists l1.
Qed.

(** [add_to_cache] only appends: whether the call returns or raises, the
    episodes of the other identifiers are what they were, and every list
    stored in the episode written to is still there with its entries, at
    most extended at its end. *)
Theorem add_to_cache_only_appends cache id t cache' r :
  add_to_cache cache id t = (cache', r) →
  (∀ k, k ≠ id → dict_get cache' k = dict_get cache k) ∧
  (∀ ep key l,
     dict_get cache id = Some ep → dict_get ep key = Some (PList l) →
     ∃ ep' l', dict_get cache' id = Some ep' ∧
               dict_get ep' key = Some (PList l') ∧ l `prefix_of` l').
Proof.
  unfold add_to_cache. intros Hrun.
  destruct (dict_get cache id) as [ep|] eqn:Hold.
  - destruct (extend_episode ep t) as [ep' r'] eqn:Hext.
    injection Hrun as <- <-. split.
    + intros k Hk. by rewrite dict_get_set_ne.
    + intros ep0 key l [= <-] Hget.
      destruct (extend_episode_grows t ep ep' r' key l Hext Hget) as (l' & Hl' & Hpre).
      exists ep', l'. by rewrite dict_get_set_eq.
  - destruct (fill_new_episode [] t) as [ep' r'].
    injection Hrun as <- <-. split.
    + intros k Hk. by rewrite dict_get_set_ne.
    + by intros ep0 key l [=].
Qed.
End insertion_frame.

Section insertion_failure.
Context {V R K : Type} `{!NumPy V} `{!RandomState R} `{!EpisodeId K}.
Implicit Types (cache : Cache K V) (ep : Episode V).

Lemma mapM_first_len_empty (episodes : list (Episode V)) :
  [] ∈ episodes → mapM (first_len seq_len) episodes = Raise RuntimeError.
Proof.
  induction episodes as [|ep episodes IH]; intros Hin.
  - by apply elem_of_nil in Hin.
  - simpl. destruct ep as [|[k s] ep]; [done|]. simpl.
    apply elem_of_cons in Hin as [[=]|Hin]. by rewrite IH.
Qed.

(** A failed first insert is not rolled back: when [convert] rejects the
    first value of the transition of a new identifier, the call raises and
    leaves that identifier in the cache with an episode of no field; from
    then on [sample_episodes] on the cache raises [RuntimeError] at the first
    window it is asked for. *)
Theorem add_to_cache_failure_stays cache id key v rest e :
  dict_get cache id = None →
  convert v 32 = Raise e →
  add_to_cache cache id ((key, v) :: rest) = (dict_set cache id [], Raise e) ∧
  dict_get (dict_set cache id []) id = Some [] ∧
  ∀ n fuel h length (rng : R),
    sample_episodes (S n) fuel h (dict_set cache id []) length rng
    = Raised RuntimeError.
Proof.
  intros Hnew Hbad. split_and!.
  - unfold add_to_cache. rewrite Hnew. simpl. by rewrite Hbad.
  - apply dict_get_set_eq.
  - intros n fuel h length rng. simpl. unfold sample_window.
    rewrite mapM_first_len_empty; [done|].
    unfold dict_values. apply list_elem_of_fmap.
    exists (id, []). split; [done|].
    apply dict_get_Some_elem, dict_get_set_eq.
Qed.
End insertion_failure.

Section insertion_frame_examples.
Import Fixture.

Lemma add_to_cache_only_appends_witness :
  dict_get (add_to_cache cache_135 2%Z [("reward", TFloat 1)]).1 1%Z
  = dict_get cache_135 1%Z ∧
  ∃ ep' l',
    dict_get (add_to_cache cache_135 2%Z [("reward", TFloat 1)]).1 2%Z = Some ep' ∧
    dict_get ep' "reward" = Some (PList l') ∧
    replicate 6 (TFloat 0) `prefix_of` l'.
Proof.
  destruct (add_to_cache_only_appends (EpisodeId0 := Z_episode_id)
              cache_135 2%Z [("reward", TFloat 1)]
              (add_to_cache cache_135 2%Z [("reward", TFloat 1)]).1
              (add_to_cache cache_135 2%Z [("reward", TFloat 1)]).2)
    as [Hothers Hgrows].
  - reflexivity.
  - split.
    + apply (Hothers 1%Z). lia.
    + apply (Hgrows (rewards 6) "reward" (replicate 6 (TFloat 0))); reflexivity.
Defined.

Lemma add_to_cache_failure_stays_witness :
  add_to_cache (K := Z) [] 9%Z [("name", TStr "door"); ("reward", TFloat 0)]
  = ([(9%Z, [])], Raise NotImplementedError) ∧
  sample_episodes 1 5 [] [(9%Z, [])] 4 [0; 0]%nat = Raised RuntimeError.
Proof.
  destruct (add_to_cache_failure_stays (R := list nat) (EpisodeId0 := Z_episode_id)
              [] 9%Z "name" (TStr "door") [("reward", TFloat 0)] NotImplementedError)
    as (Hrun & _ & Hsample).
  - reflexivity.
  - reflexivity.
  - split; [exact Hrun|]. apply (Hsample 0%nat 5%nat [] 4%nat [0; 0]%nat).
Defined.
End insertion_frame_examples.

(** ** The window sampler on degenerate inputs *)

Section sampler_edges.
Context {V R K : Type} `{!NumPy V} `{!RandomState R} `{!RandomStateSpec R}.
Implicit Types (h : Store V) (episodes : Cache K V) (st : sampling V).

(** With [length = 0] the inner loop is never entered: every window yielded
    is [None], nothing is drawn and the store is not touched. *)
Theorem sample_episodes_length_zero n fuel h episodes (rng : R) lens :
  mapM (first_len seq_len) (dict_values episodes) = Ok lens →
  sample_episodes n fuel h episodes 0 rng
  = Done (replicate n (Sampling 0 None h [] []), h, rng).
Proof.
  intros Hlens.
  assert (sample_window fuel h episodes 0 rng = Done (Sampling 0 None h [] [], rng))
    as Hwin.
  { unfold sample_window. rewrite Hlens. by destruct fuel. }
  induction n as [|n IH]; [done|].
  simpl. rewrite Hwin. simpl. by rewrite IH.
Qed.

Lemma sample_step_short (eps : list (Episode V)) lens length st (rng : R) :
  Forall2 (λ ep n, first_len seq_len ep = Ok n) eps lens →
  sum_list lens ≠ 0%nat → Forall (λ total, total < 2)%nat lens →
  ∃ rng', sample_step eps lens length st rng = Ok (st, rng').
Proof.
  intros Hall Hsum Hshort. unfold sample_step.
  rewrite decide_False by done.
  assert (probabilities lens ≠ []) as Hp.
  { unfold probabilities. destruct lens; [done | discriminate]. }
  pose proof (rs_choice_range rng _ Hp) as Hi.
  destruct (rs_choice rng (probabilities lens)) as [i rng1]. simpl in Hi.
  unfold probabilities in Hi. rewrite length_fmap in Hi.
  destruct (lookup_lt_is_Some_2 lens i Hi) as [total Htotal].
  destruct (Forall2_lookup_r _ _ _ _ _ Hall Htotal) as (ep & Hep & Hlen).
  rewrite Hep. simpl. rewrite Hlen. simpl.
  rewrite Forall_forall in Hshort.
  rewrite decide_True by (apply Hshort; by eapply list_elem_of_lookup_2).
  by exists rng1.
Qed.

Lemma sample_loop_short fuel (eps : list (Episode V)) lens length st : ∀ rng : R,
  Forall2 (λ ep n, first_len seq_len ep = Ok n) eps lens →
  sum_list lens ≠ 0%nat → Forall (λ total, total < 2)%nat lens →
  (s_size st < length)%nat →
  sample_loop fuel eps lens length st rng = OutOfFuel.
Proof.
  induction fuel as [|fuel IH]; intros rng Hall Hsum Hshort Hlt; simpl.
  - by rewrite decide_True.
  - rewrite decide_True by done.
    destruct (sample_step_short eps lens length st rng Hall Hsum Hshort)
      as [rng' ->].
    by apply IH.
Qed.

(** When no episode of the mapping has two entries, but some entry is
    stored, the sampler never yields: every draw is rejected and redrawn, so
    the first window is not reached within any number of draws. *)
Theorem sample_episodes_never_yields n fuel h episodes length (rng : R) lens :
  mapM (first_len seq_len) (dict_values episodes) = Ok lens →
  sum_list lens ≠ 0%nat → Forall (λ total, total < 2)%nat lens →
  (0 < length)%nat →
  sample_episodes (S n) fuel h episodes length rng = OutOfFuel.
Proof.
  intros Hlens Hsum Hshort Hpos. simpl. unfold sample_window. rewrite Hlens.
  rewrite sample_loop_short; [done | by apply mapM_first_len | done..].
Qed.

(** When the mapping holds no entry at all (no episode, or episodes of empty
    sequences only), the first draw raises [ValueError]. *)
Theorem sample_episodes_nothing_stored n fuel h episodes length (rng : R) lens :
  mapM (first_len seq_len) (dict_values episodes) = Ok lens →
  sum_list lens = 0%nat → (0 < length)%nat →
  sample_episodes (S n) (S fuel) h episodes length rng = Raised ValueError.
Proof.
  intros Hlens Hsum Hpos. simpl. unfold sample_window. rewrite Hlens. simpl.
  rewrite decide_True by done. unfold sample_step.
  by rewrite decide_True.
Qed.
End sampler_edges.

Section sampler_edges_examples.
Import Fixture.

Lemma sample_episodes_length_zero_witness :
  sample_episodes 2 0 [] listed_cache 0 [5; 6]%nat
  = Done ([Sampling 0 None [] [] []; Sampling 0 None [] [] []], [], [5; 6]%nat).
Proof.
  apply (sample_episodes_length_zero (R := list nat) 2 0 [] listed_cache
           [5; 6]%nat [3; 2]%nat).
  reflexivity.
Defined.

Lemma sample_episodes_never_yields_witness :
  sample_episodes 1 100 [] stub_cache 4 [0; 1; 0; 1]%nat = OutOfFuel.
Proof.
  apply (sample_episodes_never_yields (R := list nat) 0 100 [] stub_cache 4
           [0; 1; 0; 1]%nat [1; 1]%nat).
  - reflexivity.
  - simpl. lia.
  - repeat constructor.
  - lia.
Defined.

Lemma sample_episodes_nothing_stored_witness :
  sample_episodes 1 1 [] hollow_cache 4 [0]%nat = Raised ValueError ∧
  sample_episodes (K := Z) 1 1 [] [] 4 [0]%nat = Raised ValueError.
Proof.
  split.
  - apply (sample_episodes_nothing_stored (R := list nat) 0 0 [] hollow_cache 4
             [0]%nat [0]%nat); [reflexivity | reflexivity | lia].
  - apply (sample_episodes_nothing_stored (R := list nat) (K := Z) 0 0 [] [] 4
             [0]%nat []); [reflexivity | reflexivity | lia].
Defined.
End sampler_edges_examples.

(** ** Batching *)

Section from_generator_facts.
Context {G A B : Type}.
Context (next : G → outcome (pydict string A * G)) (stack : list A → result B).
Implicit Types (g : G) (batch xs : list (pydict string A)) (data : pydict string B).

Lemma next_batch_pulls k : ∀ g batch g',
  next_batch next k g = Done (batch, g') →
  length batch = k ∧ pulls next g batch g'.
Proof.
  induction k as [|k IH]; intros g batch g'; simpl.
  - by intros [= <- <-].
  - destruct (next g) as [[item g1]|[]|] eqn:Hnext; try done.
    destruct (next_batch next k g1) as [[batch1 g2]| |] eqn:Hrest; try done.
    intros [= <- <-]. destruct (IH g1 batch1 g2 Hrest) as [Hlen Hpulls].
    split; [simpl; by rewrite Hlen|]. by exists g1.
Qed.

Lemma pulls_next_batch xs : ∀ g g',
  pulls next g xs g' → next_batch next (length xs) g = Done (xs, g').
Proof.
  induction xs as [|x xs IH]; intros g g'; simpl.
  - by intros ->.
  - intros (g1 & Hnext & Hrest). rewrite Hnext. by rewrite (IH g1 g' Hrest).
Qed.

Lemma pulls_app xs : ∀ ys g g1 g',
  pulls next g xs g1 → pulls next g1 ys g' → pulls next g (xs ++ ys) g'.
Proof.
  induction xs as [|x xs IH]; intros ys g g1 g'; simpl.
  - by intros ->.
  - intros (g0 & Hnext & Hrest) Hys. exists g0. split; [done|]. by eapply IH.
Qed.

Lemma pulls_app_inv xs : ∀ ys g g',
  pulls next g (xs ++ ys) g' →
  ∃ g1, pulls next g xs g1 ∧ pulls next g1 ys g'.
Proof.
  induction xs as [|x xs IH]; intros ys g g'; simpl.
  - intros Hys. by exists g.
  - intros (g0 & Hnext & Hrest).
    destruct (IH ys g0 g' Hrest) as (g1 & Hxs & Hys).
    exists g1. split; [by exists g0 | done].
Qed.

Lemma column_lookup key batch column :
  mapM (λ item, of_option KeyError (dict_get item key)) batch = Ok column
  ↔ Forall2 (λ item v, dict_get item key = Some v) batch column.
Proof.
  revert column. induction batch as [|item batch IH]; intros column; simpl.
  - split; [intros [= <-]; constructor | intros Hall; by inv Hall].
  - split.
    + destruct (dict_get item key) as [v|] eqn:Hv; simpl; [|done].
      destruct (mapM _ batch) as [vs|] eqn:Hvs; simpl; [|done].
      intros [= <-]. constructor; [done|]. by apply IH.
    + intros Hall.
      apply Forall2_cons_inv_l in Hall as (y & l' & Hy & Hl' & ->).
      apply IH in Hl'. rewrite Hy. simpl. by rewrite Hl'.
Qed.

Lemma collate_spec keys batch : ∀ data0 data,
  collate stack keys batch data0 = Ok data →
  (∀ key, is_Some (dict_get data key) ↔ is_Some (dict_get data0 key) ∨ key ∈ keys) ∧
  ∀ key stacked, dict_get data key = Some stacked →
    dict_get data0 key = Some stacked ∨
    ∃ column,
      Forall2 (λ item v, dict_get item key = Some v) batch column ∧
      stack column = Ok stacked.
Proof.
  induction keys as [|key0 keys IH]; intros data0 data; simpl.
  - intros [= <-]. split; [|by left].
    intros key. split; [by left|]. intros [?|Hin]; [done|].
    by apply elem_of_nil in Hin.
  - destruct (mapM _ batch) as [column|] eqn:Hcol; simpl; [|done].
    destruct (stack column) as [stacked0|] eqn:Hstack; simpl; [|done].
    intros Hrest. destruct (IH _ _ Hrest) as [Hkeys Hvals]. split.
    + intros key. rewrite (Hkeys key), dict_get_set, elem_of_cons.
      case_decide as Hk; [subst|].
      2: { split; [intros [?|?]; [by left | by do 2 right]|].
           intros [?|[->|?]]; [by left | done | by right]. }
      split; [intros _; right; by left | intros _; left; by eexists].
    + intros key stacked Hget.
      destruct (Hvals key stacked Hget) as [Hold|Hnew]; [|by right].
      rewrite dict_get_set in Hold. case_decide as Hk; [|by left].
      subst key0. injection Hold as <-. right. exists column.
      split; [by apply column_lookup | done].
Qed.

Lemma next_data_collated batch_size g data g' :
  next_data next stack batch_size g = Done (data, g') →
  ∃ batch, length batch = Z.to_nat batch_size ∧ pulls next g batch g' ∧
           collated stack batch data.
Proof.
  unfold next_data.
  destruct (next_batch next (Z.to_nat batch_size) g) as [[batch g1]| |] eqn:Hbatch;
    try done.
  destruct (next_batch_pulls _ _ _ _ Hbatch) as [Hlen Hpulls].
  destruct batch as [|first batch]; [done|].
  destruct (collate stack (dict_keys first) (first :: batch) []) as [data1|] eqn:Hcol;
    [|done].
  intros [= <- <-]. exists (first :: batch). split_and!; [done..|].
  destruct (collate_spec _ _ _ _ Hcol) as [Hkeys Hvals].
  exists first. split_and!; [done | |].
  - intros key. rewrite (Hkeys key), <- (dict_get_is_Some first).
    split; [by intros [[? [=]]|?] | by right].
  - intros key stacked Hget. by destruct (Hvals key stacked Hget) as [[=]|?].
Qed.
End from_generator_facts.

Section from_generator_theorems.
Context {G A B : Type}.
Context (next : G → outcome (pydict string A * G)) (stack : list A → result B).

(** [from_generator] with a batch size of zero or less raises [IndexError]
    at the first batch.  Otherwise the batches it yields are made of the
    items of the generator in their order, [batch_size] items each, none
    skipped and none used twice; a batch has the keys of its first item and,
    under each key, the stack of what its items hold under that key. *)
Theorem from_generator_batches :
  (∀ batch_size n g,
     (batch_size ≤ 0)%Z →
     from_generator next stack batch_size (S n) g = Raised IndexError) ∧
  (∀ batch_size n g datas g',
     from_generator next stack batch_size n g = Done (datas, g') →
     ∃ batches,
       pulls next g (concat batches) g' ∧
       Forall (λ batch, length batch = Z.to_nat batch_size) batches ∧
       Forall2 (collated stack) batches datas).
Proof.
  split.
  - intros batch_size n g Hle. simpl. unfold next_data.
    by replace (Z.to_nat batch_size) with 0%nat by lia.
  - intros batch_size n. induction n as [|n IH]; intros g datas g'; simpl.
    + intros [= <- <-]. exists []. by split_and!.
    + destruct (next_data next stack batch_size g) as [[data g1]| |] eqn:Hdata;
        try done.
      destruct (from_generator next stack batch_size n g1) as [[datas1 g2]| |] eqn:Hrest;
        try done.
      intros [= <- <-].
      destruct (next_data_collated _ _ _ _ _ _ Hdata) as (batch & Hlen & Hpulls & Hcol).
      destruct (IH g1 datas1 g2 Hrest) as (batches & Hps & Hlens & Hcols).
      exists (batch :: batches). split_and!.
      * simpl. by eapply pulls_app.
      * by constructor.
      * by constructor.
Qed.
End from_generator_theorems.

Section from_generator_uniform.
Context {G A S : Type} `{EqDecision S}.
Context (next : G → outcome (pydict string A * G)) (shape_of : A → S).
Implicit Types (g : G) (batch xs : list (pydict string A)).

Lemma np_stack_same arrays s :
  arrays ≠ [] → Forall (λ a, shape_of a = s) arrays →
  np_stack shape_of arrays = Ok arrays.
Proof.
  intros Hne Hall. destruct arrays as [|first arrays]; [done|].
  unfold np_stack.
  assert (forallb (λ a, bool_decide (shape_of a = shape_of first)) (first :: arrays)
          = true) as ->; [|done].
  apply Is_true_eq_true, forallb_True.
  apply Forall_cons in Hall as Hfirst. destruct Hfirst as [Hfirst _].
  eapply Forall_impl; [exact Hall|]. intros a Ha. simpl in Ha.
  apply bool_decide_pack. congruence.
Qed.

Lemma np_stack_inv arrays stacked :
  np_stack shape_of arrays = Ok stacked → stacked = arrays.
Proof.
  unfold np_stack. destruct arrays as [|first arrays]; [done|].
  destruct (forallb _ _); [|done]. by intros [= <-].
Qed.

Lemma column_exists key batch :
  Forall (λ item, is_Some (dict_get item key)) batch →
  ∃ column, Forall2 (λ item v, dict_get item key = Some v) batch column.
Proof.
  induction 1 as [|item batch [v Hv] _ [column IH]].
  - exists []. constructor.
  - exists (v :: column). by constructor.
Qed.

Lemma collate_total fields sh keys batch : ∀ data0,
  batch ≠ [] → Forall (stackable shape_of fields sh) batch →
  (∀ key, key ∈ keys → key ∈ fields) →
  ∃ data, collate (np_stack shape_of) keys batch data0 = Ok data.
Proof.
  induction keys as [|key keys IH]; intros data0 Hne Hall Hkeys; simpl.
  - by exists data0.
  - destruct (column_exists key batch) as [column Hcolumn].
    { eapply Forall_impl; [done|]. intros item [Hfields _]. simpl.
      apply Hfields, Hkeys. left. }
    rewrite (proj2 (column_lookup key batch column) Hcolumn). simpl.
    rewrite (np_stack_same column (sh key)).
    + simpl. apply IH; [done | done |]. intros k Hk. apply Hkeys. by right.
    + intros ->. apply Forall2_nil_inv_r in Hcolumn. done.
    + apply Forall_forall. intros v Hv.
      apply list_elem_of_lookup in Hv as [i Hi].
      destruct (Forall2_lookup_r _ _ _ _ _ Hcolumn Hi) as (item & Hitem & Hget).
      rewrite Forall_forall in Hall.
      destruct (Hall item) as [_ Hshape]; [by eapply list_elem_of_lookup_2|].
      by eapply Hshape.
Qed.

(** On a generator whose items all have the same keys and, under each key,
    arrays of one shape, [from_generator] does not raise: it yields a batch
    for every [batch_size] items, with the same keys and, under each key, a
    stack of [batch_size] arrays of that shape. *)
Theorem from_generator_stacks fields sh batch_size n : ∀ g xs g',
  (0 < batch_size)%Z →
  pulls next g xs g' →
  length xs = (n * Z.to_nat batch_size)%nat →
  Forall (stackable shape_of fields sh) xs →
  ∃ datas,
    from_generator next (np_stack shape_of) batch_size n g = Done (datas, g') ∧
    length datas = n ∧
    Forall (λ data,
              (∀ key, key ∈ fields ↔ is_Some (dict_get data key)) ∧
              ∀ key stacked, dict_get data key = Some stacked →
                length stacked = Z.to_nat batch_size ∧
                Forall (λ a, shape_of a = sh key) stacked) datas.
Proof.
  induction n as [|n IH]; intros g xs g' Hpos Hpulls Hlen Hall.
  - destruct xs; [|done]. simpl in Hpulls. subst g'.
    exists []. by split_and!.
  - set (k := Z.to_nat batch_size) in *.
    assert (0 < k)%nat as Hk by (unfold k; lia).
    rewrite <- (take_drop k xs) in Hpulls, Hall.
    apply pulls_app_inv in Hpulls as (g1 & Hhead & Htail).
    apply Forall_app in Hall as [Hall1 Hall2].
    assert (length (take k xs) = k) as Hlen1 by (rewrite length_take; simpl in Hlen; lia).
    destruct (IH g1 (drop k xs) g' Hpos Htail) as (datas & Hrun & Hn & Hdatas);
      [rewrite length_drop; simpl in Hlen; fold k; lia | done |].
    apply pulls_next_batch in Hhead. rewrite Hlen1 in Hhead.
    simpl. unfold next_data. fold k. rewrite Hhead.
    destruct (take k xs) as [|first batch] eqn:Hbatch; [simpl in Hlen1; lia|].
    pose proof Hall1 as Hfirst. apply Forall_cons in Hfirst as [[Hfields Hshapes] _].
    destruct (collate_total fields sh (dict_keys first) (first :: batch) [])
      as [data Hcol]; [done | done | |].
    { intros key Hkey. apply Hfields. by apply dict_get_is_Some. }
    rewrite Hcol, Hrun. exists (data :: datas).
    split_and!; [done | simpl; by rewrite Hn |].
    constructor; [|done].
    destruct (collate_spec _ _ _ _ _ Hcol) as [Hkeys Hvals]. split.
    + intros key. rewrite (Hkeys key), (Hfields key), <- (dict_get_is_Some first).
      split; [by right | by intros [[? [=]]|?]].
    + intros key stacked Hget.
      destruct (Hvals key stacked Hget) as [[=]|(column & Hcolumn & Hstack)].
      apply np_stack_inv in Hstack as ->.
      split.
      * apply Forall2_length in Hcolumn. rewrite <- Hcolumn. done.
      * apply Forall_forall. intros v Hv.
        apply list_elem_of_lookup in Hv as [i Hi].
        destruct (Forall2_lookup_r _ _ _ _ _ Hcolumn Hi) as (item & Hitem & Hget').
        rewrite Forall_forall in Hall1.
        destruct (Hall1 item) as [_ Hshape]; [by eapply list_elem_of_lookup_2|].
        by eapply Hshape.
Qed.
End from_generator_uniform.

Section from_generator_examples.
Import Fixture.

Lemma from_generator_batches_witness :
  from_generator list_next (np_stack length) 0 1 windows4 = Raised IndexError ∧
  ∃ datas batches,
    from_generator list_next (np_stack length) 2 2 windows4 = Done (datas, []) ∧
    pulls list_next windows4 (concat batches) [] ∧
    Forall (λ batch, length batch = 2%nat) batches ∧
    Forall2 (collated (np_stack length)) batches datas.
Proof.
  destruct (from_generator_batches (list_next (A := pydict string (list Z)))
              (np_stack length)) as [Hempty Hfull].
  split.
  - apply (Hempty 0%Z 0%nat windows4). lia.
  - destruct (Hfull 2%Z 2%nat windows4 _ _ eq_refl)
      as (batches & Hpulls & Hlens & Hcols).
    eexists _, batches. split_and!; [reflexivity | exact Hpulls | exact Hlens | exact Hcols].
Defined.

Lemma windows4_stackable :
  Forall (stackable length ["reward"; "action"] (λ _, 2%nat)) windows4.
Proof.
  unfold windows4.
  repeat (apply Forall_cons_2; [split|]); try apply Forall_nil_2.
  all: try (intros key; by rewrite dict_get_is_Some).
  all: intros key v Hv; simpl in Hv;
    repeat (destruct (decide _) in Hv; [by injection Hv as <-|]); done.
Qed.

Lemma from_generator_stacks_witness :
  ∃ datas,
    from_generator list_next (np_stack length) 2 2 windows4 = Done (datas, []) ∧
    length datas = 2%nat.
Proof.
  destruct (from_generator_stacks (list_next (A := pydict string (list Z))) length
              ["reward"; "action"] (λ _, 2%nat) 2%Z 2%nat windows4 windows4 [])
    as (datas & Hrun & Hlen & _).
  - lia.
  - simpl. repeat (eexists; split; [reflexivity|]). reflexivity.
  - reflexivity.
  - apply windows4_stackable.
  - exists datas. split; [exact Hrun | exact Hlen].
Defined.
End from_generator_examples.

(** ** Loading episodes *)

Section load_episodes_facts.
Context {V P : Type} `{!EpisodeId P}.
Context (stem str_of : P → string) (read : P → option (Episode V)).
Implicit Types (episodes : pydict string (Episode V)) (filenames : list P).

Lemma dict_set_fresh {A B : Type} `{EqDecision A} (d : pydict A B) k v :
  k ∉ dict_keys d → dict_set d k v = d ++ [(k, v)].
Proof.
  unfold dict_keys. induction d as [|[k' v'] d IH]; simpl; intros Hin; [done|].
  apply not_elem_of_cons in Hin as [Hne Hin].
  rewrite decide_False by done. f_equal. by apply IH.
Qed.

Lemma readable_cons_None reverse filename filenames :
  read filename = None →
  readable stem str_of read reverse (filename :: filenames)
  = readable stem str_of read reverse filenames.
Proof. intros Hread. unfold readable. simpl. by rewrite Hread. Qed.

Lemma readable_cons_Some reverse filename filenames ep :
  read filename = Some ep →
  readable stem str_of read reverse (filename :: filenames)
  = (file_key stem str_of reverse filename, ep)
    :: readable stem str_of read reverse filenames.
Proof. intros Hread. unfold readable. simpl. by rewrite Hread. Qed.

Lemma load_loop_prefix reverse limit filenames : ∀ episodes total,
  NoDup (dict_keys (episodes ++ readable stem str_of read reverse filenames)) →
  (∀ item, item ∈ readable stem str_of read reverse filenames → has_reward item.2) →
  ∃ k,
    load_loop stem str_of read reverse limit filenames episodes total
    = Ok (episodes ++ take k (readable stem str_of read reverse filenames)) ∧
    (k ≤ length (readable stem str_of read reverse filenames))%nat ∧
    (k = length (readable stem str_of read reverse filenames) ∨
     limit_reached limit
       (total + total_steps (take k (readable stem str_of read reverse filenames)))
     = true) ∧
    ∀ j, (0 < j < k)%nat →
      limit_reached limit
        (total + total_steps (take j (readable stem str_of read reverse filenames)))
      = false.
Proof.
  induction filenames as [|filename filenames IH]; intros episodes total Hnd Hrew.
  - exists 0%nat. simpl. rewrite app_nil_r. split_and!; [done | done | by left |].
    intros j Hj. lia.
  - cbn [load_loop].
    destruct (read filename) as [ep|] eqn:Hread.
    2: { rewrite (readable_cons_None reverse filename filenames Hread) in *.
         by apply IH. }
    rewrite (readable_cons_Some reverse filename filenames ep Hread) in *.
    set (item := (file_key stem str_of reverse filename, ep)) in *.
    set (rest := readable stem str_of read reverse filenames) in *.
    assert (has_reward ep) as Hep by (apply (Hrew item); left).
    assert (file_key stem str_of reverse filename ∉ dict_keys episodes) as Hfresh.
    { unfold dict_keys in *. rewrite fmap_app in Hnd.
      apply NoDup_app in Hnd as (_ & Hdisj & _).
      intros Hin. apply (Hdisj _ Hin). simpl. left. }
    rewrite (dict_set_fresh episodes _ ep Hfresh).
    rewrite (transitions_steps ep Hep). simpl.
    destruct (limit_reached limit (total + steps ep)) eqn:Hreached.
    + exists 1%nat. simpl. rewrite take_0. split_and!; [done | lia | |].
      * right. simpl. by rewrite Z.add_0_r.
      * intros j Hj. lia.
    + destruct (IH (episodes ++ [item]) (total + steps ep)%Z)
        as (k & Hrun & Hk & Hend & Hbefore).
      * by rewrite <- app_assoc.
      * intros item' Hin. apply Hrew. by right.
      * fold rest in Hrun, Hk, Hend, Hbefore.
        exists (S k). fold item. rewrite Hrun, <- app_assoc. simpl.
        split_and!; [done | lia | |].
        -- destruct Hend as [->|Hend]; [by left | right].
           rewrite <- Hend. f_equal. fold item. simpl. lia.
        -- intros [|j] Hj; [lia|]. simpl.
           destruct j as [|j].
           ++ rewrite take_0. simpl. rewrite Z.add_0_r. done.
           ++ rewrite <- (Hbefore (S j)) by lia. f_equal. fold item. simpl. lia.
Qed.
End load_episodes_facts.

Section load_episodes_theorems.
Context {V P : Type} `{!EpisodeId P}.
Context (stem str_of : P → string) (read : P → option (Episode V)).

(** [load_episodes] returns the readable files of the directory in the order
    it visits them (newest first when [reverse]), skipping the files that
    cannot be read, up to and including the first one with which the
    transitions loaded reach [limit]: so the total may exceed the limit, by
    less than the last episode loaded.  Without a limit ([None] or [0]) every
    readable file is returned.  This holds when the keys of the readable
    files are distinct and each has a reward field. *)
Theorem load_episodes_until_limit files limit reverse :
  NoDup (dict_keys (readable stem str_of read reverse (load_order files reverse))) →
  (∀ item, item ∈ readable stem str_of read reverse (load_order files reverse) →
           has_reward item.2) →
  ∃ k,
    load_episodes stem str_of read files limit reverse
    = Ok (take k (readable stem str_of read reverse (load_order files reverse))) ∧
    (k ≤ length (readable stem str_of read reverse (load_order files reverse)))%nat ∧
    (truthy limit = false →
     k = length (readable stem str_of read reverse (load_order files reverse))) ∧
    (∀ b, limit = Some b → b ≠ 0%Z →
       (k = length (readable stem str_of read reverse (load_order files reverse)) ∨
        (b ≤ total_steps
               (take k (readable stem str_of read reverse (load_order files reverse))))%Z) ∧
       ∀ j, (0 < j < k)%nat →
         (total_steps
            (take j (readable stem str_of read reverse (load_order files reverse)))
          < b)%Z).
Proof.
  intros Hnd Hrew.
  destruct (load_loop_prefix stem str_of read reverse limit
              (load_order files reverse) [] 0%Z Hnd Hrew)
    as (k & Hrun & Hk & Hend & Hbefore).
  exists k. split_and!; [done | done | |].
  - intros Hoff. destruct Hend as [?|Hend]; [done|].
    unfold limit_reached in Hend. by rewrite Hoff in Hend.
  - intros b -> Hb. split.
    + destruct Hend as [?|Hend]; [by left | right].
      unfold limit_reached in Hend. apply andb_true_iff in Hend as [_ Hend].
      apply bool_decide_eq_true in Hend. lia.
    + intros j Hj. specialize (Hbefore j Hj).
      unfold limit_reached, truthy in Hbefore.
      rewrite bool_decide_eq_true_2 in Hbefore by done. simpl in Hbefore.
      apply bool_decide_eq_false in Hbefore. lia.
Qed.
End load_episodes_theorems.

Section load_episodes_examples.
Import Fixture.

Lemma load_episodes_until_limit_witness :
  ∃ k,
    load_episodes npz_name npz_name npz_read [2; 4; 1; 3]%Z (Some 5%Z) true
    = Ok (take k [("ep3-4", rewards 4); ("ep2-6", rewards 6); ("ep1-2", rewards 2)]) ∧
    ((k = 3%nat ∨
      (5 ≤ total_steps
             (take k [("ep3-4", rewards 4); ("ep2-6", rewards 6);
                      ("ep1-2", rewards 2)]))%Z) ∧
     ∀ j, (0 < j < k)%nat →
       (total_steps
          (take j [("ep3-4", rewards 4); ("ep2-6", rewards 6); ("ep1-2", rewards 2)])
        < 5)%Z).
Proof.
  destruct (load_episodes_until_limit (EpisodeId0 := Z_episode_id)
              npz_name npz_name npz_read [2; 4; 1; 3]%Z (Some 5%Z) true)
    as (k & Hrun & _ & _ & Hlimit).
  - refine (bool_decide_unpack _ _). by vm_compute.
  - intros item Hin.
    change (item ∈ [("ep3-4", rewards 4); ("ep2-6", rewards 6); ("ep1-2", rewards 2)])
      in Hin.
    repeat (apply elem_of_cons in Hin as [-> | Hin]; [by eexists|]).
    by apply elem_of_nil in Hin.
  - exists k. split; [exact Hrun|]. apply (Hlimit 5%Z); [reflexivity | lia].
Defined.
End load_episodes_examples.

(** ** The simulation driver: budgets *)

Section driver_budget.
Context {A K V : Type} `{!NumPy V} `{!EpisodeId K}.
Implicit Types (st : sim_state A V) (lo : sim_locals K V) (inp : tick_input A K V).

Lemma tick_counts envs is_eval limit inp st lo st' lo' :
  tick envs is_eval limit inp st lo = Ok (st', lo') →
  length (t_results inp) = length envs →
  envs ≠ [] ∧
  st_step st' = (st_step st + Z.of_nat (length envs))%Z ∧
  st_episode st' = (st_episode st + count_done (r_done <$> t_results inp))%Z ∧
  st_done st' = r_done <$> t_results inp.
Proof.
  unfold tick. intros Hrun Hlen.
  destruct (if bool_decide (true ∈ st_done st) then _ else _) as [[cache obs]|];
    simpl in Hrun; [|done].
  destruct (bool_decide (length (t_action inp) = length envs)) eqn:Hact;
    simpl in Hrun; [|done].
  destruct (bool_decide (t_results inp = [])) eqn:Hres; simpl in Hrun; [done|].
  destruct (len_mask _ _) as [len|]; simpl in Hrun; [|done].
  destruct (curriculum_tick _ _ _ _) as [[ctl fired]|]; simpl in Hrun; [|done].
  destruct (record_steps _ _) as [cache1|] eqn:Hrec; simpl in Hrun; [|done].
  destruct (if bool_decide (true ∈ r_done <$> t_results inp) then _ else _)
    as [[[cache2 len2] ev]|]; simpl in Hrun; [|done].
  injection Hrun as <- <-. simpl. split_and!; try done.
  intros ->. apply bool_decide_eq_false in Hres.
  simpl in Hlen. by apply nil_length_inv in Hlen.
Qed.

(** The loop under a step budget alone: [m] passes were made. *)
Lemma run_loop_steps envs is_eval limit steps inputs : ∀ st lo st' lo',
  Forall (λ inp, length (t_results inp) = length envs) inputs →
  run_loop envs is_eval limit steps 0 inputs st lo = Done (st', lo') →
  ∃ m,
    (m ≤ length inputs)%nat ∧
    st_step st' = (st_step st + Z.of_nat m * Z.of_nat (length envs))%Z ∧
    st_episode st'
    = (st_episode st
       + Zsum ((λ inp, count_done (r_done <$> t_results inp)) <$> take m inputs))%Z ∧
    (steps = 0 ∨ steps ≤ st_step st')%Z ∧
    ((0 < m)%nat →
     envs ≠ [] ∧ steps ≠ 0%Z ∧ (st_step st' - Z.of_nat (length envs) < steps)%Z).
Proof.
  induction inputs as [|inp inputs IH]; intros st lo st' lo' Hwf; simpl.
  - destruct (keep_going steps 0 st) eqn:Hgo; [done|].
    intros [= <- <-]. exists 0%nat. split_and!; [done | lia | simpl; lia | | lia].
    unfold keep_going in Hgo. rewrite orb_false_r in Hgo.
    apply andb_false_iff in Hgo as [Hgo|Hgo].
    + apply bool_decide_eq_false in Hgo. left. by apply dec_stable.
    + apply bool_decide_eq_false in Hgo. right. lia.
  - apply Forall_cons in Hwf as [Hinp Hwf].
    destruct (keep_going steps 0 st) eqn:Hgo.
    2: { intros [= <- <-]. exists 0%nat. split_and!; [lia | lia | simpl; lia | | lia].
         unfold keep_going in Hgo. rewrite orb_false_r in Hgo.
         apply andb_false_iff in Hgo as [Hgo|Hgo].
         - apply bool_decide_eq_false in Hgo. left. by apply dec_stable.
         - apply bool_decide_eq_false in Hgo. right. lia. }
    destruct (tick envs is_eval limit inp st lo) as [[st1 lo1]|] eqn:Htick; [|done].
    intros Hrest.
    destruct (tick_counts _ _ _ _ _ _ _ _ Htick Hinp) as (Henvs & Hstep & Hep & _).
    destruct (IH st1 lo1 st' lo' Hwf Hrest) as (m & Hm & Hsteps & Heps & Hend & Hlast).
    unfold keep_going in Hgo. rewrite orb_false_r in Hgo.
    apply andb_true_iff in Hgo as [Hne Hlt].
    apply bool_decide_eq_true in Hne. apply bool_decide_eq_true in Hlt.
    exists (S m). split_and!; [simpl; lia | nia | | done |].
    + rewrite Heps, Hep. unfold Zsum. simpl. symmetry. apply Z.add_assoc.
    + intros _. split_and!; [done | done |].
      destruct m as [|m]; [nia|]. apply Hlast. lia.
Qed.

(** Under a step budget alone, from a fresh state: when [simulate_multi]
    returns it has made as many passes as it takes [len(envs)] steps at a
    time to reach [steps]; the step component it returns is the overshoot,
    below [len(envs)], and the episode component is the number of episodes
    that ended in those passes. *)
Theorem simulate_multi_step_budget envs held cache is_eval limit steps inputs
    st cache' held' :
  (0 < steps)%Z →
  Forall (λ inp, length (t_results inp) = length envs) inputs →
  simulate_multi envs held cache is_eval limit steps 0 None inputs
  = Done (st, cache', held') →
  ∃ m,
    (m ≤ length inputs)%nat ∧
    (Z.of_nat m * Z.of_nat (length envs) = steps + st_step st)%Z ∧
    (0 ≤ st_step st < Z.of_nat (length envs))%Z ∧
    st_episode st
    = Zsum ((λ inp, count_done (r_done <$> t_results inp)) <$> take m inputs).
Proof.
  intros Hsteps Hwf. unfold simulate_multi.
  destruct (run_loop _ _ _ _ _ _ _ _) as [[st1 lo1]| |] eqn:Hrun; [|done..].
  intros [= <- _ _]. simpl.
  destruct (run_loop_steps _ _ _ _ _ _ _ _ _ Hwf Hrun)
    as (m & Hm & Hstep & Hep & Hend & Hlast).
  simpl in Hstep, Hep. exists m.
  assert (0 < m)%nat as Hpos by (destruct m; [lia | lia]).
  destruct (Hlast Hpos) as (_ & _ & Hlt).
  split_and!; [done | nia | nia | nia | lia].
Qed.
End driver_budget.

Section driver_budget_examples.
Import Fixture.

Lemma simulate_multi_step_budget_witness :
  ∃ st cache' held' m,
    simulate_multi (A := unit) [roomy; roomy] [easy; easy] [] false None 3 0 None
      [first_pass; second_pass] = Done (st, cache', held') ∧
    (Z.of_nat m * 2 = 3 + st_step st)%Z ∧
    (0 ≤ st_step st < 2)%Z.
Proof.
  destruct (simulate_multi_step_budget (A := unit) (EpisodeId0 := Z_episode_id)
              [roomy; roomy] [easy; easy] [] false None 3%Z
              [first_pass; second_pass] _ _ _ ltac:(lia)
              ltac:(repeat constructor) eq_refl)
    as (m & _ & Hm & Hrange & _).
  eexists _, _, _, m. split; [reflexivity|]. split; [exact Hm | exact Hrange].
Defined.
End driver_budget_examples.

(** ** Transforms and distributions *)

Section symlog_facts.
Local Open Scope R_scope.

Lemma torch_sign_pos x : 0 < x → torch_sign x = 1.
Proof. intros Hx. unfold torch_sign. by destruct (Rlt_dec 0 x). Qed.

Lemma torch_sign_neg x : x < 0 → torch_sign x = -1.
Proof.
  intros Hx. unfold torch_sign.
  destruct (Rlt_dec 0 x); [lra|]. by destruct (Rlt_dec x 0).
Qed.

Lemma torch_sign_zero : torch_sign 0 = 0.
Proof.
  unfold torch_sign. destruct (Rlt_dec 0 0); [lra|]. destruct (Rlt_dec 0 0); lra.
Qed.



End symlog_facts.

Section huber_facts.
Local Open Scope R_scope.

End huber_facts.

Section truncated_facts.
Local Open Scope R_scope.


End truncated_facts.

Section transform_examples.
Local Open Scope R_scope.


End transform_examples.

(** ** The two-hot target of [DiscDist] *)

Section twohot_facts.
Local Open Scope R_scope.
Implicit Types (f : nat → R) (x y w : R) (n c k : nat).

Lemma Rsum_cons (a : R) (l : list R) : Rsum (a :: l) = a + Rsum l.
Proof. done. Qed.

Lemma Rsum_app (l1 l2 : list R) : Rsum (l1 ++ l2) = Rsum l1 + Rsum l2.
Proof.
  induction l1 as [|a l1 IH]; [simpl; lra|].
  rewrite <- app_comm_cons, !Rsum_cons, IH. lra.
Qed.

Lemma Rsum_plus {A : Type} (a b : A → R) (l : list A) :
  Rsum ((λ i, a i + b i) <$> l) = Rsum (a <$> l) + Rsum (b <$> l).
Proof.
  induction l as [|i l IH]; [simpl; lra|].
  rewrite !fmap_cons, !Rsum_cons, IH. lra.
Qed.

Lemma Rsum_zero {A : Type} (a : A → R) (l : list A) :
  (∀ i, i ∈ l → a i = 0) → Rsum (a <$> l) = 0.
Proof.
  induction l as [|i l IH]; intros Hall; [done|].
  rewrite fmap_cons, Rsum_cons, (Hall i) by left. rewrite IH; [lra|].
  intros j Hj. apply Hall. by right.
Qed.

(** A sum against a one-hot vector picks one term. *)
Lemma Rsum_pick (g : nat → R) (k : Z) n :
  (0 ≤ k < Z.of_nat n)%Z →
  Rsum ((λ i, (if bool_decide (Z.of_nat i = k) then 1 else 0) * g i) <$> seq 0 n)
  = g (Z.to_nat k).
Proof.
  intros Hk.
  assert (seq 0 n = seq 0 (Z.to_nat k) ++ [Z.to_nat k]
                    ++ seq (S (Z.to_nat k)) (n - S (Z.to_nat k))) as ->.
  { replace n with (Z.to_nat k + S (n - S (Z.to_nat k)))%nat at 1 by lia.
    rewrite seq_app. simpl. done. }
  rewrite !fmap_app, !Rsum_app.
  rewrite Rsum_zero, (Rsum_zero _ (seq (S _) _)).
  - simpl. rewrite bool_decide_eq_true_2 by lia. lra.
  - intros i Hi%elem_of_seq. rewrite bool_decide_eq_false_2 by lia. lra.
  - intros i Hi%elem_of_seq. rewrite bool_decide_eq_false_2 by lia. lra.
Qed.

Lemma zip_with_fmap_same {A B C D : Type} (h : B → C → D) (a : A → B) (b : A → C)
    (l : list A) :
  zip_with h (a <$> l) (b <$> l) = (λ i, h (a i) (b i)) <$> l.
Proof.
  induction l as [|i l IH]; [done|].
  rewrite !fmap_cons. cbn [zip_with]. f_equal. exact IH.
Qed.

(** The buckets are [f 0, ..., f (n-1)] for an increasing [f]: those up to
    [y] are the first [c]. *)
Lemma count_le_sorted f y n :
  (∀ i j, (i < j)%nat → f i < f j) →
  ∃ c, (c ≤ n)%nat ∧
       length (filter (λ b, b <= y) (f <$> seq 0 n)) = c ∧
       length (filter (λ b, b > y) (f <$> seq 0 n)) = (n - c)%nat ∧
       (∀ i, (i < c)%nat → f i <= y) ∧
       (∀ i, (c ≤ i)%nat → (i < n)%nat → y < f i).
Proof.
  intros Hmono. induction n as [|n (c & Hc & Hle & Hgt & Hlow & Hhigh)].
  - exists 0%nat. split_and!; [done..| |]; intros; lia.
  - rewrite seq_S, fmap_app, !filter_app, !length_app, Hle, Hgt. simpl.
    destruct (Rle_dec (f n) y) as [Hn|Hn].
    + assert (c = n) as ->.
      { destruct (decide (c = n)) as [|Hne]; [done|].
        pose proof (Hhigh c ltac:(lia) ltac:(lia)).
        pose proof (Hmono c n ltac:(lia)). lra. }
      exists (S n). rewrite filter_cons_True by done.
      rewrite filter_cons_False by (intros ?; lra). simpl.
      split_and!; [lia | lia | lia | |].
      * intros i Hi. destruct (decide (i = n)) as [->|]; [done|]. apply Hlow. lia.
      * intros; lia.
    + exists c. rewrite filter_cons_False by done.
      rewrite filter_cons_True by lra. simpl.
      split_and!; [lia | lia | lia | done |].
      intros i Hi1 Hi2. destruct (decide (i = n)) as [->|]; [lra|].
      apply Hhigh; lia.
Qed.
End twohot_facts.

Section twohot_theorems.
Local Open Scope R_scope.
Implicit Types (f : nat → R) (x y w : R) (n c k : nat).

Lemma Rsum_ext {A : Type} (a b : A → R) (l : list A) :
  (∀ i, a i = b i) → Rsum (a <$> l) = Rsum (b <$> l).
Proof. intros Hab. f_equal. apply list_fmap_ext. by intros ? ? _. Qed.

Lemma one_hot_weights (kb ka : Z) wb wa n :
  zip_with Rplus ((λ h, h * wb) <$> one_hot kb n) ((λ h, h * wa) <$> one_hot ka n)
  = (λ i, (if bool_decide (Z.of_nat i = kb) then 1 else 0) * wb
          + (if bool_decide (Z.of_nat i = ka) then 1 else 0) * wa) <$> seq 0 n.
Proof.
  unfold one_hot. rewrite <- !list_fmap_compose.
  by rewrite zip_with_fmap_same.
Qed.

(** The target with the weights [wb] at [kb] and [wa] at [ka]. *)
Lemma weighted_pair (g : nat → R) (kb ka : Z) wb wa n :
  (0 ≤ kb < Z.of_nat n)%Z → (0 ≤ ka < Z.of_nat n)%Z →
  0 <= wb → 0 <= wa →
  Forall (λ w, 0 <= w)
    ((λ i, (if bool_decide (Z.of_nat i = kb) then 1 else 0) * wb
           + (if bool_decide (Z.of_nat i = ka) then 1 else 0) * wa) <$> seq 0 n) ∧
  Rsum ((λ i, (if bool_decide (Z.of_nat i = kb) then 1 else 0) * wb
              + (if bool_decide (Z.of_nat i = ka) then 1 else 0) * wa) <$> seq 0 n)
  = wb + wa ∧
  Rsum (zip_with Rmult
          ((λ i, (if bool_decide (Z.of_nat i = kb) then 1 else 0) * wb
                 + (if bool_decide (Z.of_nat i = ka) then 1 else 0) * wa) <$> seq 0 n)
          (g <$> seq 0 n))
  = wb * g (Z.to_nat kb) + wa * g (Z.to_nat ka).
Proof.
  intros Hkb Hka Hwb Hwa. split_and!.
  - apply Forall_fmap, Forall_forall. intros i _. simpl.
    repeat case_bool_decide; lra.
  - rewrite (Rsum_plus (λ i, (if bool_decide (Z.of_nat i = kb) then 1 else 0) * wb)
               (λ i, (if bool_decide (Z.of_nat i = ka) then 1 else 0) * wa)).
    rewrite (Rsum_pick (λ _, wb) kb n Hkb), (Rsum_pick (λ _, wa) ka n Hka). done.
  - rewrite zip_with_fmap_same.
    rewrite (Rsum_ext _
               (λ i, (if bool_decide (Z.of_nat i = kb) then 1 else 0) * (wb * g i)
                     + (if bool_decide (Z.of_nat i = ka) then 1 else 0) * (wa * g i)))
      by (intros i; lra).
    rewrite (Rsum_plus
               (λ i, (if bool_decide (Z.of_nat i = kb) then 1 else 0) * (wb * g i))
               (λ i, (if bool_decide (Z.of_nat i = ka) then 1 else 0) * (wa * g i))).
    rewrite (Rsum_pick (λ i, wb * g i) kb n Hkb), (Rsum_pick (λ i, wa * g i) ka n Hka).
    done.
Qed.

Lemma twohot_increasing f n y l p tf tb :
  (0 < n)%nat → (∀ i j, (i < j)%nat → f i < f j) →
  Forall (λ w, 0 <= w) (DiscDist_target (MkDiscDist l p (f <$> seq 0 n) tf tb) y) ∧
  Rsum (DiscDist_target (MkDiscDist l p (f <$> seq 0 n) tf tb) y) = 1 ∧
  Rsum (zip_with Rmult (DiscDist_target (MkDiscDist l p (f <$> seq 0 n) tf tb) y)
          (f <$> seq 0 n))
  = torch_clip y (f 0%nat) (f (n - 1)%nat).
Proof.
  intros Hn Hmono.
  assert (∀ i j, (i ≤ j)%nat → f i <= f j) as Hle.
  { intros i j Hij. destruct (decide (i = j)) as [->|]; [lra|].
    apply Rlt_le, Hmono. lia. }
  assert (∀ i, (i < n)%nat →
               default 0 ((f <$> seq 0 n) !! i) = f i) as Hat.
  { intros i Hi. by rewrite list_lookup_fmap, lookup_seq_lt. }
  destruct (count_le_sorted f y n Hmono) as (c & Hc & Hcle & Hcgt & Hlow & Hhigh).
  unfold DiscDist_target. cbn [buckets].
  rewrite Hcle, Hcgt, length_fmap, length_seq.
  replace (Z.of_nat n - Z.of_nat (n - c))%Z with (Z.of_nat c) by lia.
  unfold torch_clip.
  destruct (decide (c = 0)%nat) as [->|Hc0]; [|destruct (decide (c = n)) as [->|Hcn]].
  - (* below every bucket *)
    replace (clip_index (Z.of_nat 0 - 1) 0 (Z.of_nat n - 1)) with 0%Z
      by (unfold clip_index; lia).
    replace (clip_index (Z.of_nat 0) 0 (Z.of_nat n - 1)) with 0%Z
      by (unfold clip_index; lia).
    rewrite bool_decide_eq_true_2 by done.
    rewrite one_hot_weights.
    destruct (weighted_pair f 0 0 (1 / (1 + 1)) (1 / (1 + 1)) n)
      as (Hpos & Hsum & Hdot); [lia | lia | lra | lra |].
    pose proof (Hhigh 0%nat ltac:(lia) Hn) as Hy.
    pose proof (Hle 0%nat (n - 1)%nat ltac:(lia)) as Hends.
    split_and!; [done | rewrite Hsum; lra |].
    rewrite Hdot. change (Z.to_nat 0) with 0%nat.
    rewrite Rmax_right by lra. rewrite Rmin_left by lra. lra.
  - (* at or above the last bucket *)
    replace (clip_index (Z.of_nat n - 1) 0 (Z.of_nat n - 1)) with (Z.of_nat n - 1)%Z
      by (unfold clip_index; lia).
    replace (clip_index (Z.of_nat n) 0 (Z.of_nat n - 1)) with (Z.of_nat n - 1)%Z
      by (unfold clip_index; lia).
    rewrite bool_decide_eq_true_2 by done.
    rewrite one_hot_weights.
    destruct (weighted_pair f (Z.of_nat n - 1) (Z.of_nat n - 1)
                (1 / (1 + 1)) (1 / (1 + 1)) n)
      as (Hpos & Hsum & Hdot); [lia | lia | lra | lra |].
    pose proof (Hlow (n - 1)%nat ltac:(lia)) as Hy.
    pose proof (Hle 0%nat (n - 1)%nat ltac:(lia)) as Hends.
    split_and!; [done | rewrite Hsum; lra |].
    rewrite Hdot. replace (Z.to_nat (Z.of_nat n - 1)) with (n - 1)%nat by lia.
    rewrite Rmax_left by lra. rewrite Rmin_right by lra. lra.
  - (* between two buckets *)
    replace (clip_index (Z.of_nat c - 1) 0 (Z.of_nat n - 1)) with (Z.of_nat c - 1)%Z
      by (unfold clip_index; lia).
    replace (clip_index (Z.of_nat c) 0 (Z.of_nat n - 1)) with (Z.of_nat c)
      by (unfold clip_index; lia).
    rewrite bool_decide_eq_false_2 by lia.
    replace (Z.to_nat (Z.of_nat c - 1)) with (c - 1)%nat by lia.
    rewrite Nat2Z.id, (Hat (c - 1)%nat), (Hat c) by lia.
    pose proof (Hlow (c - 1)%nat ltac:(lia)) as Hb.
    pose proof (Hhigh c ltac:(lia) ltac:(lia)) as Ha.
    pose proof (Hmono (c - 1)%nat c ltac:(lia)) as Hgap.
    pose proof (Hle 0%nat (c - 1)%nat ltac:(lia)) as Hfirst.
    pose proof (Hle c (n - 1)%nat ltac:(lia)) as Hlast.
    rewrite (Rabs_left1 (f (c - 1)%nat - y)) by lra.
    rewrite (Rabs_right (f c - y)) by lra.
    set (db := - (f (c - 1)%nat - y)). set (da := f c - y).
    assert (0 <= db) as Hdb by (unfold db; lra).
    assert (0 < da) as Hda by (unfold da; lra).
    rewrite one_hot_weights.
    destruct (weighted_pair f (Z.of_nat c - 1) (Z.of_nat c)
                (da / (db + da)) (db / (db + da)) n)
      as (Hpos & Hsum & Hdot); [lia | lia | | |].
    { apply Rmult_le_pos; [lra|]. apply Rlt_le, Rinv_0_lt_compat. lra. }
    { apply Rmult_le_pos; [lra|]. apply Rlt_le, Rinv_0_lt_compat. lra. }
    split_and!; [done | rewrite Hsum; field; lra |].
    rewrite Hdot. replace (Z.to_nat (Z.of_nat c - 1)) with (c - 1)%nat by lia.
    rewrite Nat2Z.id.
    rewrite Rmax_left by lra. rewrite Rmin_left by lra.
    unfold db, da. field. lra.
Qed.

Lemma linspace_255 low high :
  linspace low high 255
  = (λ i : nat, low + INR i * ((high - low) / INR 254)) <$> seq 0 255.
Proof.
  unfold linspace.
  assert (INR 255 - 1 = INR 254) as -> by (rewrite (S_INR 254); lra). done.
Qed.

Lemma linspace_increasing low high (i j : nat) :
  low < high → (i < j)%nat →
  low + INR i * ((high - low) / INR 254) < low + INR j * ((high - low) / INR 254).
Proof.
  intros Hlow Hij. apply lt_INR in Hij.
  assert (0 < INR 254) as Hpos by (apply lt_0_INR; lia).
  assert (0 < (high - low) / INR 254) as Hstep.
  { apply Rmult_lt_0_compat; [lra | by apply Rinv_0_lt_compat]. }
  apply Rplus_lt_compat_l. by apply Rmult_lt_compat_r.
Qed.

(** The two-hot target of [DiscDist.log_prob]: for buckets from [low] to
    [high], [low < high], the weights the target puts on the buckets are not
    negative and add up to one, and the buckets weighted by them add up to
    the transformed value itself, clipped to [low, high].  So the target is a
    distribution on the buckets whose mean is the value. *)
Theorem DiscDist_target_two_hot l low high tf tb y :
  low < high →
  Forall (λ w, 0 <= w) (DiscDist_target (DiscDist_init l low high tf tb) y) ∧
  Rsum (DiscDist_target (DiscDist_init l low high tf tb) y) = 1 ∧
  Rsum (zip_with Rmult (DiscDist_target (DiscDist_init l low high tf tb) y)
          (buckets (DiscDist_init l low high tf tb)))
  = torch_clip y low high.
Proof.
  intros Hlow. unfold DiscDist_init. cbn [buckets]. rewrite linspace_255.
  assert (0 < INR 254) as Hpos by (apply lt_0_INR; lia).
  set (f := λ i : nat, low + INR i * ((high - low) / INR 254)).
  destruct (twohot_increasing f 255 y l (softmax l) tf tb) as (Hnn & Hsum & Hdot).
  - lia.
  - intros i j Hij. by apply linspace_increasing.
  - split_and!; [done | done |].
    rewrite Hdot. f_equal.
    + unfold f. simpl. lra.
    + unfold f. change (255 - 1)%nat with 254%nat. field. lra.
Qed.

Lemma DiscDist_target_two_hot_witness :
  Rsum (DiscDist_target (DiscDist_init [] (-20) 20 symlog symexp) (1 / 2)) = 1 ∧
  Rsum (zip_with Rmult
          (DiscDist_target (DiscDist_init [] (-20) 20 symlog symexp) 30)
          (buckets (DiscDist_init [] (-20) 20 symlog symexp)))
  = torch_clip 30 (-20) 20.
Proof.
  split.
  - apply (DiscDist_target_two_hot [] (-20) 20 symlog symexp (1 / 2)). lra.
  - apply (DiscDist_target_two_hot [] (-20) 20 symlog symexp 30). lra.
Defined.
End twohot_theorems.

Section log_prob_facts.
Local Open Scope R_scope.

Lemma Rsum_exp_pos (l : list R) : 0 <= Rsum (exp <$> l).
Proof.
  induction l as [|a l IH]; [simpl; lra|].
  rewrite fmap_cons, Rsum_cons. pose proof (exp_pos a). lra.
Qed.

Lemma exp_le_Rsum (l : list R) a : a ∈ l → exp a <= Rsum (exp <$> l).
Proof.
  induction l as [|b l IH]; intros Hin; [by apply elem_of_nil in Hin|].
  rewrite fmap_cons, Rsum_cons.
  apply elem_of_cons in Hin as [->|Hin].
  - pose proof (Rsum_exp_pos l). lra.
  - pose proof (exp_pos b). specialize (IH Hin). lra.
Qed.

Lemma log_pred_nonpositive (l : list R) :
  Forall (λ p, p <= 0) ((λ a, a - logsumexp l) <$> l).
Proof.
  apply Forall_fmap, Forall_forall. intros a Ha. simpl.
  unfold logsumexp. pose proof (exp_le_Rsum l a Ha) as Hle.
  pose proof (exp_pos a) as Hpos.
  assert (ln (exp a) <= ln (Rsum (exp <$> l))) as Hln.
  { destruct (Req_dec (exp a) (Rsum (exp <$> l))) as [->|Hne]; [lra|].
    apply Rlt_le, ln_increasing; lra. }
  rewrite ln_exp in Hln. lra.
Qed.

Lemma Rsum_products_nonpositive (t : list R) : ∀ p,
  Forall (λ w, 0 <= w) t → Forall (λ q, q <= 0) p →
  Rsum (zip_with Rmult t p) <= 0.
Proof.
  induction t as [|w t IH]; intros [|q p] Ht Hp; simpl; try lra.
  apply Forall_cons in Ht as [Hw Ht]. apply Forall_cons in Hp as [Hq Hp].
  specialize (IH p Ht Hp). assert (w * q <= 0) by nra. lra.
Qed.

(** [DiscDist.log_prob] on 255 logits returns, and what it returns is never
    positive: it is the cross-entropy of the two-hot target against the
    log-softmax of the logits, negated. *)
Theorem DiscDist_log_prob_nonpositive l low high tf tb x :
  low < high → length l = 255%nat →
  ∃ v, DiscDist_log_prob (DiscDist_init l low high tf tb) x = Ok v ∧ v <= 0.
Proof.
  intros Hlow Hlen. unfold DiscDist_log_prob.
  change (transfwd (DiscDist_init l low high tf tb) x) with (tf x).
  change (logits (DiscDist_init l low high tf tb)) with l.
  assert (Forall (λ w, 0 <= w)
            (DiscDist_target (DiscDist_init l low high tf tb) (tf x))) as Hnn.
  { unfold DiscDist_init. rewrite linspace_255.
    apply (twohot_increasing _ 255 (tf x) l (softmax l) tf tb); [lia|].
    intros i j Hij. by apply linspace_increasing. }
  set (target := DiscDist_target (DiscDist_init l low high tf tb) (tf x)) in *.
  assert (length target = 255%nat) as Htarget.
  { unfold target, DiscDist_target, DiscDist_init, linspace, one_hot.
    cbn [buckets]. by rewrite length_zip_with, !length_fmap, !length_seq. }
  unfold bcast. rewrite decide_True by (rewrite length_fmap, Htarget, Hlen; reflexivity).
  rewrite (mapM_Ok (λ ab : R * R, ab.1 * ab.2)), (fmap_zip_with Rmult).
  eexists. split; [reflexivity|].
  apply Rsum_products_nonpositive; [done | apply log_pred_nonpositive].
Qed.

Lemma DiscDist_log_prob_nonpositive_witness :
  ∃ v, DiscDist_log_prob (DiscDist_init (replicate 255 0) (-20) 20 symlog symexp) 3
       = Ok v ∧ v <= 0.
Proof.
  apply (DiscDist_log_prob_nonpositive (replicate 255 0) (-20) 20 symlog symexp 3).
  - lra.
  - apply length_replicate.
Defined.
End log_prob_facts.

(** ** Where the rows of a window come from *)

Section provenance_facts.
Context {V R K : Type} `{!NumPy V} `{!RandomState R}.
Implicit Types (h : Store V) (st : sampling V) (eps : list (Episode V)).

Lemma mark_first_others h ret i h' ret' k :
  mark_first h ret i = Ok (h', ret') → k ≠ "is_first" →
  dict_get ret' k = dict_get ret k.
Proof.
  unfold mark_first. intros Hmark Hk.
  destruct (dict_get ret "is_first") as [w|]; [|by injection Hmark as <- <-].
  destruct (set_true h w i) as [[h1 w1]|]; simpl in Hmark; [|done].
  injection Hmark as <- <-. by rewrite dict_get_set_ne.
Qed.

Lemma sample_step_made_of eps lens length st (rng : R) st' rng' frags :
  episodes_of_lists eps → Forall dict_wf eps →
  made_of eps frags st →
  sample_step eps lens length st rng = Ok (st', rng') →
  ∃ frags', made_of eps frags' st'.
Proof.
  intros Hlists Hwf (Hdrawn & Hstarts & Hret). unfold sample_step.
  case_decide; [done|].
  destruct (rs_choice rng (probabilities lens)) as [i rng1].
  destruct (eps !! i) as [ep|] eqn:Hep; simpl; [|done].
  destruct (first_len seq_len ep) as [total|]; simpl; [|done].
  case_decide; [intros [= <- _]; by exists frags|].
  assert (ep ∈ eps) as Hin by (by eapply list_elem_of_lookup_2).
  assert (dict_wf ep) as Hepwf by (rewrite Forall_forall in Hwf; by apply Hwf).
  destruct (window_unset (s_ret st)) eqn:Hunset.
  - (* the first fragment *)
    assert (frags = []) as ->.
    { destruct (s_ret st) as [[|kv ret0]|]; [by destruct Hret | done | done]. }
    destruct (rs_randint rng1 0 (Z.of_nat total - 1)) as [index rng2].
    set (start := Z.to_nat index).
    set (stop := (start + length) `min` total).
    destruct (mark_first _ _ 0) as [[h1 ret]|] eqn:Hmark; simpl; [|done].
    destruct (first_len wlen ret) as [size|] eqn:Hsize; simpl; [|done].
    intros [= <- _]. exists [Fragment i start (stop - start)].
    split_and!; simpl.
    + by rewrite <- Hdrawn.
    + constructor.
    + split; [by intros ->|].
      intros k w Hget Hk.
      rewrite (mark_first_others _ _ _ _ _ k Hmark Hk) in Hget.
      apply dict_get_Some_elem, first_fragment_elem in Hget as (_ & v & Hv & ->).
      destruct (Hlists ep k v Hin Hv) as [l ->]. simpl. split; [done|].
      unfold fragment_rows. simpl. rewrite Hep.
      rewrite (dict_get_elem ep k (PList l) Hepwf Hv). by rewrite app_nil_r.
  - (* a further fragment *)
    destruct (s_ret st) as [ret0|] eqn:Hret0; [|done].
    destruct Hret as [Hne Hfields]. simpl.
    set (stop := (0 + (length - s_size st)) `min` total).
    destruct (stitch_fragment _ _ _ _) as [ret1|] eqn:Hstitch; simpl; [|done].
    destruct (mark_first _ _ _) as [[h1 ret]|] eqn:Hmark; simpl; [|done].
    destruct (first_len wlen ret) as [size|] eqn:Hsize; simpl; [|done].
    intros [= <- _]. exists (frags ++ [Fragment i 0 stop]).
    split_and!; simpl.
    + by rewrite fmap_app, Hdrawn.
    + destruct frags as [|frag frags]; [constructor|]. simpl in *.
      apply Forall_app. split; [done|]. by repeat constructor.
    + split; [by intros ->|].
      intros k w Hget Hk.
      rewrite (mark_first_others _ _ _ _ _ k Hmark Hk) in Hget.
      apply dict_get_Some_elem in Hget.
      destruct (stitch_fragment_elem _ _ _ _ _ _ _ Hstitch Hget)
        as (v & old & Hv & Hold & ->).
      destruct (Hlists ep k v Hin Hv) as [l ->].
      destruct (Hfields k old Hold Hk) as [Hown Hrows].
      split; [done|]. unfold np_append. simpl.
      rewrite Hrows, fmap_app, concat_app. f_equal. simpl.
      unfold fragment_rows. simpl. rewrite Hep.
      rewrite (dict_get_elem ep k (PList l) Hepwf Hv).
      by rewrite app_nil_r, Nat.sub_0_r.
Qed.

Lemma sample_loop_made_of fuel eps lens length : ∀ st (rng : R) st' rng' frags,
  episodes_of_lists eps → Forall dict_wf eps →
  made_of eps frags st →
  sample_loop fuel eps lens length st rng = Done (st', rng') →
  ∃ frags', made_of eps frags' st'.
Proof.
  induction fuel as [|fuel IH]; intros st rng st' rng' frags Hlists Hwf Hmade; simpl.
  - case_decide; [done|]. intros [= <- _]. by exists frags.
  - case_decide; [|intros [= <- _]; by exists frags].
    destruct (sample_step eps lens length st rng) as [[st1 rng1]|] eqn:Hstep; [|done].
    destruct (sample_step_made_of _ _ _ _ _ _ _ _ Hlists Hwf Hmade Hstep)
      as [frags1 Hmade1].
    by apply (IH st1 rng1 st' rng' frags1).
Qed.

(** For a mapping whose episodes are made of lists, as [add_to_cache] builds
    them: every window [sample_episodes] yields is made of fragments of the
    episodes drawn, in the order drawn, the first from a drawn entry on and
    the others from the start of their episode; and in every field other
    than [is_first] the window holds the rows of that field in these
    fragments.  So row [j] of one field and row [j] of another belong to the
    same entry of the same episode. *)
Theorem sample_episodes_windows_made_of n : ∀ fuel h (episodes : Cache K V) length
    (rng : R) sts h' rng',
  episodes_of_lists (dict_values episodes) →
  Forall dict_wf (dict_values episodes) →
  sample_episodes n fuel h episodes length rng = Done (sts, h', rng') →
  Forall (λ st, ∃ frags, made_of (dict_values episodes) frags st) sts.
Proof.
  induction n as [|n IH]; intros fuel h episodes length rng sts h' rng' Hlists Hwf;
    simpl.
  - intros [= <- _ _]. constructor.
  - destruct (sample_window fuel h episodes length rng) as [[st rng1]| |] eqn:Hwin;
      [|done..].
    destruct (sample_episodes n fuel (s_store st) episodes length rng1)
      as [[[sts1 h1] rng2]| |] eqn:Hrest; [|done..].
    intros [= <- _ _]. constructor; [|by eapply IH].
    unfold sample_window in Hwin. destruct (mapM _ _) as [lens|]; [|done].
    eapply (sample_loop_made_of _ _ _ _ _ _ _ _ []); [done | done | | done].
    by split_and!.
Qed.
End provenance_facts.

Section provenance_examples.
Import Fixture.

Lemma sample_episodes_windows_made_of_witness :
  ∃ st frags,
    sample_episodes 1 4 [] listed_cache 4 [1; 0; 0]%nat
    = Done ([st], [], [] : list nat) ∧
    made_of (dict_values listed_cache) frags st.
Proof.
  eexists. 
  assert (Forall (λ st, ∃ frags, made_of (dict_values listed_cache) frags st)
            [Sampling 4
               (Some [("is_first", WArray [TBool true; TBool false; TBool true; TBool false]);
                      ("reward", WArray [TFloat 0; TFloat 5; TFloat 0; TFloat 1])])
               [] [2%nat] [1; 0]%nat]) as Hall.
  { apply (sample_episodes_windows_made_of (R := list nat) 1 4 [] listed_cache 4
             [1; 0; 0]%nat _ [] []).
    - intros ep k s Hep Hks. unfold listed_cache in Hep. simpl in Hep.
      repeat (apply elem_of_cons in Hep as [-> | Hep];
        [repeat (apply elem_of_cons in Hks as [[= -> ->] | Hks]; [by eexists|]);
         by apply elem_of_nil in Hks|]).
      by apply elem_of_nil in Hep.
    - unfold listed_cache. simpl.
      repeat (apply Forall_cons_2; [refine (bool_decide_unpack _ _); by vm_compute|]).
      apply Forall_nil_2.
    - by vm_compute. }
  apply Forall_inv in Hall as [frags Hmade].
  exists frags. split; [by vm_compute | exact Hmade].
Defined.
End provenance_examples.

Section mean_facts.
Local Open Scope R_scope.

Lemma symexp_nonneg x : 0 <= x → symexp x = exp x - 1.
Proof.
  intros Hx. unfold symexp. destruct (Req_dec x 0) as [->|Hne].
  - rewrite torch_sign_zero, Rabs_R0, exp_0. lra.
  - rewrite torch_sign_pos, Rabs_right by lra. lra.
Qed.

Lemma symexp_neg x : x < 0 → symexp x = 1 - exp (- x).
Proof.
  intros Hx. unfold symexp. rewrite torch_sign_neg, Rabs_left by lra. lra.
Qed.

Lemma exp_le x y : x <= y → exp x <= exp y.
Proof.
  intros [Hlt | ->]; [|lra]. apply Rlt_le. by apply exp_increasing.
Qed.

Lemma symexp_increasing x y : x <= y → symexp x <= symexp y.
Proof.
  intros Hxy.
  destruct (Rlt_le_dec x 0) as [Hx|Hx]; destruct (Rlt_le_dec y 0) as [Hy|Hy].
  - rewrite !symexp_neg by done.
    pose proof (exp_le (- y) (- x) ltac:(lra)). lra.
  - rewrite symexp_neg, symexp_nonneg by done.
    pose proof (exp_le 0 (- x) ltac:(lra)) as H1.
    pose proof (exp_le 0 y ltac:(lra)) as H2. rewrite exp_0 in H1, H2. lra.
  - lra.
  - rewrite !symexp_nonneg by done. pose proof (exp_le x y Hxy). lra.
Qed.

Lemma softmax_distribution (l : list R) :
  l ≠ [] → Forall (λ p, 0 <= p) (softmax l) ∧ Rsum (softmax l) = 1.
Proof.
  intros Hne. unfold softmax.
  assert (0 < Rsum (exp <$> l)) as Hpos.
  { destruct l as [|a l]; [done|].
    rewrite fmap_cons, Rsum_cons.
    pose proof (exp_pos a). pose proof (Rsum_exp_pos l). lra. }
  set (s := Rsum (exp <$> l)) in *. split.
  - apply Forall_fmap, Forall_forall. intros a _. simpl.
    apply Rmult_le_pos; [apply Rlt_le, exp_pos | apply Rlt_le; by apply Rinv_0_lt_compat].
  - assert (∀ k : list R, Rsum ((λ a, exp a / s) <$> k) = Rsum (exp <$> k) / s) as Hdiv.
    { induction k as [|a k IH]; [simpl; lra|].
      rewrite !fmap_cons, !Rsum_cons, IH. lra. }
    rewrite Hdiv. fold s. field. lra.
Qed.

(** A weighted average of values between [low] and [high] lies between
    them. *)
Lemma Rsum_average (p : list R) : ∀ b low high,
  length p = length b →
  Forall (λ w, 0 <= w) p → Forall (λ v, low <= v <= high) b →
  low * Rsum p <= Rsum (zip_with Rmult p b) <= high * Rsum p.
Proof.
  induction p as [|w p IH]; intros [|v b] low high Hlen Hp Hb;
    try (simpl in Hlen; discriminate); [simpl; lra|].
  apply Forall_cons in Hp as [Hw Hp]. apply Forall_cons in Hb as [Hv Hb].
  specialize (IH b low high ltac:(simpl in Hlen; lia) Hp Hb).
  cbn [zip_with]. rewrite !Rsum_cons.
  assert (low * w <= w * v) by nra. assert (w * v <= high * w) by nra. lra.
Qed.

(** [DiscDist.mean] with the transforms [symlog] and [symexp], on 255
    logits: the mean returned lies between [symexp(low)] and
    [symexp(high)]. *)
Theorem DiscDist_mean_bounded l low high :
  low < high → length l = 255%nat →
  ∃ m, DiscDist_mean (DiscDist_init l low high symlog symexp) = Ok m ∧
       symexp low <= m <= symexp high.
Proof.
  intros Hlow Hlen. unfold DiscDist_mean.
  change (probs (DiscDist_init l low high symlog symexp)) with (softmax l).
  change (buckets (DiscDist_init l low high symlog symexp))
    with (linspace low high 255).
  change (transbwd (DiscDist_init l low high symlog symexp)) with symexp.
  assert (length (softmax l) = 255%nat) as Hp
    by (unfold softmax; by rewrite length_fmap).
  assert (length (linspace low high 255) = 255%nat) as Hb
    by (unfold linspace; by rewrite length_fmap, length_seq).
  unfold bcast. rewrite decide_True by (by rewrite Hp, Hb).
  rewrite (mapM_Ok (λ ab : R * R, ab.1 * ab.2)), (fmap_zip_with Rmult).
  eexists. split; [reflexivity|].
  destruct (softmax_distribution l) as [Hnn Hone].
  { intros ->. simpl in Hlen. lia. }
  assert (Forall (λ v, low <= v <= high) (linspace low high 255)) as Hrange.
  { unfold linspace. apply Forall_fmap, Forall_forall.
    intros i Hi%elem_of_seq. unfold compose. cbv beta.
    assert (INR 255 - 1 = INR 254) as -> by (rewrite (S_INR 254); lra).
    assert (0 < INR 254) as Hpos by (apply lt_0_INR; lia).
    assert (0 <= INR i <= INR 254) as Hir.
    { split; [apply pos_INR | apply le_INR; lia]. }
    assert (0 <= INR i / INR 254 <= 1) as Hfrac.
    { split.
      - apply Rmult_le_pos; [lra | apply Rlt_le; by apply Rinv_0_lt_compat].
      - apply (Rmult_le_reg_r (INR 254)); [done|]. field_simplify; lra. }
    replace (INR i * ((high - low) / INR 254))
      with ((INR i / INR 254) * (high - low)) by (field; lra).
    nra. }
  pose proof (Rsum_average (softmax l) (linspace low high 255) low high
                ltac:(by rewrite Hp, Hb) Hnn Hrange) as Havg.
  rewrite Hone in Havg.
  split; apply symexp_increasing; lra.
Qed.

Lemma DiscDist_mean_bounded_witness :
  ∃ m, DiscDist_mean (DiscDist_init (replicate 255 0) (-20) 20 symlog symexp) = Ok m ∧
       symexp (-20) <= m <= symexp 20.
Proof.
  apply (DiscDist_mean_bounded (replicate 255 0) (-20) 20).
  - lra.
  - apply length_replicate.
Defined.
End mean_facts.
